(** * keama/parse.c: statement and expression parsing engine

    A shallow embedding of the parts of [keama/parse.c] that the
    specification talks about: the numeric codec ([convert_num]), the
    aggregate parser ([parse_numeric_aggregate]), the expression context
    classifier ([expression_context] and the three [is_*_expression]
    predicates), the operator tables ([op_context], [op_val],
    [op_precedence]), the expression parser ([parse_non_binary],
    [parse_expression]), the statement parser ([parse_if_statement],
    [parse_switch_statement], [parse_zone], ...) and the scope walk of
    [config_valid_lifetime].

    Conventions.
    - [parse_error] does not return (it lives in keama.c and ends the
      run): it is the [Fatal] outcome, carrying the format string of the
      call site.
    - A C function [isc_boolean_t f(struct element *expr, ...)] that fills
      a freshly created [expr] becomes a function returning
      [option element]: [Some e] is ISC_TRUE with [expr = e], [None] is
      ISC_FALSE.
    - The lexer is out of the file: a [struct parse] holds the tokens
      still to be read, [peek_token] looks at the first one and
      [next_token] removes it; the end of the list is END_OF_FILE. *)

From Stdlib Require Import ZArith List String Ascii Bool Lia.
Import ListNotations.

Open Scope string_scope.
Open Scope list_scope.
Open Scope Z_scope.

(* ================================================================== *)
(** * Elements (the tree built by the translator)                      *)
(* ================================================================== *)

(** Modelled from the spec: the element variants and the builder
    interface are declared in keama's data.h/data.c, which are not in the
    source tree under study: Null, Boolean, Integer, String, Map (keys in
    insertion order) and List, each node with a skip flag and a list of
    comments. *)
Inductive value (E : Type) : Type :=
  | VNull
  | VBool (b : bool)
  | VInt (n : Z)
  | VString (s : string)
  | VMap (m : list (string * E))
  | VList (l : list E).

Arguments VNull {E}.
Arguments VBool {E} b.
Arguments VInt {E} n.
Arguments VString {E} s.
Arguments VMap {E} m.
Arguments VList {E} l.

#[warnings="-register-all"]
Inductive element : Type :=
  Element { content : value element; skip : bool; comments : list string }.

Inductive element_type : Type :=
  | ELEMENT_NULL | ELEMENT_BOOLEAN | ELEMENT_INTEGER
  | ELEMENT_STRING | ELEMENT_MAP | ELEMENT_LIST.

Definition type_of (e : element) : element_type :=
  match content e with
  | VNull => ELEMENT_NULL
  | VBool _ => ELEMENT_BOOLEAN
  | VInt _ => ELEMENT_INTEGER
  | VString _ => ELEMENT_STRING
  | VMap _ => ELEMENT_MAP
  | VList _ => ELEMENT_LIST
  end.

Definition element_type_eqb (a b : element_type) : bool :=
  match a, b with
  | ELEMENT_NULL, ELEMENT_NULL | ELEMENT_BOOLEAN, ELEMENT_BOOLEAN
  | ELEMENT_INTEGER, ELEMENT_INTEGER | ELEMENT_STRING, ELEMENT_STRING
  | ELEMENT_MAP, ELEMENT_MAP | ELEMENT_LIST, ELEMENT_LIST => true
  | _, _ => false
  end.

Definition createNull : element := Element VNull false [].
Definition createInt (n : Z) : element := Element (VInt n) false [].
Definition createString (s : string) : element := Element (VString s) false [].
Definition createMap : element := Element (VMap []) false [].
Definition createList : element := Element (VList []) false [].

Definition set_skip (e : element) : element :=
  Element (content e) true (comments e).

Definition add_comment (e : element) (c : string) : element :=
  Element (content e) (skip e) (comments e ++ [c]).

Definition add_comments (e : element) (cs : list string) : element :=
  Element (content e) (skip e) (comments e ++ cs).

(** Modelled from the spec: [mapSet] is the builder's "set(key, value)".
    It appends the child at the tail of the map (insertion order) and
    does not look for an earlier child with the same key: where the
    parser wants a key at most once it tests [mapContains] first. On an
    element that is not a map it leaves the element as it is. *)
Definition mapSet (m : element) (e : element) (k : string) : element :=
  match content m with
  | VMap l => Element (VMap (l ++ [(k, e)])) (skip m) (comments m)
  | _ => m
  end.

(** Modelled from the spec: "contains(key) -> bool". *)
Definition mapContains (m : element) (k : string) : bool :=
  match content m with
  | VMap l => existsb (fun p => String.eqb (fst p) k) l
  | _ => false
  end.

(** Modelled from the spec: "get(key) -> optional value", the first child
    stored under the key. *)
Definition mapGet (m : element) (k : string) : option element :=
  match content m with
  | VMap l =>
      match find (fun p => String.eqb (fst p) k) l with
      | Some p => Some (snd p)
      | None => None
      end
  | _ => None
  end.

(** Modelled from the spec: "push(value)" on a list. *)
Definition listPush (l : element) (e : element) : element :=
  match content l with
  | VList xs => Element (VList (xs ++ [e])) (skip l) (comments l)
  | _ => l
  end.

(** Modelled from the spec: [resetInt] and [resetString] (data.c) turn
    the element into a scalar; it keeps its flag and comments. *)
Definition resetInt (e : element) (n : Z) : element :=
  Element (VInt n) (skip e) (comments e).

Definition resetString (e : element) (s : string) : element :=
  Element (VString s) (skip e) (comments e).

(** Number of children of a map stored under a key. *)
Definition key_count (m : element) (k : string) : nat :=
  match content m with
  | VMap l => List.length (filter (fun p => String.eqb (fst p) k) l)
  | _ => 0%nat
  end.

(* ================================================================== *)
(** * Expression contexts and the classifier                            *)
(* ================================================================== *)

Inductive expression_context_t : Type :=
  | context_any
  | context_boolean
  | context_data
  | context_numeric
  | context_data_or_numeric.

Definition context_eqb (a b : expression_context_t) : bool :=
  match a, b with
  | context_any, context_any
  | context_boolean, context_boolean
  | context_data, context_data
  | context_numeric, context_numeric
  | context_data_or_numeric, context_data_or_numeric => true
  | _, _ => false
  end.

(** The key tables of the three predicates, in the order of the source. *)
Definition boolean_keys : list string :=
  [ "check"; "exists"; "variable-exists"; "equal"; "not-equal";
    "regex-match"; "iregex-match"; "and"; "or"; "not"; "known"; "static" ].

Definition data_keys : list string :=
  [ "substring"; "suffix"; "lowercase"; "uppercase"; "option"; "hardware";
    "packet"; "concat"; "encapsulate"; "encode-int8"; "encode-int16";
    "encode-int32"; "gethostbyname"; "binary-to-ascii"; "filename";
    "server-name"; "reverse"; "pick-first-value"; "host-decl-name";
    "leased-address"; "config-option"; "null"; "gethostname"; "v6relay" ].

Definition numeric_keys : list string :=
  [ "extract-int8"; "extract-int16"; "extract-int32"; "lease-time"; "add";
    "subtract"; "multiply"; "divide"; "remainder"; "binary-and";
    "binary-or"; "binary-xor"; "client-state" ].

Definition is_boolean_expression (expr : element) : bool :=
  element_type_eqb (type_of expr) ELEMENT_BOOLEAN
  || existsb (mapContains expr) boolean_keys.

Definition is_data_expression (expr : element) : bool :=
  element_type_eqb (type_of expr) ELEMENT_INTEGER
  || element_type_eqb (type_of expr) ELEMENT_STRING
  || existsb (mapContains expr) data_keys.

Definition is_numeric_expression (expr : element) : bool :=
  element_type_eqb (type_of expr) ELEMENT_INTEGER
  || existsb (mapContains expr) numeric_keys.

Definition expression_context (expr : element) : expression_context_t :=
  if is_data_expression expr then context_data
  else if is_numeric_expression expr then context_numeric
  else if is_boolean_expression expr then context_boolean
  else context_any.

(* ================================================================== *)
(** * Outcomes                                                          *)
(* ================================================================== *)

(** [Done a]: the call returned [a].  [Fatal msg]: the call went through
    [parse_error], which reports and ends the run; [msg] is the format
    string of that call.  [Exhausted]: the recursion budget of the
    embedding ran out (no run of the program corresponds to it).
    [Outside what]: the input reaches a construct whose parser is not
    part of this embedding (it needs the option registry or another
    file); [what] names it. *)
Inductive outcome (A : Type) : Type :=
  | Done (a : A)
  | Fatal (msg : string)
  | Exhausted
  | Outside (what : string).

Arguments Done {A} a.
Arguments Fatal {A} msg.
Arguments Exhausted {A}.
Arguments Outside {A} what.

(** An outcome that is a return or a fatal error. *)
Definition settled {A} (o : outcome A) : Prop :=
  match o with
  | Done _ | Fatal _ => True
  | _ => False
  end.

(* ================================================================== *)
(** * Machine integers                                                  *)
(* ================================================================== *)

(** [uint32_t] and [unsigned]: arithmetic modulo 2^32. *)
Definition wrap_u32 (z : Z) : Z := z mod 2 ^ 32.

(** [int]: 32 bits, two's complement, the value the usual compilers give
    when a shift or a sum leaves the range. *)
Definition wrap_int (z : Z) : Z := (z + 2 ^ 31) mod 2 ^ 32 - 2 ^ 31.

Definition char_code (c : ascii) : Z := Z.of_N (N_of_ascii c).

(** [*ptr] on a C string: the code of the first character, 0 at the end. *)
Definition deref (s : string) : Z :=
  match s with
  | EmptyString => 0
  | String c _ => char_code c
  end.

(** [ptr + 1]. *)
Definition advance (s : string) : string :=
  match s with
  | EmptyString => EmptyString
  | String _ r => r
  end.

(** Byte [i] (0 is the least significant) of a value. *)
Definition byte_at (v : Z) (i : Z) : Z := Z.land (Z.shiftr v (8 * i)) 255.

(** [putULong] and [putLong]: [htonl] then [memcpy], that is the four
    bytes of the low 32 bits, most significant first. *)
Definition putULong (val : Z) : list Z :=
  let v := wrap_u32 val in [byte_at v 3; byte_at v 2; byte_at v 1; byte_at v 0].

Definition putLong (val : Z) : list Z :=
  let v := wrap_u32 (wrap_int val) in
  [byte_at v 3; byte_at v 2; byte_at v 1; byte_at v 0].

(** [putUShort] and [putShort]: [htons] takes the low 16 bits. *)
Definition putUShort (val : Z) : list Z :=
  let v := wrap_u32 val mod 2 ^ 16 in [byte_at v 1; byte_at v 0].

Definition putShort (val : Z) : list Z :=
  let v := wrap_u32 (wrap_int val) mod 2 ^ 16 in [byte_at v 1; byte_at v 0].

(* ================================================================== *)
(** * convert_num                                                       *)
(* ================================================================== *)

(** The sign test at the head of [convert_num]. *)
Definition scan_sign (str : string) : bool * string :=
  if deref str =? char_code "-" then (true, advance str) else (false, str).

(** "If base wasn't specified, figure it out from the data." *)
Definition infer_base (base : Z) (ptr : string) : Z * string :=
  if base =? 0 then
    if deref ptr =? char_code "0" then
      if deref (advance ptr) =? char_code "x" then (16, advance (advance ptr))
      else if (char_code "0" <=? deref (advance ptr))
              && (deref (advance ptr) <=? char_code "9")
      then (8, advance ptr)
      else (10, ptr)
    else (10, ptr)
  else (base, ptr).

(** One character of the digit loop: the value of the digit, or the
    "Bogus number" error for a character below '0'. *)
Definition digit_value (tval : Z) : option Z :=
  if tval >=? char_code "a" then Some (tval - char_code "a" + 10)
  else if tval >=? char_code "A" then Some (tval - char_code "A" + 10)
  else if tval >=? char_code "0" then Some (tval - char_code "0")
  else None.

(** The do-while loop over the digits: [val] is a [uint32_t]. *)
Fixpoint convert_digits (base : Z) (ptr : string) (val : Z) : outcome Z :=
  match digit_value (deref ptr) with
  | None => Fatal "Bogus number: %s."
  | Some tval =>
      if tval >=? base then Fatal "Bogus number %s: digit %d not in base %d"
      else
        let val' := wrap_u32 (val * base + tval) in
        match ptr with
        | EmptyString => Done val'
        | String _ rest =>
            if deref rest =? 0 then Done val' else convert_digits base rest val'
        end
  end.

(** The bound [max] ([int]) as the code computes it, and the message of
    the range check, which depends on the base. *)
Definition convert_max (negative : bool) (size : Z) : Z :=
  let half := wrap_int (Z.shiftl 1 (size - 1)) in
  if negative then half else wrap_int (half + wrap_int (half - 1)).

Definition exceeds_message (base : Z) : string :=
  if base =? 8 then "%s%lo exceeds max (%d) for precision."
  else if base =? 16 then "%s%lx exceeds max (%d) for precision."
  else "%s%lu exceeds max (%d) for precision.".

(** The message for a size that is none of 8, 16 and 32; the format
    ends in a newline. *)
Definition unexpected_size : string :=
  String.append "Unexpected integer size: %d" (String (ascii_of_nat 10) EmptyString).

(** The store at the end of [convert_num]: the bytes written to [buf]. *)
Definition store_num (negative : bool) (size : Z) (val : Z) : outcome (list Z) :=
  if negative then
    if size =? 8 then Done [(- val) mod 2 ^ 64 mod 2 ^ 8]
    else if size =? 16 then Done (putShort (- val))
    else if size =? 32 then Done (putLong (- val))
    else Fatal unexpected_size
  else
    if size =? 8 then Done [val mod 2 ^ 8]
    else if size =? 16 then Done (putUShort (val mod 2 ^ 16))
    else if size =? 32 then Done (putULong val)
    else Fatal unexpected_size.

(** [convert_num(cfile, buf, str, base, size)]: the bytes stored in
    [buf].  The comparison [val > max] is between a [uint32_t] and an
    [int], so [max] is converted to unsigned. *)
Definition convert_num (str : string) (base : Z) (size : Z) : outcome (list Z) :=
  let '(negative, ptr) := scan_sign str in
  let '(base, ptr) := infer_base base ptr in
  match convert_digits base ptr 0 with
  | Done val =>
      let max := convert_max negative size in
      if val >? wrap_u32 max then Fatal (exceeds_message base)
      else store_num negative size val
  | Fatal m => Fatal m
  | Exhausted => Exhausted
  | Outside w => Outside w
  end.

(** The first half of [convert_num] on its own: sign, base and the
    magnitude read by the digit loop. *)
Definition decode_magnitude (str : string) (base : Z) : outcome (bool * Z * Z) :=
  let '(negative, ptr) := scan_sign str in
  let '(base, ptr) := infer_base base ptr in
  match convert_digits base ptr 0 with
  | Done val => Done (negative, base, val)
  | Fatal m => Fatal m
  | Exhausted => Exhausted
  | Outside w => Outside w
  end.

(** The words of the specification for the numeric codec: the bound of
    the range check, the Overflow condition and the big-endian encoding
    of a value at a width. *)
Definition spec_bound (negative : bool) (width : Z) : Z :=
  if negative then 2 ^ (width - 1) else 2 ^ width - 1.

Definition Overflow (A : Type) (r : outcome A) : Prop :=
  exists base, r = Fatal (exceeds_message base).

Arguments Overflow {A} r.

Fixpoint big_endian_bytes (n : nat) (v : Z) : list Z :=
  match n with
  | O => []
  | S k => (v / 2 ^ (8 * Z.of_nat k)) mod 256 :: big_endian_bytes k v
  end.

Definition spec_encode (width : Z) (negative : bool) (magnitude : Z) : list Z :=
  let v := (if negative then - magnitude else magnitude) mod 2 ^ width in
  big_endian_bytes (Z.to_nat (width / 8)) v.

(** The number a digit string denotes, read without the 32-bit
    wrap-around of [val]: the same loop on unbounded integers. *)
Fixpoint digits_exact (base : Z) (ptr : string) (val : Z) : outcome Z :=
  match digit_value (deref ptr) with
  | None => Fatal "Bogus number: %s."
  | Some tval =>
      if tval >=? base then Fatal "Bogus number %s: digit %d not in base %d"
      else
        let val' := val * base + tval in
        match ptr with
        | EmptyString => Done val'
        | String _ rest =>
            if deref rest =? 0 then Done val' else digits_exact base rest val'
        end
  end.

(** The first half of [convert_num] read with [digits_exact]: the sign,
    the base and the number that the digits denote. *)
Definition decode_exact (str : string) (base : Z) : outcome (bool * Z * Z) :=
  let '(negative, ptr) := scan_sign str in
  let '(base, ptr) := infer_base base ptr in
  match digits_exact base ptr 0 with
  | Done val => Done (negative, base, val)
  | Fatal m => Fatal m
  | Exhausted => Exhausted
  | Outside w => Outside w
  end.

(* ================================================================== *)
(** * Tokens and the parse state                                        *)
(* ================================================================== *)

(** The token kinds that [parse.c] names (the enumeration itself is in
    dhctoken.h). *)
Inductive dhcp_token : Type :=
  (* punctuation *)
  | SEMI | LBRACE | RBRACE | LPAREN | RPAREN | COMMA | COLON | DOT
  | EQUAL | BANG | TILDE | PLUS | MINUS | SLASH | ASTERISK | PERCENT
  | AMPERSAND | PIPE | CARET | EOL
  (* literals *)
  | NUMBER | NUMBER_OR_NAME | NAME | STRING | END_OF_FILE
  (* expression keywords *)
  | AND | OR | TOKEN_NOT | CHECK | EXISTS | STATIC | KNOWN | SUBSTRING
  | SUFFIX | LCASE | UCASE | CONCAT | BINARY_TO_ASCII | REVERSE | PICK
  | OPTION | CONFIG_OPTION | HARDWARE | LEASED_ADDRESS | CLIENT_STATE
  | FILENAME | SERVER_NAME | LEASE_TIME | TOKEN_NULL | HOST_DECL_NAME
  | PACKET | EXTRACT_INT | ENCODE_INT
  | NS_FORMERR | NS_NOERROR | NS_NOTAUTH | NS_NOTIMP | NS_NOTZONE
  | NS_NXDOMAIN | NS_NXRRSET | NS_REFUSED | NS_SERVFAIL | NS_YXDOMAIN
  | NS_YXRRSET | BOOTING | REBOOT | SELECT | REQUEST | BOUND | RENEW
  | REBIND | DEFINED | GETHOSTNAME | GETHOSTBYNAME | V6RELAY
  (* statement keywords *)
  | DB_TIME_FORMAT | IF | ELSE | ELSIF | TOKEN_ADD | BREAK | SEND
  | SUPERSEDE | PREPEND | APPEND | ALLOW | DENY | IGNORE | DEFAULT | ON
  | SWITCH | CASE | DEFINE | TOKEN_SET | UNSET | EVAL | EXECUTE | RETURN
  | LOG | PARSE_VENDOR_OPT | ZONE | KEY | LOCAL | FATAL | ERROR
  | TOKEN_DEBUG | INFO | EXPIRY | COMMIT | RELEASE | TRANSMISSION
  | PRIMARY | SECONDARY | PRIMARY6 | SECONDARY6 | ALGORITHM | SECRET.

Scheme Equality for dhcp_token.

Definition token_eqb := dhcp_token_beq.

(** Modelled from the spec: the kinds of a token are keyword,
    identifier, number, string, punctuation and end of file;
    [is_identifier] (a macro of dhctoken.h) holds of the keywords and of
    the names, not of numbers, strings, punctuation or the end of file. *)
Definition is_identifier (t : dhcp_token) : bool :=
  match t with
  | SEMI | LBRACE | RBRACE | LPAREN | RPAREN | COMMA | COLON | DOT
  | EQUAL | BANG | TILDE | PLUS | MINUS | SLASH | ASTERISK | PERCENT
  | AMPERSAND | PIPE | CARET | EOL
  | NUMBER | STRING | END_OF_FILE => false
  | _ => true
  end.

(** The kinds of the frames of the declaration stack that [parse.c]
    names (constants of keama.h). *)
Inductive decl_kind : Type :=
  | ROOT_GROUP | HOST_DECL | SHARED_NET_DECL | SUBNET_DECL | CLASS_DECL
  | GROUP_DECL | POOL_DECL | PARAMETER.

Definition decl_kind_eqb (a b : decl_kind) : bool :=
  match a, b with
  | ROOT_GROUP, ROOT_GROUP | HOST_DECL, HOST_DECL
  | SHARED_NET_DECL, SHARED_NET_DECL | SUBNET_DECL, SUBNET_DECL
  | CLASS_DECL, CLASS_DECL | GROUP_DECL, GROUP_DECL
  | POOL_DECL, POOL_DECL | PARAMETER, PARAMETER => true
  | _, _ => false
  end.

(** A frame of the stack: an element and its [kind] field. *)
Record frame : Type := Frame { kind : decl_kind; body : element }.

(** [struct parse], as far as this file uses it: the tokens not yet
    read (each with its text), the comments waiting to be attached, the
    issue counter and the declaration stack ([stack] holds
    [stack[0] .. stack[stack_top]], so [stack_top] is its length minus
    one).  [lose] is not a field of the C structure: it is the flag that
    the parsing functions receive by pointer and hand on to each other,
    kept here with the rest of the state. *)
Record parse : Type := Parse {
  tokens : list (dhcp_token * string);
  pending : list string;
  issue_counter : Z;
  stack : list frame;
  lose : bool
}.

Definition M (A : Type) : Type := parse -> outcome (A * parse).

Definition ret {A} (a : A) : M A := fun c => Done (a, c).

Definition bind {A B} (m : M A) (k : A -> M B) : M B :=
  fun c =>
    match m c with
    | Done (a, c') => k a c'
    | Fatal msg => Fatal msg
    | Exhausted => Exhausted
    | Outside w => Outside w
    end.

Notation "x <- m ;; k" := (bind m (fun x => k))
  (at level 61, m at next level, right associativity).
Notation "m ;;; k" := (bind m (fun _ => k))
  (at level 61, right associativity).

Definition parse_error {A} (msg : string) : M A := fun _ => Fatal msg.

Definition out_of_fuel {A} : M A := fun _ => Exhausted.

Definition outside {A} (what : string) : M A := fun _ => Outside what.

(** [if (cond) parse_error(msg);] *)
Definition error_if (cond : bool) (msg : string) : M unit :=
  if cond then parse_error msg else ret tt.

Definition lift {A} (o : outcome A) : M A :=
  fun c =>
    match o with
    | Done a => Done (a, c)
    | Fatal m => Fatal m
    | Exhausted => Exhausted
    | Outside w => Outside w
    end.

(** The lexer interface. *)
Definition peek_token : M (dhcp_token * string) :=
  fun c =>
    match tokens c with
    | [] => Done ((END_OF_FILE, ""), c)
    | t :: _ => Done (t, c)
    end.

Definition next_token : M (dhcp_token * string) :=
  fun c =>
    match tokens c with
    | [] => Done ((END_OF_FILE, ""), c)
    | t :: rest =>
        Done (t, Parse rest (pending c) (issue_counter c) (stack c) (lose c))
    end.

Definition skip_token : M (dhcp_token * string) := next_token.

(** [cfile->issue_counter++] *)
Definition issue : M unit :=
  fun c => Done (tt, Parse (tokens c) (pending c) (issue_counter c + 1)
                           (stack c) (lose c)).

Definition get_lose : M bool := fun c => Done (lose c, c).

Definition set_lose (b : bool) : M unit :=
  fun c => Done (tt, Parse (tokens c) (pending c) (issue_counter c)
                           (stack c) b).

(** [TAILQ_CONCAT(&e->comments, &cfile->comments)]: the waiting comments
    move to the element. *)
Definition take_comments (e : element) : M element :=
  fun c => Done (add_comments e (pending c),
                 Parse (tokens c) [] (issue_counter c) (stack c) (lose c)).

Definition remaining : M nat := fun c => Done (List.length (tokens c), c).

Definition parse_semi : M unit :=
  t <- next_token ;;
  error_if (negb (token_eqb (fst t) SEMI)) "semicolon expected.".

(* ================================================================== *)
(** * parse_numeric_aggregate                                           *)
(* ================================================================== *)

(** The token test of the loop: "Allow NUMBER_OR_NAME if base is 16." *)
Definition not_numeric_token (t : dhcp_token) (base : Z) : bool :=
  negb (token_eqb t NUMBER)
  && (negb (base =? 16) || negb (token_eqb t NUMBER_OR_NAME)).

(** The [do ... while (++count != *max)] loop.  [count] is an
    [unsigned]; [acc] is what has been stored so far, in [buf] or in the
    string [r] (both variants of the C code store the same bytes, one
    element of [size / 8] bytes after the other).  The result is the
    stored bytes and the final [count]. *)
Fixpoint aggregate_loop (fuel : nat) (max : Z) (separator : dhcp_token)
    (base size : Z) (count : Z) (acc : list Z) : M (list Z * Z) :=
  match fuel with
  | O => out_of_fuel
  | S fuel' =>
      let number :=
        t <- next_token ;;
        error_if (token_eqb (fst t) END_OF_FILE) "unexpected end of file" ;;;
        error_if (not_numeric_token (fst t) base) "expecting numeric value." ;;;
        bytes <- lift (convert_num (snd t) base size) ;;
        let count' := wrap_u32 (count + 1) in
        if count' =? max then ret (acc ++ bytes, count')
        else aggregate_loop fuel' max separator base size count' (acc ++ bytes)
      in
      if count =? 0 then number
      else
        t <- peek_token ;;
        if negb (token_eqb (fst t) separator) then
          if max =? 0 then ret (acc, count)
          else
            (if negb (token_eqb (fst t) RBRACE) && negb (token_eqb (fst t) LBRACE)
             then next_token ;;; ret tt else ret tt) ;;;
            parse_error "too few numbers."
        else
          skip_token ;;; number
  end.

(** [parse_numeric_aggregate(cfile, buf, &max, separator, base, size)]:
    the string returned and the value left in [*max].  Every turn of
    the loop that goes on has read a token, so the number of tokens
    left, plus one, bounds the number of turns. *)
Definition parse_numeric_aggregate (max : Z) (separator : dhcp_token)
    (base size : Z) : M (list Z * Z) :=
  n <- remaining ;;
  aggregate_loop (S n) max separator base size 0 [].

(** A state that holds only tokens. *)
Definition lexed (toks : list (dhcp_token * string)) : parse :=
  Parse toks [] 0 [] false.

(** The words of the specification for the aggregate parser: the input
    is a run of number tokens with the separator between them.
    [separated sep ns] is the token sequence "sep n1 sep n2 ..." that
    follows a first number; a number token is valid when the loop
    accepts its kind and the codec converts its text; the expected
    result is the encodings one after the other. *)
Definition separated (sep : dhcp_token * string)
    (ns : list (dhcp_token * string)) : list (dhcp_token * string) :=
  flat_map (fun n => [sep; n]) ns.

Definition valid_number (base size : Z) (n : dhcp_token * string) : Prop :=
  not_numeric_token (fst n) base = false /\
  exists bytes, convert_num (snd n) base size = Done bytes.

Definition number_bytes (base size : Z) (n : dhcp_token * string) : list Z :=
  match convert_num (snd n) base size with
  | Done bytes => bytes
  | _ => []
  end.

Definition encode_numbers (base size : Z)
    (ns : list (dhcp_token * string)) : list Z :=
  flat_map (number_bytes base size) ns.

Definition with_tokens (c : parse) (toks : list (dhcp_token * string)) : parse :=
  Parse toks (pending c) (issue_counter c) (stack c) (lose c).

Definition first_token (toks : list (dhcp_token * string)) : dhcp_token :=
  match toks with
  | [] => END_OF_FILE
  | t :: _ => fst t
  end.

(* ================================================================== *)
(** * Operators                                                         *)
(* ================================================================== *)

(** [enum expr_op], the members named in [op_context] and [op_val]. *)
Inductive expr_op : Type :=
  | expr_none | expr_match | expr_static | expr_check | expr_substring
  | expr_suffix | expr_lcase | expr_ucase | expr_concat | expr_encapsulate
  | expr_host_lookup | expr_not | expr_option | expr_hardware | expr_packet
  | expr_const_data | expr_extract_int8 | expr_extract_int16
  | expr_extract_int32 | expr_encode_int8 | expr_encode_int16
  | expr_encode_int32 | expr_const_int | expr_exists | expr_variable_exists
  | expr_known | expr_binary_to_ascii | expr_reverse | expr_filename
  | expr_sname | expr_pick_first_value | expr_host_decl_name
  | expr_config_option | expr_leased_address | expr_lease_time | expr_null
  | expr_variable_reference | expr_ns_add | expr_ns_delete | expr_ns_exists
  | expr_ns_not_exists | expr_dns_transaction | expr_arg | expr_funcall
  | expr_function | expr_gethostname | expr_v6relay | expr_concat_dclist
  | expr_equal | expr_not_equal | expr_regex_match | expr_iregex_match
  | expr_and | expr_or
  | expr_add | expr_subtract | expr_multiply | expr_divide | expr_remainder
  | expr_binary_and | expr_binary_or | expr_binary_xor | expr_client_state.

Definition is_expr_none (op : expr_op) : bool :=
  match op with expr_none => true | _ => false end.

Definition op_context (op : expr_op) : expression_context_t :=
  match op with
  | expr_equal | expr_not_equal | expr_regex_match | expr_iregex_match =>
      context_data
  | expr_and => context_boolean
  | expr_or => context_boolean
  | expr_add | expr_subtract | expr_multiply | expr_divide | expr_remainder
  | expr_binary_and | expr_binary_or | expr_binary_xor | expr_client_state =>
      context_numeric
  | _ => context_any
  end.

Definition op_val (op : expr_op) : Z :=
  match op with
  | expr_equal | expr_not_equal | expr_regex_match | expr_iregex_match => 4
  | expr_or | expr_and => 3
  | expr_add | expr_subtract => 2
  | expr_multiply | expr_divide | expr_remainder => 1
  | _ => 100
  end.

Definition op_precedence (op1 op2 : expr_op) : Z := op_val op1 - op_val op2.

(** The names given to the binary operators in [parse_expression]
    ([binop_name]); "none" is its initial value. *)
Definition binop_name (binop : expr_op) : string :=
  match binop with
  | expr_not_equal => "not-equal"
  | expr_equal => "equal"
  | expr_iregex_match => "iregex-match"
  | expr_regex_match => "regex-match"
  | expr_and => "and"
  | expr_or => "or"
  | expr_add => "add"
  | expr_subtract => "subtract"
  | expr_divide => "divide"
  | expr_multiply => "multiply"
  | expr_remainder => "remainder"
  | expr_binary_and => "binary-and"
  | expr_binary_or => "binary-or"
  | expr_binary_xor => "binary-xor"
  | _ => "none"
  end.

(** The operand checks of [parse_expression] for a pending [binop]
    (the block under [if (binop != expr_none)]): [None] when every check
    passes, otherwise the message of the first [parse_error] reached. *)
Definition check_operands (binop : expr_op) (lhs rhs : element) : option string :=
  if is_expr_none binop then None
  else
    let rhs_context := expression_context rhs in
    let lhs_context := expression_context lhs in
    if negb (context_eqb rhs_context context_any)
       && negb (context_eqb lhs_context context_any)
       && negb (context_eqb rhs_context lhs_context)
    then Some "illegal expression relating different types"
    else
      match binop with
      | expr_not_equal | expr_equal =>
          if negb (context_eqb rhs_context context_data_or_numeric)
             && negb (context_eqb rhs_context context_data)
             && negb (context_eqb rhs_context context_numeric)
             && negb (context_eqb rhs_context context_any)
          then Some "expecting data/numeric expression" else None
      | expr_iregex_match => None
      | expr_regex_match =>
          if negb (context_eqb (expression_context rhs) context_data)
          then Some "expecting data expression" else None
      | expr_and | expr_or =>
          if negb (context_eqb rhs_context context_boolean)
             && negb (context_eqb rhs_context context_any)
          then Some "expecting boolean expressions" else None
      | expr_add | expr_subtract | expr_divide | expr_multiply
      | expr_remainder | expr_binary_and | expr_binary_or | expr_binary_xor =>
          if negb (context_eqb rhs_context context_numeric)
             && negb (context_eqb rhs_context context_any)
          then Some "expecting numeric expressions" else None
      | _ => None
      end.

(** The node that combines a left and a right operand: a new map [tmp]
    with the skip flag, holding "left" and "right", stored under the
    operator name in a new map. *)
Definition combine (binop : expr_op) (lhs rhs : element) : element :=
  let tmp := set_skip createMap in
  let tmp := mapSet tmp lhs "left" in
  let tmp := mapSet tmp rhs "right" in
  mapSet createMap tmp (binop_name binop).

(** The operator that a token starts, as the [switch (token)] of
    [parse_expression] reads it.  BANG and TILDE need a second token:
    the first is skipped and the second only looked at. *)
Definition peek_operator : M expr_op :=
  t <- peek_token ;;
  match fst t with
  | BANG =>
      skip_token ;;;
      t2 <- peek_token ;;
      error_if (negb (token_eqb (fst t2) EQUAL)) "! in boolean context without =" ;;;
      ret expr_not_equal
  | EQUAL => ret expr_equal
  | TILDE =>
      skip_token ;;;
      t2 <- peek_token ;;
      if token_eqb (fst t2) TILDE then ret expr_iregex_match
      else if token_eqb (fst t2) EQUAL then ret expr_regex_match
      else parse_error "expecting ~= or ~~ operator"
  | AND => ret expr_and
  | OR => ret expr_or
  | PLUS => ret expr_add
  | MINUS => ret expr_subtract
  | SLASH => ret expr_divide
  | ASTERISK => ret expr_multiply
  | PERCENT => ret expr_remainder
  | AMPERSAND => ret expr_binary_and
  | PIPE => ret expr_binary_or
  | CARET => ret expr_binary_xor
  | _ => ret expr_none
  end.

(* ================================================================== *)
(** * Small parsers used by the expression parser                       *)
(* ================================================================== *)

(** Modelled from the spec: [resetBy(e, o)] belongs to the builder
    interface (data.c): [e] takes over the variant, the value and the
    flag of [o], and the comments of [o] follow those of [e]. *)
Definition resetBy (e o : element) : element :=
  Element (content o) (skip o) (comments e ++ comments o).

(** [atoi] on the text of a token: an optional sign and the decimal
    digits that follow.  The C library reads them with [strtol], which
    stops at LONG_MIN and LONG_MAX, and converts the [long] to [int]. *)
Definition strtol_range (v : Z) : Z := Z.max (- 2 ^ 63) (Z.min (2 ^ 63 - 1) v).

Fixpoint atoi_digits (s : string) (acc : Z) : Z :=
  match s with
  | EmptyString => acc
  | String c r =>
      let d := char_code c in
      if (char_code "0" <=? d) && (d <=? char_code "9")
      then atoi_digits r (acc * 10 + (d - char_code "0"))
      else acc
  end.

Definition atoi (s : string) : Z :=
  if deref s =? char_code "-"
  then wrap_int (strtol_range (- atoi_digits (advance s) 0))
  else if deref s =? char_code "+"
  then wrap_int (strtol_range (atoi_digits (advance s) 0))
  else wrap_int (strtol_range (atoi_digits s 0)).

(** Two lower-case hexadecimal digits, the "%02hhx" of [snprintf]. *)
Definition hex_digit (d : Z) : string :=
  match d with
  | 0 => "0" | 1 => "1" | 2 => "2" | 3 => "3" | 4 => "4" | 5 => "5"
  | 6 => "6" | 7 => "7" | 8 => "8" | 9 => "9" | 10 => "a" | 11 => "b"
  | 12 => "c" | 13 => "d" | 14 => "e" | _ => "f"
  end.

Definition hex_byte (b : Z) : string :=
  String.append (hex_digit (b mod 256 / 16)) (hex_digit (b mod 16)).

(** [skip_to_rbrace(cfile, brace_count)]. *)
Fixpoint skip_to_rbrace_loop (fuel : nat) (brace_count : Z) : M unit :=
  match fuel with
  | O => out_of_fuel
  | S f =>
      t <- peek_token ;;
      let eat (brace_count : Z) : M unit :=
        t' <- next_token ;;
        if token_eqb (fst t') END_OF_FILE then ret tt
        else skip_to_rbrace_loop f brace_count in
      match fst t with
      | RBRACE =>
          let brace_count := if brace_count >? 0 then brace_count - 1 else brace_count in
          if brace_count =? 0 then skip_token ;;; ret tt
          else eat brace_count
      | LBRACE => eat (brace_count + 1)
      | SEMI =>
          if brace_count =? 0 then skip_token ;;; ret tt else eat brace_count
      | EOL => skip_token ;;; ret tt
      | _ => eat brace_count
      end
  end.

Definition skip_to_rbrace (brace_count : Z) : M unit :=
  n <- remaining ;; skip_to_rbrace_loop (S n) brace_count.

Definition skip_to_semi : M unit := skip_to_rbrace 0.

(** [parse_cshl]: colon-separated hexadecimal list, printed back as
    text. *)
Fixpoint parse_cshl_loop (fuel : nat) (first : bool) (data : string) : M string :=
  match fuel with
  | O => out_of_fuel
  | S f =>
      t <- next_token ;;
      error_if (negb (token_eqb (fst t) NUMBER)
                && negb (token_eqb (fst t) NUMBER_OR_NAME))
               "expecting hexadecimal number." ;;;
      ibuf <- lift (convert_num (snd t) 16 8) ;;
      let tbuf := if first then hex_byte (hd 0 ibuf)
                  else String.append ":" (hex_byte (hd 0 ibuf)) in
      let data := String.append data tbuf in
      t' <- peek_token ;;
      if negb (token_eqb (fst t') COLON) then ret data
      else skip_token ;;; parse_cshl_loop f false data
  end.

Definition parse_cshl : M string :=
  n <- remaining ;; parse_cshl_loop (S n) true "".

(** [parse_host_name]: identifiers (or numbers) joined by dots; [None]
    is the NULL of the C function. *)
Fixpoint parse_host_name_loop (fuel : nat) (s : option string) : M (option string) :=
  match fuel with
  | O => out_of_fuel
  | S f =>
      t <- peek_token ;;
      if negb (is_identifier (fst t)) && negb (token_eqb (fst t) NUMBER)
      then ret s
      else
        skip_token ;;;
        let s1 := match s with
                  | None => snd t
                  | Some x => String.append x (snd t)
                  end in
        t' <- peek_token ;;
        if token_eqb (fst t') DOT then
          d <- next_token ;;
          parse_host_name_loop f (Some (String.append s1 (snd d)))
        else ret (Some s1)
  end.

Definition parse_host_name : M (option string) :=
  n <- remaining ;; parse_host_name_loop (S n) None.

(** [token = next_token(...); if (token != tok) parse_error(msg);] *)
Definition expect (tok : dhcp_token) (msg : string) : M unit :=
  t <- next_token ;;
  error_if (negb (token_eqb (fst t) tok)) msg.

(** [if (!nexp->skip) { nexp->skip = ISC_TRUE; cfile->issue_counter++; }] *)
Definition flag_once (nexp : element) : M element :=
  if skip nexp then ret nexp else issue ;;; ret (set_skip nexp).

(** The keyword cases that store a flagged null under a key. *)
Definition leaf (expr : element) (key : string) : M (option element) :=
  skip_token ;;;
  issue ;;;
  ret (Some (mapSet expr (set_skip createNull) key)).

(** The symbolic constants: an integer with a comment. *)
Definition constant (expr : element) (n : Z) (comment : string) : M (option element) :=
  skip_token ;;;
  ret (Some (add_comment (resetInt expr n) comment)).

(** A sub-expression that must be there: on ISC_FALSE the caller gives
    [msg] through [parse_error] unless [*lose] is set, and returns
    ISC_FALSE itself. *)
Definition need (m : M (option element)) (msg : string)
    (k : element -> M (option element)) : M (option element) :=
  r <- m ;;
  match r with
  | None =>
      l <- get_lose ;;
      error_if (negb l) msg ;;;
      ret None
  | Some arg => k arg
  end.

(** The same, for the callers that also set [*lose]. *)
Definition need_lose (m : M (option element)) (msg : string)
    (k : element -> M (option element)) : M (option element) :=
  r <- m ;;
  match r with
  | None =>
      l <- get_lose ;;
      error_if (negb l) msg ;;;
      set_lose true ;;;
      ret None
  | Some arg => k arg
  end.

(** [parse_boolean_expression], [parse_data_expression] and
    [parse_numeric_expression] over a given [parse_expression]. *)
Definition typed_expression
    (pe : element -> expression_context_t -> option element -> expr_op ->
          M (option element))
    (context : expression_context_t) (accepts : element -> bool)
    (msg : string) (expr : element) : M (option element) :=
  r <- pe expr context None expr_none ;;
  match r with
  | None => ret None
  | Some e =>
      error_if (negb (accepts e)
                && negb (mapContains e "variable-reference")
                && negb (mapContains e "funcall")) msg ;;;
      ret (Some e)
  end.

(* ================================================================== *)
(** * parse_non_binary and parse_expression                             *)
(* ================================================================== *)

Definition NOLPAREN := "left parenthesis expected.".
Definition NORPAREN := "right parenthesis expected.".
Definition NOCOMMA := "comma expected.".
Definition NODATA := "expecting data expression.".
Definition NONUM := "expecting numeric expression.".

(** The width argument of extract-int and encode-int. *)
Definition sized_key (prefix : string) (val : string) : option string :=
  match atoi val with
  | 8 => Some (String.append prefix "8")
  | 16 => Some (String.append prefix "16")
  | 32 => Some (String.append prefix "32")
  | _ => None
  end.

(** The functions take the element to fill ([expr], created by the
    caller) and return it filled.  [fuel] bounds the depth of the calls
    and the number of turns of the loops; each call and each turn reads
    at least one token.  EXISTS, OPTION and CONFIG_OPTION go through
    [parse_option_name] and the option registry and are [Outside]. *)
Fixpoint parse_expression (fuel : nat) (expr : element)
    (context : expression_context_t) (lhs : option element)
    (binop : expr_op) {struct fuel} : M (option element) :=
  match fuel with
  | O => out_of_fuel
  | S f =>
      (* new_rhs: *)
      r <- parse_non_binary f createMap context ;;
      match r with
      | None =>
          match lhs with
          | Some _ =>
              l <- get_lose ;;
              error_if (negb l) "expecting right-hand side." ;;;
              ret None
          | None => ret None
          end
      | Some rhs =>
          next_op <- peek_operator ;;
          let context :=
            if is_expr_none next_op then context else expression_context rhs in
          match lhs with
          | None =>
              if is_expr_none next_op then ret (Some (resetBy expr rhs))
              else
                skip_token ;;;
                parse_expression f expr context (Some rhs) next_op
          | Some lhs =>
              let finish (rhs : element) (next_op : expr_op) : M (option element) :=
                match check_operands binop lhs rhs with
                | Some msg => parse_error msg
                | None =>
                    if is_expr_none next_op then
                      let tmp := set_skip createMap in
                      ret (Some (mapSet expr
                                   (mapSet (mapSet tmp lhs "left") rhs "right")
                                   (binop_name binop)))
                    else
                      skip_token ;;;
                      parse_expression f expr context
                        (Some (combine binop lhs rhs)) next_op
                end in
              if negb (is_expr_none binop) && negb (is_expr_none next_op)
                 && (op_precedence binop next_op <? 0)
              then
                skip_token ;;;
                r2 <- parse_expression f createMap (op_context next_op)
                        (Some rhs) next_op ;;
                match r2 with
                | None =>
                    l <- get_lose ;;
                    error_if (negb l) "expecting a subexpression" ;;;
                    ret None
                | Some rhs => finish rhs expr_none
                end
              else finish rhs next_op
          end
      end
  end

with parse_non_binary (fuel : nat) (expr : element)
    (context : expression_context_t) {struct fuel} : M (option element) :=
  match fuel with
  | O => out_of_fuel
  | S f =>
      let data_expr := typed_expression (parse_expression f) context_data
                         is_data_expression "Expecting a data expression." in
      let numeric_expr := typed_expression (parse_expression f) context_numeric
                         is_numeric_expression "Expecting a numeric expression." in
      t <- peek_token ;;
      match fst t with
      | CHECK =>
          skip_token ;;;
          s <- next_token ;;
          error_if (negb (token_eqb (fst s) STRING)) "string expected." ;;;
          issue ;;;
          ret (Some (mapSet expr (set_skip (createString (snd s))) "check"))
      | TOKEN_NOT =>
          skip_token ;;;
          need_lose (parse_non_binary f createMap context_boolean)
            "expression expected" (fun nexp =>
          error_if (negb (is_boolean_expression nexp))
            "boolean expression expected" ;;;
          nexp <- flag_once nexp ;;
          ret (Some (mapSet expr nexp "not")))
      | LPAREN =>
          skip_token ;;;
          need_lose (parse_expression f expr context None expr_none)
            "expression expected" (fun e =>
          expect RPAREN "right paren expected" ;;;
          ret (Some e))
      | EXISTS => outside "exists"
      | STATIC => leaf expr "static"
      | KNOWN => leaf expr "known"
      | SUBSTRING =>
          skip_token ;;;
          issue ;;;
          let nexp := set_skip createMap in
          expect LPAREN NOLPAREN ;;;
          need (data_expr createMap) NODATA (fun arg =>
          let nexp := mapSet nexp arg "expression" in
          expect COMMA NOCOMMA ;;;
          need (numeric_expr createMap) NONUM (fun arg =>
          let nexp := mapSet nexp arg "offset" in
          expect COMMA NOCOMMA ;;;
          need (numeric_expr createMap) NONUM (fun arg =>
          let nexp := mapSet nexp arg "length" in
          expect RPAREN NORPAREN ;;;
          ret (Some (mapSet expr nexp "substring")))))
      | SUFFIX =>
          skip_token ;;;
          issue ;;;
          let nexp := set_skip createMap in
          expect LPAREN NOLPAREN ;;;
          need (data_expr createMap) NODATA (fun arg =>
          let nexp := mapSet nexp arg "expression" in
          expect COMMA NOCOMMA ;;;
          need (numeric_expr createMap) NONUM (fun arg =>
          let nexp := mapSet nexp arg "length" in
          expect RPAREN NORPAREN ;;;
          ret (Some (mapSet expr nexp "suffix"))))
      | LCASE =>
          skip_token ;;;
          expect LPAREN NOLPAREN ;;;
          need (data_expr createMap) NODATA (fun nexp =>
          expect RPAREN NORPAREN ;;;
          nexp <- flag_once nexp ;;
          ret (Some (mapSet expr nexp "lowercase")))
      | UCASE =>
          skip_token ;;;
          expect LPAREN NOLPAREN ;;;
          need (data_expr createMap) NODATA (fun nexp =>
          expect RPAREN NORPAREN ;;;
          nexp <- flag_once nexp ;;
          ret (Some (mapSet expr nexp "uppercase")))
      | CONCAT =>
          skip_token ;;;
          issue ;;;
          let nexp := set_skip createMap in
          expect LPAREN NOLPAREN ;;;
          need (data_expr createMap) NODATA (fun arg =>
          let nexp := mapSet nexp arg "left" in
          expect COMMA NOCOMMA ;;;
          need (concat_another f) NODATA (fun rest =>
          ret (Some (mapSet expr (mapSet nexp rest "right") "concat"))))
      | BINARY_TO_ASCII =>
          skip_token ;;;
          issue ;;;
          let nexp := set_skip createMap in
          expect LPAREN NOLPAREN ;;;
          need (numeric_expr createMap) NODATA (fun arg =>
          let nexp := mapSet nexp arg "base" in
          expect COMMA NOCOMMA ;;;
          need (numeric_expr createMap) NODATA (fun arg =>
          let nexp := mapSet nexp arg "width" in
          expect COMMA NOCOMMA ;;;
          need (data_expr createMap) NODATA (fun arg =>
          let nexp := mapSet nexp arg "separator" in
          expect COMMA NOCOMMA ;;;
          need (data_expr createMap) NODATA (fun arg =>
          let nexp := mapSet nexp arg "buffer" in
          expect RPAREN NORPAREN ;;;
          ret (Some (mapSet expr nexp "binary-to-ascii"))))))
      | REVERSE =>
          skip_token ;;;
          issue ;;;
          let nexp := set_skip createMap in
          expect LPAREN NOLPAREN ;;;
          need (numeric_expr createMap) NODATA (fun arg =>
          let nexp := mapSet nexp arg "width" in
          expect COMMA NOCOMMA ;;;
          need (data_expr createMap) NODATA (fun arg =>
          let nexp := mapSet nexp arg "buffer" in
          expect RPAREN NORPAREN ;;;
          ret (Some (mapSet expr nexp "reverse"))))
      | PICK =>
          skip_token ;;;
          issue ;;;
          expect LPAREN NOLPAREN ;;;
          need (pick_args f (set_skip createList)) NODATA (fun nexp =>
          ret (Some (mapSet expr nexp "pick-first-value")))
      | OPTION => outside "option"
      | CONFIG_OPTION => outside "config-option"
      | HARDWARE => leaf expr "hardware"
      | LEASED_ADDRESS => leaf expr "leased-address"
      | CLIENT_STATE => leaf expr "client-state"
      | FILENAME => leaf expr "filename"
      | SERVER_NAME => leaf expr "server-name"
      | LEASE_TIME => leaf expr "lease-time"
      | TOKEN_NULL => leaf expr "null"
      | HOST_DECL_NAME => leaf expr "host-decl-name"
      | PACKET =>
          skip_token ;;;
          issue ;;;
          let nexp := set_skip createMap in
          expect LPAREN NOLPAREN ;;;
          need (numeric_expr createMap) NONUM (fun arg =>
          let nexp := mapSet nexp arg "offset" in
          expect COMMA NOCOMMA ;;;
          need (numeric_expr createMap) NONUM (fun arg =>
          let nexp := mapSet nexp arg "length" in
          expect RPAREN NORPAREN ;;;
          ret (Some (mapSet expr nexp "packet"))))
      | STRING =>
          skip_token ;;;
          ret (Some (resetString expr (snd t)))
      | EXTRACT_INT =>
          skip_token ;;;
          issue ;;;
          expect LPAREN NOLPAREN ;;;
          need (data_expr (set_skip createMap)) NODATA (fun nexp =>
          expect COMMA NOCOMMA ;;;
          n <- next_token ;;
          error_if (negb (token_eqb (fst n) NUMBER)) "number expected." ;;;
          match sized_key "extract-int" (snd n) with
          | None => parse_error "unsupported integer size %s"
          | Some key =>
              expect RPAREN NORPAREN ;;;
              ret (Some (mapSet expr nexp key))
          end)
      | ENCODE_INT =>
          skip_token ;;;
          issue ;;;
          expect LPAREN NOLPAREN ;;;
          r <- numeric_expr (set_skip createMap) ;;
          match r with
          | None => parse_error NONUM
          | Some nexp =>
              expect COMMA NOCOMMA ;;;
              n <- next_token ;;
              error_if (negb (token_eqb (fst n) NUMBER)) "number expected." ;;;
              match sized_key "encode-int" (snd n) with
              | None => parse_error "unsupported integer size %s"
              | Some key =>
                  expect RPAREN NORPAREN ;;;
                  ret (Some (mapSet expr nexp key))
              end
          end
      | NUMBER =>
          if context_eqb context context_numeric
             || context_eqb context context_data_or_numeric
          then
            skip_token ;;;
            ret (Some (resetInt expr (atoi (snd t))))
          else
            data <- parse_cshl ;;
            ret (Some (resetString expr data))
      | NUMBER_OR_NAME =>
          data <- parse_cshl ;;
          ret (Some (resetString expr data))
      | NS_FORMERR => constant expr 1 "/// constant FORMERR(1)"
      | NS_NOERROR => constant expr 0 "/// constant ISC_R_SUCCESS(0)"
      | NS_NOTAUTH => constant expr 393237 "/// constant DHCP_R_NOTAUTH(393237)"
      | NS_NOTIMP => constant expr 27 "/// constant ISC_R_NOTIMPLEMENTED(27)"
      | NS_NOTZONE => constant expr 393238 "/// constant DHCP_R_NOTZONE(393238)"
      | NS_NXDOMAIN => constant expr 393231 "/// constant DHCP_R_NXDOMAIN(393231)"
      | NS_NXRRSET => constant expr 393236 "/// constant DHCP_R_NXRRSET(393236)"
      | NS_REFUSED => constant expr 393233 "/// constant DHCP_R_REFUSED(393233)"
      | NS_SERVFAIL => constant expr 393230 "/// constant DHCP_R_SERVFAIL(393230)"
      | NS_YXDOMAIN => constant expr 393234 "/// constant DHCP_R_YXDOMAIN(393234)"
      | NS_YXRRSET => constant expr 393235 "/// constant DHCP_R_YXRRSET(393235)"
      | BOOTING => constant expr 2 "/// constant S_INIT(2)"
      | REBOOT => constant expr 1 "/// constant S_REBOOTING(1)"
      | SELECT => constant expr 3 "/// constant S_SELECTING(3)"
      | REQUEST => constant expr 4 "/// constant S_REQUESTING(4)"
      | BOUND => constant expr 5 "/// constant S_BOUND(5)"
      | RENEW => constant expr 6 "/// constant S_RENEWING(6)"
      | REBIND => constant expr 7 "/// constant S_REBINDING(7)"
      | DEFINED =>
          skip_token ;;;
          expect LPAREN NOLPAREN ;;;
          n <- next_token ;;
          error_if (negb (token_eqb (fst n) NAME)
                    && negb (token_eqb (fst n) NUMBER_OR_NAME))
                   "%s can't be a variable name" ;;;
          issue ;;;
          expect RPAREN NORPAREN ;;;
          ret (Some (mapSet expr (set_skip (createString (snd n)))
                       "variable-exists"))
      | GETHOSTNAME =>
          skip_token ;;;
          issue ;;;
          expect LPAREN NOLPAREN ;;;
          expect RPAREN NORPAREN ;;;
          ret (Some (mapSet expr (set_skip createNull) "gethostname"))
      | GETHOSTBYNAME =>
          skip_token ;;;
          expect LPAREN NOLPAREN ;;;
          n <- next_token ;;
          error_if (negb (token_eqb (fst n) STRING))
                   "Expecting quoted literal: foo.example.com" ;;;
          issue ;;;
          expect RPAREN NORPAREN ;;;
          ret (Some (mapSet expr (set_skip (createString (snd n)))
                       "gethostbyname"))
      | V6RELAY =>
          skip_token ;;;
          issue ;;;
          let nexp := set_skip createMap in
          expect LPAREN NOLPAREN ;;;
          need (numeric_expr createMap) NODATA (fun arg =>
          let nexp := mapSet nexp arg "relay" in
          expect COMMA NOCOMMA ;;;
          need (data_expr createMap) NODATA (fun arg =>
          let nexp := mapSet nexp arg "relay-option" in
          expect RPAREN NORPAREN ;;;
          ret (Some (mapSet expr nexp "v6relay"))))
      | NAME =>
          skip_token ;;;
          t' <- peek_token ;;
          if negb (token_eqb (fst t') LPAREN) then
            issue ;;;
            ret (Some (mapSet expr (set_skip (createString (snd t)))
                         "variable-reference"))
          else
            skip_token ;;;
            issue ;;;
            let nexp := mapSet (set_skip createMap) (createString (snd t)) "name" in
            r <- funcall_args f createList ;;
            match r with
            | None => ret None
            | Some chain =>
                ret (Some (mapSet expr (mapSet nexp chain "arguments") "funcall"))
            end
      | _ => ret None
      end
  end

(** The [concat_another] loop: the value stored under "right", a data
    expression or a further "concat" node when a comma follows. *)
with concat_another (fuel : nat) {struct fuel} : M (option element) :=
  match fuel with
  | O => out_of_fuel
  | S f =>
      r <- typed_expression (parse_expression f) context_data
             is_data_expression "Expecting a data expression." createMap ;;
      match r with
      | None => ret None
      | Some arg =>
          t <- next_token ;;
          if token_eqb (fst t) COMMA then
            r' <- concat_another f ;;
            match r' with
            | None => ret None
            | Some rest =>
                let nexp := mapSet (mapSet createMap arg "left") rest "right" in
                ret (Some (mapSet createMap nexp "concat"))
            end
          else
            error_if (negb (token_eqb (fst t) RPAREN)) NORPAREN ;;;
            ret (Some arg)
      end
  end

(** The argument loop of pick-first-value. *)
with pick_args (fuel : nat) (nexp : element) {struct fuel} : M (option element) :=
  match fuel with
  | O => out_of_fuel
  | S f =>
      r <- typed_expression (parse_expression f) context_data
             is_data_expression "Expecting a data expression." createMap ;;
      match r with
      | None => ret None
      | Some arg =>
          let nexp := listPush nexp arg in
          t <- next_token ;;
          if token_eqb (fst t) COMMA then pick_args f nexp
          else
            error_if (negb (token_eqb (fst t) RPAREN)) NORPAREN ;;;
            ret (Some nexp)
      end
  end

(** The argument loop of a function call. *)
with funcall_args (fuel : nat) (chain : element) {struct fuel} : M (option element) :=
  match fuel with
  | O => out_of_fuel
  | S f =>
      r <- parse_expression f createMap context_any None expr_none ;;
      match r with
      | None =>
          l <- get_lose ;;
          error_if (negb l) "expecting expression." ;;;
          skip_to_semi ;;;
          ret None
      | Some arg =>
          let chain := listPush chain arg in
          t <- next_token ;;
          if token_eqb (fst t) COMMA then funcall_args f chain
          else
            error_if (negb (token_eqb (fst t) RPAREN))
                     "Right parenthesis expected." ;;;
            ret (Some chain)
      end
  end.

Definition parse_boolean_expression (fuel : nat) : element -> M (option element) :=
  typed_expression (parse_expression fuel) context_boolean
    is_boolean_expression "Expecting a boolean expression.".

Definition parse_data_expression (fuel : nat) : element -> M (option element) :=
  typed_expression (parse_expression fuel) context_data
    is_data_expression "Expecting a data expression.".

Definition parse_numeric_expression (fuel : nat) : element -> M (option element) :=
  typed_expression (parse_expression fuel) context_numeric
    is_numeric_expression "Expecting a numeric expression.".

(** The shape of the nodes of binary operators, in the words of the
    specification: a flagged map with the children "left" and "right",
    stored under the name of the operator. *)
Definition binary_node (lhs rhs : element) : element :=
  Element (VMap [("left", lhs); ("right", rhs)]) true [].

Definition operator_node (op : expr_op) (lhs rhs : element) : element :=
  Element (VMap [(binop_name op, binary_node lhs rhs)]) false [].

(** The operators that [peek_operator] can return besides [expr_none]. *)
Definition is_binary_operator (op : expr_op) : bool :=
  match op with
  | expr_equal | expr_not_equal | expr_regex_match | expr_iregex_match
  | expr_and | expr_or
  | expr_add | expr_subtract | expr_multiply | expr_divide | expr_remainder
  | expr_binary_and | expr_binary_or | expr_binary_xor => true
  | _ => false
  end.

(** Sample operands and operators for the statements on precedence:
    keywords whose node is classified Numeric, and the tokens of the
    additive and of the multiplicative operators. *)
Definition numeric_leaves : list (dhcp_token * string) :=
  [(LEASE_TIME, "lease-time"); (CLIENT_STATE, "client-state")].

Definition leaf_node (t : dhcp_token * string) : element :=
  Element (VMap [(snd t, Element VNull true [])]) false [].

Definition additive_operators : list (dhcp_token * string * expr_op) :=
  [(PLUS, "+", expr_add); (MINUS, "-", expr_subtract)].

Definition multiplicative_operators : list (dhcp_token * string * expr_op) :=
  [(ASTERISK, "*", expr_multiply); (SLASH, "/", expr_divide);
   (PERCENT, "%", expr_remainder)].

Definition one_plus_two_times_three : list (dhcp_token * string) :=
  [(NUMBER, "1"); (PLUS, "+"); (NUMBER, "2"); (ASTERISK, "*"); (NUMBER, "3")].

(** The left spine of a tree of binary operators: [spine base e] holds
    when [e] is [base] or a node of a binary operator whose left operand
    has [base] on its own spine.  These are the nodes that
    [parse_expression] builds on the way from its first operand to its
    result. *)
Inductive spine (base : element) : element -> Prop :=
  | spine_base : spine base base
  | spine_node op l r :
      is_binary_operator op = true ->
      spine base l ->
      spine base (operator_node op l r).

(* ================================================================== *)
(** * Statements                                                        *)
(* ================================================================== *)

(** What the file takes from outside: the resolver ([gethostbyname]
    gives the addresses of a name, [None] for an unknown host),
    [inet_ntop] on four bytes, the parser of IPv6 literals (it reads raw
    tokens and calls [inet_pton]), and the lookup of a name among the
    options of the "server" space. *)
Section Statements.

Variable gethostbyname : string -> option (list (list Z)).
Variable inet_ntop : list Z -> option string.
Variable parse_ip6_addr_txt : M string.
Variable server_option : string -> bool.

(** The look-ahead of [parse_ip_addr_or_hostname]: between
    [save_parse_state] and [restore_parse_state], a NUMBER is skipped
    and the next two tokens are compared with DOT and NUMBER. *)
Definition looks_like_ip_address : M bool :=
  fun c =>
    match tokens c with
    | _ :: (DOT, _) :: (NUMBER, _) :: _ => Done (true, c)
    | _ => Done (false, c)
    end.

(** [snprintf(msg, sizeof(msg), "/// %s resolves into multiple
    addresses", name->content)] with [char msg[128]]: at most 127
    characters of the text. *)
Definition multiple_addresses (name : string) : string :=
  String.substring 0 127
    (String.append "/// " (String.append name " resolves into multiple addresses")).

Definition add_pending (comment : string) : M unit :=
  fun c => Done (tt, Parse (tokens c) (pending c ++ [comment])
                           (issue_counter c) (stack c) (lose c)).

(** [parse_ip_addr_or_hostname(cfile, check_multi)]; [None] is NULL. *)
Definition parse_ip_addr_or_hostname (check_multi : bool) : M (option string) :=
  t <- peek_token ;;
  bin <- (if token_eqb (fst t) NUMBER then
            ipaddr <- looks_like_ip_address ;;
            if ipaddr then
              r <- parse_numeric_aggregate 4 DOT 10 8 ;;
              ret (Some (fst r))
            else ret None
          else ret None) ;;
  let finish (bin : option (list Z)) : M (option string) :=
    match bin with
    | None =>
        (if negb (token_eqb (fst t) RBRACE) && negb (token_eqb (fst t) LBRACE)
         then next_token ;;; ret tt else ret tt) ;;;
        parse_error "%s (%d): expecting IP address or hostname"
    | Some b =>
        match inet_ntop b with
        | None => parse_error "can't print IP address"
        | Some buf => ret (Some buf)
        end
    end in
  match bin with
  | None =>
      if is_identifier (fst t) || token_eqb (fst t) NUMBER then
        name <- parse_host_name ;;
        match name with
        | None => ret None
        | Some name =>
            match gethostbyname name with
            | None | Some [] => parse_error "%s: host unknown."
            | Some (a :: more) =>
                (if check_multi && negb (Nat.eqb (List.length more) 0)
                 then add_pending (multiple_addresses name)
                 else ret tt) ;;;
                finish (Some a)
            end
        end
      else finish None
  | Some b => finish (Some b)
  end.

(** The address loops of [parse_zone] (labels consemup and consemup6):
    the list [values] filled up to the semicolon. *)
Fixpoint zone_addresses (fuel : nat) (values : element) : M element :=
  match fuel with
  | O => out_of_fuel
  | S f =>
      value <- parse_ip_addr_or_hostname false ;;
      match value with
      | None => parse_error "expecting IP addr or hostname."
      | Some v =>
          let values := listPush values (createString v) in
          t <- next_token ;;
          if token_eqb (fst t) COMMA then zone_addresses f values
          else
            error_if (negb (token_eqb (fst t) SEMI)) "expecting semicolon." ;;;
            ret values
      end
  end.

Fixpoint zone_addresses6 (fuel : nat) (values : element) : M element :=
  match fuel with
  | O => out_of_fuel
  | S f =>
      addr <- parse_ip6_addr_txt ;;
      let values := listPush values (createString addr) in
      t <- next_token ;;
      if token_eqb (fst t) COMMA then zone_addresses6 f values
      else
        error_if (negb (token_eqb (fst t) SEMI)) "expecting semicolon." ;;;
        ret values
  end.

(** The [do ... while (!done)] loop of [parse_zone] and the closing
    brace; the result is the zone map as the call leaves it. *)
Fixpoint parse_zone_loop (fuel : nat) (zone : element) : M element :=
  match fuel with
  | O => out_of_fuel
  | S f =>
      t <- peek_token ;;
      match fst t with
      | PRIMARY =>
          error_if (mapContains zone "primary") "more than one primary." ;;;
          skip_token ;;;
          values <- zone_addresses f createList ;;
          parse_zone_loop f (mapSet zone values "primary")
      | SECONDARY =>
          error_if (mapContains zone "secondary") "more than one secondary." ;;;
          skip_token ;;;
          values <- zone_addresses f createList ;;
          parse_zone_loop f (mapSet zone values "secondary")
      | PRIMARY6 =>
          error_if (mapContains zone "primary6") "more than one primary6." ;;;
          skip_token ;;;
          values <- zone_addresses6 f createList ;;
          parse_zone_loop f (mapSet zone values "primary6")
      | SECONDARY6 =>
          error_if (mapContains zone "secondary6") "more than one secondary6." ;;;
          skip_token ;;;
          values <- zone_addresses6 f createList ;;
          parse_zone_loop f (mapSet zone values "secondary6")
      | KEY =>
          skip_token ;;;
          t' <- peek_token ;;
          key_name <- (if token_eqb (fst t') STRING then
                         skip_token ;;; ret (snd t')
                       else
                         n <- parse_host_name ;;
                         match n with
                         | None => parse_error "expecting key name."
                         | Some n => ret n
                         end) ;;
          error_if (mapContains zone "key") "Multiple key definitions" ;;;
          let zone := mapSet zone (createString key_name) "key" in
          parse_semi ;;;
          parse_zone_loop f zone
      | _ =>
          expect RBRACE "expecting right brace." ;;;
          ret zone
      end
  end.

Definition parse_zone (zone : element) : M element :=
  expect LBRACE "expecting left brace" ;;;
  n <- remaining ;;
  parse_zone_loop (S n) zone.

(** The keys of a zone that the parser guards. *)
Definition zone_keys : list string :=
  ["primary"; "secondary"; "primary6"; "secondary6"; "key"].

Definition zone_keyword (k : string) : dhcp_token :=
  if String.eqb k "primary" then PRIMARY
  else if String.eqb k "secondary" then SECONDARY
  else if String.eqb k "primary6" then PRIMARY6
  else if String.eqb k "secondary6" then SECONDARY6
  else KEY.

(** One clause of the loop of [parse_zone] read on its own, without the
    test on the zone: the key of the clause and the value read for it;
    [None], and nothing consumed, when the next token starts no
    clause. *)
Definition zone_clause (fuel : nat) : M (option (string * element)) :=
  t <- peek_token ;;
  match fst t with
  | PRIMARY =>
      skip_token ;;;
      values <- zone_addresses fuel createList ;;
      ret (Some ("primary", values))
  | SECONDARY =>
      skip_token ;;;
      values <- zone_addresses fuel createList ;;
      ret (Some ("secondary", values))
  | PRIMARY6 =>
      skip_token ;;;
      values <- zone_addresses6 fuel createList ;;
      ret (Some ("primary6", values))
  | SECONDARY6 =>
      skip_token ;;;
      values <- zone_addresses6 fuel createList ;;
      ret (Some ("secondary6", values))
  | KEY =>
      skip_token ;;;
      t' <- peek_token ;;
      key_name <- (if token_eqb (fst t') STRING then
                     skip_token ;;; ret (snd t')
                   else
                     n <- parse_host_name ;;
                     match n with
                     | None => parse_error "expecting key name."
                     | Some n => ret n
                     end) ;;
      parse_semi ;;;
      ret (Some ("key", createString key_name))
  | _ => ret None
  end.

(** [zone_clauses fuel c es c']: from the state [c] the input holds the
    clauses [es], one after the other, up to the state [c']; the loop
    that starts with [fuel] hands one unit less to each clause in
    turn. *)
Inductive zone_clauses : nat -> parse -> list (string * element) -> parse -> Prop :=
  | clauses_none fuel c : zone_clauses fuel c [] c
  | clauses_more fuel c e c1 es c2 :
      zone_clause fuel c = Done (Some e, c1) ->
      zone_clauses fuel c1 es c2 ->
      zone_clauses (S fuel) c (e :: es) c2.

(** The zone with the values of a list of clauses stored, and the error
    message for a second clause of a key. *)
Definition with_clauses (zone : element) (es : list (string * element)) : element :=
  fold_left (fun z e => mapSet z (snd e) (fst e)) es zone.

Definition duplicate_message (k : string) : string :=
  if String.eqb k "key" then "Multiple key definitions"
  else String.append "more than one " (String.append k ".").

(** "Try to even things up": tokens are read up to the end of the file
    or the next right brace. *)
Fixpoint after_rbrace (toks : list (dhcp_token * string)) : list (dhcp_token * string) :=
  match toks with
  | [] => []
  | t :: rest =>
      if token_eqb (fst t) RBRACE || token_eqb (fst t) END_OF_FILE then rest
      else after_rbrace rest
  end.

Definition even_up : M unit :=
  fun c => Done (tt, with_tokens c (after_rbrace (tokens c))).

(** The event list of [parse_on_statement]: the condition string and
    the token that ends the list. *)
Fixpoint on_events (fuel : nat) (cond : string) : M (string * dhcp_token) :=
  match fuel with
  | O => out_of_fuel
  | S f =>
      t <- next_token ;;
      match fst t with
      | EXPIRY | COMMIT | RELEASE | TRANSMISSION =>
          let cond := String.append cond (snd t) in
          t' <- next_token ;;
          if token_eqb (fst t') OR
          then on_events f (String.append cond " or ")
          else ret (cond, fst t')
      | _ => parse_error "expecting a lease event type"
      end
  end.

(** The argument names of a function definition: the string of names
    and the token that ends the loop. *)
Fixpoint define_arguments (fuel : nat) (value : string) : M (string * dhcp_token) :=
  match fuel with
  | O => out_of_fuel
  | S f =>
      t <- next_token ;;
      if token_eqb (fst t) RPAREN then ret (value, RPAREN)
      else
        error_if (negb (token_eqb (fst t) NAME)
                  && negb (token_eqb (fst t) NUMBER_OR_NAME))
                 "expecting argument name" ;;;
        let value := if (0 <? Z.of_nat (String.length value))
                     then String.append value ", " else value in
        let value := String.append value (snd t) in
        t' <- next_token ;;
        if token_eqb (fst t') COMMA then define_arguments f value
        else ret (value, fst t')
  end.

Fixpoint last_char (s : string) : Z :=
  match s with
  | EmptyString => 0
  | String c EmptyString => char_code c
  | String _ r => last_char r
  end.

(** [parse_case_statement]. *)
Definition parse_case_statement (fuel : nat) (result : element)
    (case_context : expression_context_t) : M (option element) :=
  r <- parse_expression fuel createMap case_context None expr_none ;;
  match r with
  | None =>
      l <- get_lose ;;
      error_if (negb l) "expecting %s expression." ;;;
      set_lose true ;;;
      skip_to_semi ;;;
      ret None
  | Some expr =>
      expect COLON "colon expected." ;;;
      ret (Some (mapSet result expr "case"))
  end.

(** A statement made of an expression in data context and a semicolon
    (eval, return, and the function call written as a statement). *)
Definition expression_statement (fuel : nat) (result : element)
    (context : expression_context_t) (msg key : string) : M (option element) :=
  r <- parse_expression fuel createMap context None expr_none ;;
  match r with
  | None =>
      l <- get_lose ;;
      error_if (negb l) msg ;;;
      skip_to_semi ;;;
      ret None
  | Some expr =>
      parse_semi ;;;
      ret (Some (mapSet result expr key))
  end.

(** The entry test of [parse_executable_statements], over its loop. *)
Definition statements_of
    (loop : element -> expression_context_t -> M (option element))
    (statements : element) (case_context : expression_context_t)
    : M (option element) :=
  error_if (negb (element_type_eqb (type_of statements) ELEMENT_LIST))
           "statements is not a list?" ;;;
  loop statements case_context.

Fixpoint statements_loop (fuel : nat) (statements : element)
    (case_context : expression_context_t) {struct fuel} : M (option element) :=
  match fuel with
  | O => out_of_fuel
  | S f =>
      statement <- take_comments createMap ;;
      r <- parse_executable_statement f statement case_context ;;
      match r with
      | None =>
          l <- get_lose ;;
          if negb l then ret (Some statements) else ret None
      | Some statement =>
          statement <- take_comments statement ;;
          statements_loop f (listPush statements statement) case_context
      end
  end

with parse_executable_statement (fuel : nat) (result : element)
    (case_context : expression_context_t) {struct fuel} : M (option element) :=
  match fuel with
  | O => out_of_fuel
  | S f =>
      t <- peek_token ;;
      match fst t with
      | DB_TIME_FORMAT =>
          skip_token ;;;
          s <- next_token ;;
          error_if (negb (token_eqb (fst s) DEFAULT) && negb (token_eqb (fst s) LOCAL))
                   "Expecting 'local' or 'default'." ;;;
          expect SEMI "Expecting a semicolon." ;;;
          issue ;;;
          ret (Some (mapSet result (set_skip (createString (snd s))) "db-time-format"))
      | IF =>
          skip_token ;;;
          parse_if_statement f result
      | TOKEN_ADD =>
          skip_token ;;;
          s <- next_token ;;
          error_if (negb (token_eqb (fst s) STRING)) "expecting class name." ;;;
          parse_semi ;;;
          issue ;;;
          ret (Some (mapSet result (set_skip (createString (snd s))) "add-class"))
      | BREAK =>
          skip_token ;;;
          parse_semi ;;;
          issue ;;;
          ret (Some (mapSet result (set_skip createNull) "break"))
      | SEND | SUPERSEDE | OPTION | PREPEND | APPEND => outside "option statement"
      | ALLOW | DENY | IGNORE => outside "parse_allow_deny"
      | DEFAULT =>
          skip_token ;;;
          t' <- peek_token ;;
          if token_eqb (fst t') COLON then
            (* switch_default: *)
            skip_token ;;;
            error_if (context_eqb case_context context_any)
                     "switch default statement in %s" ;;;
            issue ;;;
            ret (Some (mapSet result (set_skip createNull) "default"))
          else outside "option statement"
      | ON =>
          skip_token ;;;
          parse_on_statement f result
      | SWITCH =>
          skip_token ;;;
          parse_switch_statement f result
      | CASE =>
          skip_token ;;;
          error_if (context_eqb case_context context_any)
                   "case statement in inappropriate scope." ;;;
          parse_case_statement f result case_context
      | DEFINE | TOKEN_SET =>
          skip_token ;;;
          let key := if token_eqb (fst t) DEFINE then "define" else "set" in
          n <- next_token ;;
          error_if (negb (token_eqb (fst n) NAME)
                    && negb (token_eqb (fst n) NUMBER_OR_NAME))
                   "%s can't be a variable name" ;;;
          issue ;;;
          let st := mapSet (set_skip createMap) (createString (snd n)) "name" in
          t' <- next_token ;;
          if token_eqb (fst t') LPAREN then
            k <- remaining ;;
            a <- define_arguments (S k) "" ;;
            error_if (negb (token_eqb (snd a) RPAREN)) "expecting right paren." ;;;
            let st := mapSet st (createString (fst a)) "arguments" in
            expect LBRACE "expecting left brace." ;;;
            r <- statements_of (statements_loop f) createList case_context ;;
            match r with
            | None =>
                (* parse_executable_statements fails only with *lose set *)
                skip_to_semi ;;;
                set_lose true ;;;
                ret None
            | Some body =>
                let st := mapSet st body "function-body" in
                expect RBRACE "expecting rigt brace." ;;;
                ret (Some (mapSet result st key))
            end
          else
            error_if (negb (token_eqb (fst t') EQUAL))
                     "expecting '=' in %s statement." ;;;
            r <- parse_expression f createMap context_any None expr_none ;;
            match r with
            | None =>
                l <- get_lose ;;
                error_if (negb l) "expecting expression." ;;;
                skip_to_semi ;;;
                ret None
            | Some expr =>
                let st := mapSet st expr "value" in
                parse_semi ;;;
                ret (Some (mapSet result st key))
            end
      | UNSET =>
          skip_token ;;;
          n <- next_token ;;
          error_if (negb (token_eqb (fst n) NAME)
                    && negb (token_eqb (fst n) NUMBER_OR_NAME))
                   "%s can't be a variable name" ;;;
          issue ;;;
          let st := mapSet (set_skip createMap) (createString (snd n)) "name" in
          parse_semi ;;;
          ret (Some (mapSet result st "unset"))
      | EVAL =>
          skip_token ;;;
          expression_statement f result context_data
            "expecting data expression." "eval"
      | EXECUTE => parse_error "ENABLE_EXECUTE is not portable"
      | RETURN =>
          skip_token ;;;
          expression_statement f result context_data
            "expecting data expression." "return"
      | LOG =>
          skip_token ;;;
          issue ;;;
          expect LPAREN "left parenthesis expected." ;;;
          p <- peek_token ;;
          let given := token_eqb (fst p) FATAL || token_eqb (fst p) ERROR
                       || token_eqb (fst p) TOKEN_DEBUG || token_eqb (fst p) INFO in
          (if given then
             skip_token ;;;
             expect COMMA "comma expected."
           else ret tt) ;;;
          let pri := createString (if given then snd p else "DEBUG") in
          let st := mapSet (set_skip createMap) pri "priority" in
          r <- parse_data_expression f createMap ;;
          match r with
          | None =>
              skip_to_semi ;;;
              set_lose true ;;;
              ret None
          | Some _ =>
              expect RPAREN "right parenthesis expected." ;;;
              expect SEMI "semicolon expected." ;;;
              ret (Some (mapSet result st "log"))
          end
      | PARSE_VENDOR_OPT =>
          skip_token ;;;
          parse_semi ;;;
          issue ;;;
          ret (Some (mapSet result (set_skip createNull) "parse-vendor-option"))
      | ZONE =>
          skip_token ;;;
          issue ;;;
          s <- parse_host_name ;;
          match s with
          | None => parse_error "expecting hostname."
          | Some s =>
              let s := if last_char s =? char_code "." then s
                       else String.append s "." in
              let zone := mapSet (set_skip createMap) (createString s) "name" in
              zone <- parse_zone zone ;;
              ret (Some (mapSet result zone "zone"))
          end
      | KEY => outside "parse_key"
      | _ =>
          if is_identifier (fst t) && server_option (snd t) then
            outside "parse_config_statement"
          else if token_eqb (fst t) NUMBER_OR_NAME || token_eqb (fst t) NAME then
            expression_statement f result context_data
              "expecting function call." "eval"
          else
            set_lose false ;;;
            ret None
      end
  end

with parse_if_statement (fuel : nat) (result : element) {struct fuel}
    : M (option element) :=
  match fuel with
  | O => out_of_fuel
  | S f =>
      issue ;;;
      let statement := set_skip createMap in
      t <- peek_token ;;
      let parenp := token_eqb (fst t) LPAREN in
      (if parenp then skip_token ;;; ret tt else ret tt) ;;;
      need_lose (parse_boolean_expression f createMap)
        "boolean expression expected." (fun cond =>
      let statement := mapSet statement cond "condition" in
      (if parenp then expect RPAREN "expecting right paren." else ret tt) ;;;
      expect LBRACE "left brace expected." ;;;
      r <- statements_of (statements_loop f) createList context_any ;;
      match r with
      | None =>
          (* Try to even things up. *)
          even_up ;;;
          ret None
      | Some branch =>
          let statement := mapSet statement branch "then" in
          expect RBRACE "right brace expected." ;;;
          t <- peek_token ;;
          match fst t with
          | ELSE =>
              skip_token ;;;
              t <- peek_token ;;
              if token_eqb (fst t) IF then
                skip_token ;;;
                need_lose (parse_if_statement f createMap)
                  "expecting if statement" (fun branch =>
                ret (Some (mapSet result (mapSet statement branch "else") "if")))
              else if negb (token_eqb (fst t) LBRACE) then
                parse_error "left brace or if expected."
              else
                skip_token ;;;
                r <- statements_of (statements_loop f) createList context_any ;;
                match r with
                | None => ret None
                | Some branch =>
                    expect RBRACE "right brace expected." ;;;
                    ret (Some (mapSet result (mapSet statement branch "else") "if"))
                end
          | ELSIF =>
              skip_token ;;;
              need_lose (parse_if_statement f createMap)
                "expecting conditional." (fun branch =>
              ret (Some (mapSet result (mapSet statement branch "else") "if")))
          | _ => ret (Some (mapSet result statement "if"))
          end
      end)
  end

with parse_on_statement (fuel : nat) (result : element) {struct fuel}
    : M (option element) :=
  match fuel with
  | O => out_of_fuel
  | S f =>
      issue ;;;
      k <- remaining ;;
      ev <- on_events (S k) "" ;;
      let statement := mapSet (set_skip createMap) (createString (fst ev)) "condition" in
      (* Semicolon means no statements. *)
      if token_eqb (snd ev) SEMI then ret (Some (mapSet result statement "on"))
      else
        error_if (negb (token_eqb (snd ev) LBRACE)) "left brace expected." ;;;
        r <- statements_of (statements_loop f) createList context_any ;;
        match r with
        | None =>
            even_up ;;;
            ret None
        | Some body =>
            let statement := mapSet statement body "body" in
            expect RBRACE "right brace expected." ;;;
            ret (Some (mapSet result statement "on"))
        end
  end

with parse_switch_statement (fuel : nat) (result : element) {struct fuel}
    : M (option element) :=
  match fuel with
  | O => out_of_fuel
  | S f =>
      issue ;;;
      expect LPAREN "expecting left brace." ;;;
      r <- parse_expression f createMap context_data_or_numeric None expr_none ;;
      match r with
      | None =>
          l <- get_lose ;;
          error_if (negb l) "expecting data or numeric expression." ;;;
          ret None
      | Some cond =>
          let statement := mapSet (set_skip createMap) cond "condition" in
          expect RPAREN "right paren expected." ;;;
          expect LBRACE "left brace expected." ;;;
          r <- statements_of (statements_loop f) createList
                 (if is_data_expression cond then context_data else context_numeric) ;;
          match r with
          | None =>
              skip_to_rbrace 1 ;;;
              ret None
          | Some body =>
              let statement := mapSet statement body "body" in
              expect RBRACE "right brace expected." ;;;
              ret (Some (mapSet result statement "switch"))
          end
      end
  end.

Definition parse_executable_statements (fuel : nat) :
    element -> expression_context_t -> M (option element) :=
  statements_of (statements_loop fuel).

End Statements.

(* ================================================================== *)
(** * config_valid_lifetime                                             *)
(* ================================================================== *)

(** The kinds at which the walk of [config_valid_lifetime] stops without
    complaint. *)
Definition lifetime_scope (k : decl_kind) : bool :=
  match k with
  | ROOT_GROUP | SHARED_NET_DECL | SUBNET_DECL | GROUP_DECL => true
  | _ => false
  end.

(** What the [for] loop leaves behind: the index [where], the flag
    [pop_from_pool], and whether the unsupported-scope branch was
    taken. *)
Record walk_result : Type := Walk {
  walk_where : nat;
  pop_from_pool : bool;
  unsupported : bool
}.

(** [for (where = cfile->stack_top; where > 0; --where)]: [stack[0]] is
    never looked at. *)
Fixpoint lifetime_walk (stack : list frame) (where_ : nat) (pop : bool) : walk_result :=
  match where_ with
  | O => Walk O pop false
  | S w =>
      match nth_error stack (S w) with
      | None => Walk (S w) pop false
      | Some fr =>
          match kind fr with
          | PARAMETER => lifetime_walk stack w pop
          | POOL_DECL => lifetime_walk stack w true
          | k => if lifetime_scope k then Walk (S w) pop false
                 else Walk (S w) pop true
          end
      end
  end.

Fixpoint update_frame (stack : list frame) (i : nat) (f : frame -> frame) : list frame :=
  match stack, i with
  | [], _ => []
  | fr :: rest, O => f fr :: rest
  | fr :: rest, S j => fr :: update_frame rest j f
  end.

Definition UNSUPPORTED_SCOPE := "/// valid-lifetime in unsupported scope".
Definition MOVED_FROM_POOL := "/// valid-lifetime moved from an internal pool scope".

(** The value as it is stored: flagged and annotated when the walk ended
    in an unsupported scope, annotated when it left a pool. *)
Definition annotate_lifetime (value : element) (w : walk_result) : element :=
  let value := if unsupported w
               then set_skip (add_comment value UNSUPPORTED_SCOPE) else value in
  if pop_from_pool w then add_comment value MOVED_FROM_POOL else value.

(** [config_valid_lifetime(config, cfile)].  A [config] without "value"
    makes the C code use a null pointer; that case is [Outside]. *)
Definition config_valid_lifetime (config : element) : M unit :=
  fun c =>
    match mapGet config "value" with
    | None => Outside "config without value"
    | Some value =>
        let w := lifetime_walk (stack c) (List.length (stack c) - 1) false in
        let value := annotate_lifetime value w in
        Done (tt,
              Parse (tokens c) (pending c)
                    (if unsupported w then issue_counter c + 1 else issue_counter c)
                    (update_frame (stack c) (walk_where w)
                       (fun fr => Frame (kind fr) (mapSet (body fr) value "valid-lifetime")))
                    (lose c))
    end.

(** Frames that the walk passes: parameter blocks and pools. *)
Definition passed (fr : frame) : bool :=
  match kind fr with
  | PARAMETER | POOL_DECL => true
  | _ => false
  end.

Definition is_pool (fr : frame) : bool :=
  match kind fr with
  | POOL_DECL => true
  | _ => false
  end.

Definition is_parameter (fr : frame) : bool :=
  match kind fr with
  | PARAMETER => true
  | _ => false
  end.

Definition store_lifetime (fr : frame) (value : element) : frame :=
  Frame (kind fr) (mapSet (body fr) value "valid-lifetime").

(** The state after the call: only the issue counter and the stack can
    have changed. *)
Definition with_stack (c : parse) (issues : Z) (st : list frame) : parse :=
  Parse (tokens c) (pending c) issues st (lose c).

(** The shape of the node of an if statement, in the words of the
    specification: a flagged map with "condition", "then" and, when
    there is an else part, "else". *)
Definition if_node (cond then_ : element) (else_ : option element) : element :=
  Element (VMap ([("condition", cond); ("then", then_)]
                 ++ match else_ with
                    | Some b => [("else", b)]
                    | None => []
                    end)) true [].

(** What [parse_boolean_expression] lets through. *)
Definition accepted_condition (cond : element) : bool :=
  is_boolean_expression cond
  || mapContains cond "variable-reference"
  || mapContains cond "funcall".

(** [if_tree result r]: [r] is [result] with an if node stored under
    "if"; the else part of the node, when there is one, is a list of
    statements or again a map with an if node under "if". *)
Inductive if_tree : element -> element -> Prop :=
  | if_plain result cond then_ :
      accepted_condition cond = true ->
      type_of then_ = ELEMENT_LIST ->
      if_tree result (mapSet result (if_node cond then_ None) "if")
  | if_else_block result cond then_ branch :
      accepted_condition cond = true ->
      type_of then_ = ELEMENT_LIST ->
      type_of branch = ELEMENT_LIST ->
      if_tree result (mapSet result (if_node cond then_ (Some branch)) "if")
  | if_else_if result cond then_ branch :
      accepted_condition cond = true ->
      type_of then_ = ELEMENT_LIST ->
      if_tree createMap branch ->
      if_tree result (mapSet result (if_node cond then_ (Some branch)) "if").

(** The state in which the condition of an if statement is parsed: the
    issue is counted and a left parenthesis at the head is skipped. *)
Definition at_condition (c : parse) : parse :=
  Parse (match tokens c with
         | (LPAREN, _) :: rest => rest
         | toks => toks
         end) (pending c) (issue_counter c + 1) (stack c) (lose c).

(** The node of a switch statement. *)
Definition switch_node (cond body : element) : element :=
  Element (VMap [("condition", cond); ("body", body)]) true [].

(** The case context that a switch gives to its body. *)
Definition switch_context (cond : element) : expression_context_t :=
  if is_data_expression cond then context_data else context_numeric.

(** A switch body made of case statements on literals: the tokens of
    the statements "case lit :", the literals that a case context reads
    as they are (a NUMBER in numeric context, a STRING in data
    context), the value of the case expression, and the list of the
    statements. *)
Definition case_clause (kw col : string) (lit : dhcp_token * string)
    : list (dhcp_token * string) :=
  [(CASE, kw); lit; (COLON, col)].

Definition case_clauses (kw col : string) (lits : list (dhcp_token * string))
    : list (dhcp_token * string) :=
  flat_map (case_clause kw col) lits.

Definition case_literal (context : expression_context_t)
    (lit : dhcp_token * string) : bool :=
  if context_eqb context context_numeric then token_eqb (fst lit) NUMBER
  else token_eqb (fst lit) STRING.

Definition case_value (context : expression_context_t)
    (lit : dhcp_token * string) : element :=
  if context_eqb context context_numeric then createInt (atoi (snd lit))
  else createString (snd lit).

Definition case_statements (context : expression_context_t)
    (lits : list (dhcp_token * string)) (statements : element) : element :=
  fold_left (fun l lit => listPush l (mapSet createMap (case_value context lit) "case"))
    lits statements.

(** Externals for the closed examples: a resolver that knows no host,
    and no option in the "server" space. *)
Definition no_resolver : string -> option (list (list Z)) := fun _ => None.
Definition no_ntop : list Z -> option string := fun _ => None.
Definition no_ip6 : M string := parse_error "Invalid IPv6 address.".
Definition no_server_option : string -> bool := fun _ => false.

(* ================================================================== *)
(** * Strings, addresses and keys                                       *)
(* ================================================================== *)

(** [parse_string(cfile, sptr, lptr)]: the string and its length, as
    they are stored through [sptr] and [lptr].  The call of
    [parse_error] that follows [malloc] is under no test. *)
Definition parse_string : M (string * Z) :=
  t <- next_token ;;
  error_if (negb (token_eqb (fst t) STRING)) "expecting a string" ;;;
  @parse_error unit "no memory for string %s." ;;;
  parse_semi ;;;
  ret (snd t, Z.of_nat (String.length (snd t))).

(** [parse_ip_addr]: four decimal bytes separated by dots. *)
Definition parse_ip_addr : M (list Z) :=
  r <- parse_numeric_aggregate 4 DOT 10 8 ;;
  ret (fst r).

(** The table [from64] of [parse_base64], indexed by the character code
    minus the code of the space. *)
Definition from64 : list Z :=
  [64; 64; 64; 64; 64; 64; 64; 64;
   64; 64; 64; 62; 64; 64; 64; 63;
   52; 53; 54; 55; 56; 57; 58; 59;
   60; 61; 64; 64; 64; 64; 64; 64;
   64; 0; 1; 2; 3; 4; 5; 6;
   7; 8; 9; 10; 11; 12; 13; 14;
   15; 16; 17; 18; 19; 20; 21; 22;
   23; 24; 25; 64; 64; 64; 64; 64;
   64; 26; 27; 28; 29; 30; 31; 32;
   33; 34; 35; 36; 37; 38; 39; 40;
   41; 42; 43; 44; 45; 46; 47; 48;
   49; 50; 51; 64; 64; 64; 64; 64].

(** The test of one character in the [for] loop of [parse_base64]:
    [true] when the character makes the text invalid. *)
Definition invalid_base64_char (ch : Z) : bool :=
  ((ch <? char_code " ") || (ch >? char_code "z"))
  || ((nth (Z.to_nat (ch - char_code " ")) from64 64 >? 63)
      && negb (ch =? char_code "=")).

(** The [for] loop: the value of [valid_base64] it leaves. *)
Fixpoint valid_base64 (val : string) : bool :=
  match val with
  | EmptyString => true
  | String ch rest =>
      if char_code ch =? 0 then true
      else if invalid_base64_char (char_code ch) then false
      else valid_base64 rest
  end.

(** The [do ... while (valid_base64)] loop: a token is read and added to
    [r], then the text of the token that follows is tested. *)
Fixpoint parse_base64_loop (fuel : nat) (r : string) : M string :=
  match fuel with
  | O => out_of_fuel
  | S f =>
      t <- next_token ;;
      let r := String.append r (snd t) in
      p <- peek_token ;;
      if valid_base64 (snd p) then parse_base64_loop f r else ret r
  end.

(** [parse_base64]: the function returns the string it has built, never
    NULL ([Some]).  At the end of the input the loop goes on as long as
    the text that the lexer gives with END_OF_FILE passes the test; with
    the empty text it never stops, and the budget runs out. *)
Definition parse_base64 : M (option string) :=
  n <- remaining ;;
  r <- parse_base64_loop (S n) "" ;;
  ret (Some r).

(** [strrchr(s, ch) != NULL]. *)
Fixpoint strrchr (s : string) (ch : ascii) : bool :=
  match s with
  | EmptyString => false
  | String c rest =>
      if char_code c =? 0 then false
      else (char_code c =? char_code ch) || strrchr rest ch
  end.

(** [listPush] on the list that a map holds under a key: the map holds
    a pointer to the list, so the new item is seen through the map. *)
Fixpoint push_under (m : list (string * element)) (k : string) (e : element)
    : list (string * element) :=
  match m with
  | [] => []
  | p :: rest =>
      if String.eqb (fst p) k then (fst p, listPush (snd p) e) :: rest
      else p :: push_under rest k e
  end.

Definition mapPush (m : element) (k : string) (e : element) : element :=
  match content m with
  | VMap l => Element (VMap (push_under l k e)) (skip m) (comments m)
  | _ => m
  end.

(** "Remember the key": the end of [parse_key]. *)
Definition remember_key (result key : element) : element :=
  match mapGet result "tsig-keys" with
  | None => mapSet result (listPush createList key) "tsig-keys"
  | Some _ => mapPush result "tsig-keys" key
  end.

(** The [do ... while (!done)] loop of [parse_key]: the key and the
    token that ended the loop, or [None] for the return of ISC_FALSE. *)
Fixpoint parse_key_loop (fuel : nat) (key : element)
    : M (option (element * dhcp_token)) :=
  match fuel with
  | O => out_of_fuel
  | S f =>
      t <- next_token ;;
      match fst t with
      | ALGORITHM =>
          error_if (mapContains key "algorithm") "key: too many algorithms" ;;;
          alg <- parse_host_name ;;
          match alg with
          | None => parse_error "expecting key algorithm name."
          | Some alg =>
              parse_semi ;;;
              (* If the algorithm name isn't an FQDN, tack on the
                 .SIG-ALG.REG.NET. domain; else a trailing '.' *)
              let alg := if strrchr alg "."
                         then String.append alg "."
                         else String.append alg ".SIG-ALG.REG.INT." in
              parse_key_loop f (mapSet key (createString alg) "algorithm")
          end
      | SECRET =>
          error_if (mapContains key "secret") "key: too many secrets" ;;;
          sec <- parse_base64 ;;
          match sec with
          | None =>
              skip_to_rbrace 1 ;;;
              ret None
          | Some sec =>
              let key := mapSet key (createString sec) "secret" in
              parse_semi ;;;
              parse_key_loop f key
          end
      | tok => ret (Some (key, tok))
      end
  end.

(** [parse_key(result, cfile)]: [Some result'] is ISC_TRUE with the key
    remembered in [result], [None] is ISC_FALSE. *)
Definition parse_key (result : element) : M (option element) :=
  let key := set_skip createMap in
  issue ;;;
  t <- peek_token ;;
  key <- (if token_eqb (fst t) STRING then
            skip_token ;;;
            ret (mapSet key (createString (snd t)) "name")
          else
            name <- parse_host_name ;;
            match name with
            | None => parse_error "expecting key name."
            | Some name => ret (mapSet key (createString name) "name")
            end) ;;
  expect LBRACE "expecting left brace" ;;;
  n <- remaining ;;
  r <- parse_key_loop (S n) key ;;
  match r with
  | None => ret None
  | Some (key, token) =>
      error_if (negb (token_eqb token RBRACE)) "expecting right brace." ;;;
      (* Allow the BIND 8 syntax, which has a semicolon after each
         closing brace. *)
      t <- peek_token ;;
      (if token_eqb (fst t) SEMI then skip_token ;;; ret tt else ret tt) ;;;
      ret (Some (remember_key result key))
  end.

(* ================================================================== *)
(** * parse_option_data                                                 *)
(* ================================================================== *)

(** What the [for (;;)] loop of [parse_option_data] keeps: the two
    strings and the two flags. *)
Record option_text : Type := OptionText {
  data : string;
  saved : string;
  canon_bool : bool;
  has_ignore : bool
}.

Fixpoint parse_option_data_loop (fuel : nat) (o : option_text) : M option_text :=
  match fuel with
  | O => out_of_fuel
  | S f =>
      t <- peek_token ;;
      error_if (token_eqb (fst t) END_OF_FILE) "unexpected end of file" ;;;
      if token_eqb (fst t) SEMI then ret o
      else if token_eqb (fst t) COMMA then
        skip_token ;;;
        parse_option_data_loop f
          (OptionText (String.append (data o) ", ") (String.append (saved o) ",")
             (canon_bool o) (has_ignore o))
      else
        skip_token ;;;
        let saved := String.append (saved o) (snd t) in
        if is_identifier (fst t) && String.eqb (snd t) "off" then
          parse_option_data_loop f
            (OptionText (String.append (data o) "false") saved true (has_ignore o))
        else if is_identifier (fst t) && token_eqb (fst t) ON then
          parse_option_data_loop f
            (OptionText (String.append (data o) "true") saved true (has_ignore o))
        else if is_identifier (fst t) && token_eqb (fst t) IGNORE then
          parse_option_data_loop f
            (OptionText (String.append (data o) (snd t)) saved (canon_bool o) true)
        else
          parse_option_data_loop f
            (OptionText (String.append (data o) (snd t)) saved
               (canon_bool o) (has_ignore o))
  end.

Definition CANONIZED := "/// canonized booleans to  lowercase true or false".
Definition IGNORE_USED := "/// 'ignore' pseudo-boolean is used".

(** [parse_option_data(expr, cfile, option)]; the function does not look
    at [option].  It always returns ISC_TRUE ([Some]). *)
Definition parse_option_data (expr : element) : M (option element) :=
  n <- remaining ;;
  o <- parse_option_data_loop (S n) (OptionText "" "" false false) ;;
  let expr := if canon_bool o then add_comment expr CANONIZED else expr in
  expr <- (if has_ignore o then
             issue ;;;
             ret (set_skip (add_comment expr IGNORE_USED))
           else ret expr) ;;
  let expr := if canon_bool o || has_ignore o
              then mapSet expr (set_skip (createString (saved o))) "original-data"
              else expr in
  ret (Some (mapSet expr (createString (data o)) "data")).

(* ================================================================== *)
(** * The other special config options                                  *)
(* ================================================================== *)

(** [local_family] is a global of keama.c, set to one of the two
    address families before the parse. *)
Inductive address_family : Type := AF_INET | AF_INET6.

(** What the loops over the declaration stack leave behind: the index
    [where] and the flag [popped]. *)
Record scope_result : Type := Scope {
  scope_where : nat;
  popped : bool
}.

(** The [for] loop of [config_file]; the loop of [config_sname] is the
    same text. *)
Fixpoint boot_walk (stack : list frame) (where_ : nat) : scope_result :=
  match where_ with
  | O => Scope O false
  | S w =>
      match nth_error stack (S w) with
      | None => Scope (S w) false
      | Some fr =>
          match kind fr with
          | PARAMETER => boot_walk stack w
          | HOST_DECL | CLASS_DECL | GROUP_DECL => Scope (S w) false
          | ROOT_GROUP => Scope (S w) true
          | _ => boot_walk stack w
          end
      end
  end.

(** The [for] loop of [config_next_server]. *)
Fixpoint next_server_walk (stack : list frame) (where_ : nat) (pop : bool)
    : scope_result :=
  match where_ with
  | O => Scope O pop
  | S w =>
      match nth_error stack (S w) with
      | None => Scope (S w) pop
      | Some fr =>
          match kind fr with
          | PARAMETER => next_server_walk stack w pop
          | ROOT_GROUP | HOST_DECL | CLASS_DECL | GROUP_DECL => Scope (S w) pop
          | _ => next_server_walk stack w true
          end
      end
  end.

Definition FILE_UNSUPPORTED_SCOPE :=
  "/// boot-file-name was defined in an unsupported scope".
Definition SNAME_UNSUPPORTED_SCOPE :=
  "/// server-hostname was defined in an unsupported scope".
Definition NEXT_SERVER_MOVED :=
  "/// next-server moved from an internal unsupported scope".
Definition PREFERRED_UNSUPPORTED_SCOPE :=
  "/// preferred-lifetime in unsupported scope".
Definition PREFERRED_MOVED_FROM_POOL :=
  "/// preferred-lifetime moved from an internal pool scope".

(** [mapSet(cfile->stack[where], value, key)]. *)
Definition store_at (c : parse) (where_ : nat) (value : element) (key : string)
    (issues : Z) : parse :=
  Parse (tokens c) (pending c) issues
        (update_frame (stack c) where_
           (fun fr => Frame (kind fr) (mapSet (body fr) value key)))
        (lose c).

Section SpecialConfig.

Variable local_family : address_family.

(** [config_file(config, cfile)].  As for [config_valid_lifetime], a
    [config] without "value" is [Outside]. *)
Definition config_file (config : element) : M unit :=
  fun c =>
    match local_family with
    | AF_INET6 => Fatal "boot-file-name is DHCPv4 only"
    | AF_INET =>
        match mapGet config "value" with
        | None => Outside "config without value"
        | Some value =>
            let w := boot_walk (stack c) (List.length (stack c) - 1) in
            if popped w then
              Done (tt, store_at c (scope_where w)
                          (set_skip (add_comment value FILE_UNSUPPORTED_SCOPE))
                          "boot-file-name" (issue_counter c + 1))
            else
              Done (tt, store_at c (scope_where w) value "boot-file-name"
                          (issue_counter c))
        end
    end.

(** [config_sname(config, cfile)]. *)
Definition config_sname (config : element) : M unit :=
  fun c =>
    match local_family with
    | AF_INET6 => Fatal "server-hostname is DHCPv4 only"
    | AF_INET =>
        match mapGet config "value" with
        | None => Outside "config without value"
        | Some value =>
            let w := boot_walk (stack c) (List.length (stack c) - 1) in
            if popped w then
              Done (tt, store_at c (scope_where w)
                          (set_skip (add_comment value SNAME_UNSUPPORTED_SCOPE))
                          "server-hostname" (issue_counter c + 1))
            else
              Done (tt, store_at c (scope_where w) value "server-hostname"
                          (issue_counter c))
        end
    end.

(** [config_next_server(config, cfile)]. *)
Definition config_next_server (config : element) : M unit :=
  fun c =>
    match local_family with
    | AF_INET6 => Fatal "next-server is DHCPv4 only"
    | AF_INET =>
        match mapGet config "value" with
        | None => Outside "config without value"
        | Some value =>
            let w := next_server_walk (stack c) (List.length (stack c) - 1) false in
            let value := if popped w then add_comment value NEXT_SERVER_MOVED
                         else value in
            Done (tt, store_at c (scope_where w) value "next-server"
                        (issue_counter c))
        end
    end.

(** [config_preferred_lifetime(config, cfile)]: the loop is the text of
    the loop of [config_valid_lifetime]. *)
Definition config_preferred_lifetime (config : element) : M unit :=
  fun c =>
    match local_family with
    | AF_INET => Fatal "preferred-lifetime is DHCPv6 only"
    | AF_INET6 =>
        match mapGet config "value" with
        | None => Outside "config without value"
        | Some value =>
            let w := lifetime_walk (stack c) (List.length (stack c) - 1) false in
            let value := if unsupported w
                         then set_skip (add_comment value PREFERRED_UNSUPPORTED_SCOPE)
                         else value in
            let value := if pop_from_pool w
                         then add_comment value PREFERRED_MOVED_FROM_POOL
                         else value in
            Done (tt, store_at c (walk_where w) value "preferred-lifetime"
                        (if unsupported w then issue_counter c + 1
                         else issue_counter c))
        end
    end.

(** [config_match_client_id] and [config_echo_client_id]: the test of
    the family is all they do. *)
Definition config_match_client_id (config : element) : M unit :=
  match local_family with
  | AF_INET6 => parse_error "match-client-id is DHCPv4 only"
  | AF_INET => ret tt
  end.

Definition config_echo_client_id (config : element) : M unit :=
  match local_family with
  | AF_INET6 => parse_error "echo-client-id is DHCPv4 only"
  | AF_INET => ret tt
  end.

End SpecialConfig.

(* ================================================================== *)
(** * Predicates and functions used in the statements                   *)
(* ================================================================== *)

(** What [skip_to_rbrace] leaves of a token list: the same loop on the
    bare list. *)
Fixpoint skipped (brace_count : Z) (toks : list (dhcp_token * string))
    : list (dhcp_token * string) :=
  match toks with
  | [] => []
  | t :: rest =>
      match fst t with
      | RBRACE =>
          let brace_count :=
            if brace_count >? 0 then brace_count - 1 else brace_count in
          if brace_count =? 0 then rest else skipped brace_count rest
      | LBRACE => skipped (brace_count + 1) rest
      | SEMI => if brace_count =? 0 then rest else skipped brace_count rest
      | EOL => rest
      | END_OF_FILE => rest
      | _ => skipped brace_count rest
      end
  end.

(** The tokens of a statement before its end: no semicolon, no brace,
    no end of line or of file. *)
Definition word (t : dhcp_token * string) : bool :=
  match fst t with
  | SEMI | LBRACE | RBRACE | EOL | END_OF_FILE => false
  | _ => true
  end.

(** A run of tokens whose braces match, read at depth [depth]; it holds
    no end of line or of file. *)
Fixpoint braces_match (depth : nat) (toks : list (dhcp_token * string)) : bool :=
  match toks with
  | [] => Nat.eqb depth 0
  | t :: rest =>
      match fst t with
      | LBRACE => braces_match (S depth) rest
      | RBRACE =>
          match depth with
          | O => false
          | S d => braces_match d rest
          end
      | EOL | END_OF_FILE => false
      | _ => braces_match depth rest
      end
  end.

(** The texts of a run of tokens, one after the other. *)
Fixpoint texts (toks : list (dhcp_token * string)) : string :=
  match toks with
  | [] => ""
  | t :: rest => String.append (snd t) (texts rest)
  end.

(** A label of a host name: an identifier or a number. *)
Definition is_label (t : dhcp_token) : bool :=
  is_identifier t || token_eqb t NUMBER.

(** The grammar in the comment over [parse_host_name], with numbers
    among the labels as the code takes them:
    hostname :== IDENTIFIER | IDENTIFIER DOT | hostname DOT IDENTIFIER,
    read from the left. *)
Inductive dotted : list (dhcp_token * string) -> Prop :=
  | dotted_label l :
      is_label (fst l) = true -> dotted [l]
  | dotted_dot l d :
      is_label (fst l) = true -> fst d = DOT -> dotted [l; d]
  | dotted_more l d name :
      is_label (fst l) = true -> fst d = DOT -> dotted name ->
      dotted (l :: d :: name).

(** A name ends where it cannot go on: no label after a final dot, no
    dot after a final label. *)
Definition name_ends (name rest : list (dhcp_token * string)) : bool :=
  if token_eqb (fst (last name (END_OF_FILE, ""))) DOT
  then negb (is_label (first_token rest))
  else negb (token_eqb (first_token rest) DOT).

(** The name that [parse_host_name] has read so far: empty while [s] is
    NULL. *)
Definition name_so_far (s : option string) : string :=
  match s with
  | None => ""
  | Some x => x
  end.

(** The tokens that make [parse_ip_addr_or_hostname] read an address:
    NUMBER DOT NUMBER. *)
Definition ip_address_ahead (toks : list (dhcp_token * string)) : bool :=
  match toks with
  | (NUMBER, _) :: (DOT, _) :: (NUMBER, _) :: _ => true
  | _ => false
  end.

(** The characters of a C string: the codes up to the first NUL. *)
Fixpoint c_chars (s : string) : list Z :=
  match s with
  | EmptyString => []
  | String ch rest =>
      if char_code ch =? 0 then [] else char_code ch :: c_chars rest
  end.

(** A decimal digit whose value is below [base]. *)
Definition digit_below (base : Z) (ch : Z) : bool :=
  (char_code "0" <=? ch) && (ch <? char_code "0" + base).

(** The text of a number after its sign. *)
Definition unsigned_part (str : string) : string := snd (scan_sign str).

(** Bytes printed as [parse_cshl] prints them: two hexadecimal digits
    each, colons between them. *)
Fixpoint colon_hex (bs : list Z) : string :=
  match bs with
  | [] => ""
  | b :: rest => String.append ":" (String.append (hex_byte b) (colon_hex rest))
  end.

Definition hex_list (bs : list Z) : string :=
  match bs with
  | [] => ""
  | b :: rest => String.append (hex_byte b) (colon_hex rest)
  end.

(** The tokens of a list of bytes in that form: one number token for
    each byte, of the kind given with it, colons between them. *)
Definition hex_token (p : dhcp_token * Z) : dhcp_token * string :=
  (fst p, hex_byte (snd p)).

Definition hex_tokens (bs : list (dhcp_token * Z)) : list (dhcp_token * string) :=
  match bs with
  | [] => []
  | b :: rest => hex_token b :: separated (COLON, ":") (map hex_token rest)
  end.

(** A byte with the kind of a token that [parse_cshl] accepts. *)
Definition hex_kind (p : dhcp_token * Z) : Prop :=
  (fst p = NUMBER \/ fst p = NUMBER_OR_NAME) /\ 0 <= snd p < 256.

(** The base64 alphabet and the padding character, by their codes. *)
Definition base64_character (ch : Z) : bool :=
  ((char_code "A" <=? ch) && (ch <=? char_code "Z"))
  || ((char_code "a" <=? ch) && (ch <=? char_code "z"))
  || ((char_code "0" <=? ch) && (ch <=? char_code "9"))
  || (ch =? char_code "+") || (ch =? char_code "/") || (ch =? char_code "=").

(** The name of an algorithm as [parse_key] stores it. *)
Definition qualified (alg : string) : string :=
  if strrchr alg "." then String.append alg "."
  else String.append alg ".SIG-ALG.REG.INT.".

(** The children that the loop of [parse_key] adds to a key. *)
Definition key_entry (p : string * element) : Prop :=
  (fst p = "algorithm" /\ exists alg, snd p = createString (qualified alg))
  \/ (fst p = "secret" /\ exists sec, snd p = createString sec).

(** A key as [parse_key] builds it: a flagged map with "name" first,
    then "algorithm" and "secret" in the order of the input, each at
    most once. *)
Definition key_shape (key : element) : Prop :=
  exists name entries,
    key = Element (VMap (("name", createString name) :: entries)) true []
    /\ Forall key_entry entries
    /\ NoDup (map fst entries).

(** Two states that differ in their tokens at most. *)
Definition only_tokens (c c' : parse) : Prop :=
  pending c' = pending c /\ issue_counter c' = issue_counter c
  /\ stack c' = stack c /\ lose c' = lose c.

(** The tokens that [parse_option_data] reads before the semicolon. *)
Definition option_word (t : dhcp_token * string) : bool :=
  negb (token_eqb (fst t) SEMI) && negb (token_eqb (fst t) END_OF_FILE).

(** What a token adds to "data" and to the saved original text. *)
Definition data_word (t : dhcp_token * string) : string :=
  if token_eqb (fst t) COMMA then ", "
  else if is_identifier (fst t) && String.eqb (snd t) "off" then "false"
  else if token_eqb (fst t) ON then "true"
  else snd t.

Definition saved_word (t : dhcp_token * string) : string :=
  if token_eqb (fst t) COMMA then "," else snd t.

(** The tokens that are rewritten (the identifier "off" and the token
    ON) and the token IGNORE. *)
Definition canonized (t : dhcp_token * string) : bool :=
  (is_identifier (fst t) && String.eqb (snd t) "off") || token_eqb (fst t) ON.

Definition ignore_word (t : dhcp_token * string) : bool :=
  token_eqb (fst t) IGNORE && negb (String.eqb (snd t) "off").

Fixpoint words (f : dhcp_token * string -> string)
    (toks : list (dhcp_token * string)) : string :=
  match toks with
  | [] => ""
  | t :: rest => String.append (f t) (words f rest)
  end.

(** The frames that the loop of [config_file] and [config_sname] goes
    past: every kind but host, class, group and root. *)
Definition boot_passed (fr : frame) : bool :=
  match kind fr with
  | HOST_DECL | CLASS_DECL | GROUP_DECL | ROOT_GROUP => false
  | _ => true
  end.

(** The frames at which that loop stops without complaint. *)
Definition boot_scope (k : decl_kind) : bool :=
  match k with
  | HOST_DECL | CLASS_DECL | GROUP_DECL => true
  | _ => false
  end.

(** The frames at which the loop of [config_next_server] stops. *)
Definition next_server_scope (k : decl_kind) : bool :=
  match k with
  | ROOT_GROUP | HOST_DECL | CLASS_DECL | GROUP_DECL => true
  | _ => false
  end.

(** [mapSet(frame, value, key)] on a frame. *)
Definition store_in (fr : frame) (value : element) (key : string) : frame :=
  Frame (kind fr) (mapSet (body fr) value key).

(** An expression with a type: a boolean, data or numeric expression, or
    a variable reference or a function call, which
    [parse_boolean_expression] and its two sisters let through. *)
Definition typed (e : element) : bool :=
  is_boolean_expression e || is_data_expression e || is_numeric_expression e
  || mapContains e "variable-reference" || mapContains e "funcall".

(** The keys under which [parse_non_binary] and [parse_expression]
    store what they build. *)
Definition expression_keys : list string :=
  boolean_keys ++ data_keys ++ numeric_keys ++ ["variable-reference"; "funcall"].

(** The tokens that give the priority of a log statement. *)
Definition log_level (t : dhcp_token) : bool :=
  token_eqb t FATAL || token_eqb t ERROR || token_eqb t TOKEN_DEBUG
  || token_eqb t INFO.

(** The tokens that name a lease event in an on statement. *)
Definition lease_event (t : dhcp_token * string) : bool :=
  match fst t with
  | EXPIRY | COMMIT | RELEASE | TRANSMISSION => true
  | _ => false
  end.

(** The texts of a list of events with " or " between them. *)
Fixpoint or_more (evs : list (dhcp_token * string)) : string :=
  match evs with
  | [] => ""
  | e :: rest => String.append " or " (String.append (snd e) (or_more rest))
  end.

Definition or_list (evs : list (dhcp_token * string)) : string :=
  match evs with
  | [] => ""
  | e :: rest => String.append (snd e) (or_more rest)
  end.

(** Sample operands and operators for the statements on equality and
    the logical operators: keywords whose node is a data expression,
    keywords whose node is boolean, the tokens of the operators of the
    equality family and of "and" and "or". *)
Definition data_leaves : list (dhcp_token * string) :=
  [(HARDWARE, "hardware"); (FILENAME, "filename")].

Definition boolean_leaves : list (dhcp_token * string) :=
  [(KNOWN, "known"); (STATIC, "static")].

Definition equality_operators : list (list (dhcp_token * string) * expr_op) :=
  [([(EQUAL, "=")], expr_equal);
   ([(BANG, "!"); (EQUAL, "=")], expr_not_equal);
   ([(TILDE, "~"); (EQUAL, "=")], expr_regex_match);
   ([(TILDE, "~"); (TILDE, "~")], expr_iregex_match)].

Definition logical_operators : list (dhcp_token * string * expr_op) :=
  [(AND, "and", expr_and); (OR, "or", expr_or)].

(** The argument names of a function definition: a name token with a
    text, the tokens of a list of names with commas between them, and
    the texts of the names with ", " between them. *)
Definition argument_name (t : dhcp_token * string) : bool :=
  (token_eqb (fst t) NAME || token_eqb (fst t) NUMBER_OR_NAME)
  && (0 <? Z.of_nat (String.length (snd t))).

Definition listed (sep : dhcp_token * string)
    (names : list (dhcp_token * string)) : list (dhcp_token * string) :=
  match names with
  | [] => []
  | a :: more => a :: separated sep more
  end.

Fixpoint comma_more (names : list (dhcp_token * string)) : string :=
  match names with
  | [] => ""
  | a :: rest => String.append ", " (String.append (snd a) (comma_more rest))
  end.

Definition comma_list (names : list (dhcp_token * string)) : string :=
  match names with
  | [] => ""
  | a :: rest => String.append (snd a) (comma_more rest)
  end.

(** The key a definition is stored under, by its keyword. *)
Definition definition_key (t : dhcp_token) : string :=
  if token_eqb t DEFINE then "define" else "set".

(* ================================================================== *)
(** * Properties                                                        *)
(* ================================================================== *)

Lemma context_eqb_eq a b : context_eqb a b = true <-> a = b.
Proof. destruct a, b; simpl; split; intro H; try reflexivity; discriminate. Qed.

(* ------------------------------------------------------------------ *)
(** ** Numeric codec                                                    *)
(* ------------------------------------------------------------------ *)

Lemma byte_at_div v i : 0 <= i -> byte_at v i = (v / 2 ^ (8 * i)) mod 256.
Proof.
  intro Hi. unfold byte_at.
  rewrite Z.shiftr_div_pow2 by lia.
  change 255 with (Z.ones 8). now rewrite Z.land_ones by lia.
Qed.

Lemma wrap_u32_wrap_int z : wrap_u32 (wrap_int z) = z mod 2 ^ 32.
Proof.
  unfold wrap_u32, wrap_int.
  rewrite Zminus_mod_idemp_l. f_equal. lia.
Qed.

Lemma wrap_u32_range z : 0 <= wrap_u32 z < 2 ^ 32.
Proof. unfold wrap_u32. apply Z.mod_pos_bound. lia. Qed.

Lemma convert_digits_range base ptr :
  forall val v, convert_digits base ptr val = Done v -> 0 <= v < 2 ^ 32.
Proof.
  induction ptr as [|c rest IH]; intros val v; simpl.
  - discriminate.
  - destruct (digit_value (char_code c)) as [t|]; [|discriminate].
    destruct (t >=? base); [discriminate|].
    destruct (deref rest =? 0).
    + intro H; inversion H; subst. apply wrap_u32_range.
    + apply IH.
Qed.

Lemma decode_magnitude_range str base negative base' v :
  decode_magnitude str base = Done (negative, base', v) -> 0 <= v < 2 ^ 32.
Proof.
  unfold decode_magnitude.
  destruct (scan_sign str) as [n p]. destruct (infer_base base p) as [b q].
  destruct (convert_digits b q 0) eqn:E; try discriminate.
  intro H; injection H as _ _ <-. eauto using convert_digits_range.
Qed.

Lemma convert_num_decode str base size negative base' v :
  decode_magnitude str base = Done (negative, base', v) ->
  convert_num str base size =
    if v >? wrap_u32 (convert_max negative size)
    then Fatal (exceeds_message base')
    else store_num negative size v.
Proof.
  unfold decode_magnitude, convert_num.
  destruct (scan_sign str) as [n p]. destruct (infer_base base p) as [b q].
  destruct (convert_digits b q 0); try discriminate.
  intro H; injection H as <- <- <-. reflexivity.
Qed.

Lemma convert_max_spec negative width :
  In width [8; 16; 32] ->
  wrap_u32 (convert_max negative width) = spec_bound negative width.
Proof.
  intros [<-|[<-|[<-|[]]]]; destruct negative; reflexivity.
Qed.

Ltac list_eq :=
  repeat match goal with
         | |- _ :: _ = _ :: _ => apply f_equal2
         | |- @nil _ = @nil _ => reflexivity
         end.

Ltac pow_consts :=
  change (2 ^ 64) with 18446744073709551616 in *;
  change (2 ^ 32) with 4294967296 in *;
  change (2 ^ 24) with 16777216 in *;
  change (2 ^ 16) with 65536 in *;
  change (2 ^ 8) with 256 in *;
  change (2 ^ 0) with 1 in *.

Lemma store_num_spec negative width v :
  In width [8; 16; 32] -> 0 <= v < 2 ^ 32 ->
  store_num negative width v = Done (spec_encode width negative v).
Proof.
  intros Hw Hv.
  destruct Hw as [<-|[<-|[<-|[]]]]; destruct negative;
    unfold store_num, spec_encode; simpl Z.eqb; cbv iota;
    unfold putShort, putLong, putUShort, putULong;
    rewrite ?wrap_u32_wrap_int, ?byte_at_div by lia;
    change (Z.to_nat (8 / 8)) with 1%nat;
    change (Z.to_nat (16 / 8)) with 2%nat;
    change (Z.to_nat (32 / 8)) with 4%nat;
    unfold big_endian_bytes, wrap_u32;
    change (8 * Z.of_nat 0) with 0; change (8 * Z.of_nat 1) with 8;
    change (8 * Z.of_nat 2) with 16; change (8 * Z.of_nat 3) with 24;
    change (8 * 0) with 0; change (8 * 1) with 8;
    change (8 * 2) with 16; change (8 * 3) with 24;
    apply f_equal; list_eq; pow_consts;
    Z.div_mod_to_equations; lia.
Qed.

(** The [uint32_t] accumulator holds the number the digits denote,
    modulo 2^32; errors are the same. *)
Lemma convert_digits_exact base ptr :
  forall val val',
    val mod 2 ^ 32 = val' mod 2 ^ 32 ->
    match digits_exact base ptr val' with
    | Done n => convert_digits base ptr val = Done (n mod 2 ^ 32)
    | Fatal m => convert_digits base ptr val = Fatal m
    | _ => True
    end.
Proof.
  assert (step : forall val val' t, val mod 2 ^ 32 = val' mod 2 ^ 32 ->
            wrap_u32 (val * base + t) = (val' * base + t) mod 2 ^ 32).
  { intros val val' t H. unfold wrap_u32.
    rewrite Z.add_mod, Z.mul_mod, H, <- Z.mul_mod, <- Z.add_mod by lia.
    reflexivity. }
  induction ptr as [|c rest IH]; intros val val' H; simpl.
  - reflexivity.
  - destruct (digit_value (char_code c)) as [t|]; [|reflexivity].
    destruct (t >=? base); [reflexivity|].
    destruct (deref rest =? 0).
    + f_equal. now apply step.
    + apply IH. unfold wrap_u32. rewrite Z.mod_mod by lia. now apply step.
Qed.

(** A text whose value does not fit 32 bits: the accumulator wraps, and
    the range check sees the wrapped value. *)
Example convert_num_wraps :
  digits_exact 10 "4294967296" 0 = Done 4294967296
  /\ decode_magnitude "4294967296" 10 = Done (false, 10, 0)
  /\ convert_num "4294967296" 10 8 = Done [0].
Proof. repeat split. Qed.

Lemma digit_value_nonneg tval t : digit_value tval = Some t -> 0 <= t.
Proof.
  unfold digit_value.
  destruct (Z.geb_spec tval (char_code "a")) as [Ha|Ha].
  { intro E; injection E as <-. lia. }
  destruct (Z.geb_spec tval (char_code "A")) as [Hb|Hb].
  { intro E; injection E as <-. lia. }
  destruct (Z.geb_spec tval (char_code "0")) as [Hc|Hc]; [|discriminate].
  intro E; injection E as <-. lia.
Qed.

Lemma digits_exact_nonneg base ptr :
  forall val n, 0 <= val -> digits_exact base ptr val = Done n -> 0 <= n.
Proof.
  induction ptr as [|c rest IH]; intros val n Hval; simpl.
  - discriminate.
  - destruct (digit_value (char_code c)) as [t|] eqn:Ed; [|discriminate].
    apply digit_value_nonneg in Ed.
    destruct (Z.geb_spec t base) as [Hge|Hlt]; [discriminate|].
    destruct (deref rest =? 0).
    + intro E; injection E as <-. nia.
    + apply IH. nia.
Qed.

(** What [convert_num] reads is the exact value modulo 2^32. *)
Lemma decode_exact_magnitude str base :
  match decode_exact str base with
  | Done (negative, base', value) =>
      0 <= value /\
      decode_magnitude str base = Done (negative, base', value mod 2 ^ 32)
  | Fatal m => decode_magnitude str base = Fatal m
  | _ => True
  end.
Proof.
  unfold decode_exact, decode_magnitude.
  destruct (scan_sign str) as [n p]. destruct (infer_base base p) as [b q].
  pose proof (convert_digits_exact b q 0 0 eq_refl) as H.
  destruct (digits_exact b q 0) as [v| | |] eqn:E.
  - rewrite H. split; [|reflexivity].
    apply (digits_exact_nonneg b q 0 v); [lia|exact E].
  - now rewrite H.
  - exact I.
  - exact I.
Qed.

Lemma convert_num_fatal_digits str base width m :
  decode_magnitude str base = Fatal m -> convert_num str base width = Fatal m.
Proof.
  unfold decode_magnitude, convert_num.
  destruct (scan_sign str) as [n p]. destruct (infer_base base p) as [b q].
  destruct (convert_digits b q 0); try discriminate.
  intro H; injection H as <-. reflexivity.
Qed.





(* ------------------------------------------------------------------ *)
(** ** Aggregate parser                                                 *)
(* ------------------------------------------------------------------ *)

Lemma token_eqb_refl t : token_eqb t t = true.
Proof. destruct t; reflexivity. Qed.

Lemma token_eqb_eq a b : token_eqb a b = true <-> a = b.
Proof.
  split.
  - apply internal_dhcp_token_dec_bl.
  - intros ->. apply token_eqb_refl.
Qed.

Lemma token_eqb_neq a b : a <> b -> token_eqb a b = false.
Proof.
  intro H. destruct (token_eqb a b) eqn:E; [|reflexivity].
  apply token_eqb_eq in E. contradiction.
Qed.

Lemma valid_number_not_eof base size n :
  valid_number base size n -> token_eqb (fst n) END_OF_FILE = false.
Proof.
  intros [H _]. unfold not_numeric_token in H.
  destruct (fst n); try reflexivity.
  simpl in H. rewrite orb_true_r in H. discriminate.
Qed.

Lemma valid_number_bytes base size n :
  valid_number base size n ->
  convert_num (snd n) base size = Done (number_bytes base size n).
Proof.
  intros [_ [b Hb]]. unfold number_bytes. now rewrite Hb.
Qed.

(** One turn of the loop at a separator followed by a valid number. *)
Lemma aggregate_loop_step fuel max sep stext base size k acc c n rest :
  0 < k ->
  valid_number base size n ->
  tokens c = (sep, stext) :: n :: rest ->
  aggregate_loop (S fuel) max sep base size k acc c =
    if wrap_u32 (k + 1) =? max
    then Done ((acc ++ number_bytes base size n, wrap_u32 (k + 1)),
               with_tokens c rest)
    else aggregate_loop fuel max sep base size (wrap_u32 (k + 1))
           (acc ++ number_bytes base size n) (with_tokens c rest).
Proof.
  intros Hk Hn Ht.
  pose proof (valid_number_not_eof _ _ _ Hn) as Heof.
  pose proof (valid_number_bytes _ _ _ Hn) as Hb.
  destruct Hn as [Hnum _].
  cbn [aggregate_loop].
  destruct (Z.eqb_spec k 0); [lia|].
  unfold bind at 1. unfold peek_token. rewrite Ht. cbn [fst].
  rewrite token_eqb_refl. cbn [negb].
  unfold bind, skip_token, next_token. rewrite Ht. cbn [tokens fst snd].
  rewrite Heof, Hnum. cbn [error_if ret]. unfold lift. rewrite Hb.
  unfold with_tokens.
  destruct (wrap_u32 (k + 1) =? max); reflexivity.
Qed.

Lemma with_tokens_twice c a b : with_tokens (with_tokens c a) b = with_tokens c b.
Proof. reflexivity. Qed.

Lemma tokens_with_tokens c a : tokens (with_tokens c a) = a.
Proof. reflexivity. Qed.

Lemma wrap_u32_small z : 0 <= z < 2 ^ 32 -> wrap_u32 z = z.
Proof. intro H. unfold wrap_u32. now apply Z.mod_small. Qed.

(** The loop runs through a run of separated valid numbers as long as
    the count does not reach [max]. *)
Lemma aggregate_loop_run max sep stext base size ns :
  Forall (valid_number base size) ns ->
  forall fuel k acc c rest,
    0 < k ->
    k + Z.of_nat (List.length ns) < 2 ^ 32 ->
    (max = 0 \/ k + Z.of_nat (List.length ns) < max) ->
    tokens c = separated (sep, stext) ns ++ rest ->
    aggregate_loop (List.length ns + fuel) max sep base size k acc c =
    aggregate_loop fuel max sep base size (k + Z.of_nat (List.length ns))
      (acc ++ encode_numbers base size ns) (with_tokens c rest).
Proof.
  induction 1 as [|n ns Hn Hns IH]; intros fuel k acc c rest Hk Hlt Hmax Ht.
  - simpl in *. rewrite Z.add_0_r, app_nil_r. subst rest.
    destruct c; reflexivity.
  - cbn [List.length separated flat_map app] in *.
    rewrite Nat2Z.inj_succ in *.
    cbn [Nat.add].
    rewrite (aggregate_loop_step _ _ _ stext _ _ _ _ _ n
               (separated (sep, stext) ns ++ rest) Hk Hn)
      by (rewrite Ht; reflexivity).
    rewrite wrap_u32_small by lia.
    destruct (Z.eqb_spec (k + 1) max) as [E|E]; [lia|].
    rewrite (IH fuel (k + 1) _ _ rest) by (try lia; reflexivity).
    rewrite with_tokens_twice.
    unfold encode_numbers. cbn [flat_map]. rewrite app_assoc.
    f_equal. lia.
Qed.

Lemma aggregate_loop_first fuel max sep base size c n rest :
  valid_number base size n ->
  tokens c = n :: rest ->
  aggregate_loop (S fuel) max sep base size 0 [] c =
    if 1 =? max
    then Done ((number_bytes base size n, 1), with_tokens c rest)
    else aggregate_loop fuel max sep base size 1
           (number_bytes base size n) (with_tokens c rest).
Proof.
  intros Hn Ht.
  pose proof (valid_number_not_eof _ _ _ Hn) as Heof.
  pose proof (valid_number_bytes _ _ _ Hn) as Hb.
  destruct Hn as [Hnum _].
  cbn [aggregate_loop]. change (0 =? 0) with true. cbv iota.
  unfold bind, next_token. rewrite Ht. cbn [tokens fst snd].
  rewrite Heof, Hnum. cbn [error_if ret]. unfold lift. rewrite Hb.
  change (wrap_u32 (0 + 1)) with 1. cbn [app].
  unfold with_tokens. destruct (1 =? max); reflexivity.
Qed.

Lemma aggregate_loop_stop fuel sep base size k acc c :
  0 < k -> first_token (tokens c) <> sep ->
  aggregate_loop (S fuel) 0 sep base size k acc c = Done ((acc, k), c).
Proof.
  intros Hk Hs. cbn [aggregate_loop].
  destruct (Z.eqb_spec k 0); [lia|].
  unfold bind, peek_token.
  destruct (tokens c) as [|t rest]; cbn [fst first_token] in *;
    rewrite (token_eqb_neq _ _ Hs); reflexivity.
Qed.

Lemma aggregate_loop_too_few fuel max sep base size k acc c :
  0 < k -> max <> 0 -> first_token (tokens c) <> sep ->
  aggregate_loop (S fuel) max sep base size k acc c = Fatal "too few numbers.".
Proof.
  intros Hk Hm Hs. cbn [aggregate_loop].
  destruct (Z.eqb_spec k 0); [lia|].
  destruct (Z.eqb_spec max 0); [contradiction|].
  unfold bind, peek_token.
  destruct (tokens c) as [|t rest] eqn:Ht; cbn [fst first_token] in *;
    rewrite (token_eqb_neq _ _ Hs); cbn [negb].
  - cbn [token_eqb dhcp_token_beq negb andb].
    unfold next_token, ret, parse_error. rewrite Ht. reflexivity.
  - destruct (negb (token_eqb (fst t) RBRACE) && negb (token_eqb (fst t) LBRACE));
      unfold next_token, ret, parse_error; rewrite ?Ht; reflexivity.
Qed.

Lemma aggregate_loop_eof fuel max sep stext base size k acc c :
  0 < k -> tokens c = [(sep, stext)] ->
  aggregate_loop (S fuel) max sep base size k acc c =
    Fatal "unexpected end of file".
Proof.
  intros Hk Ht. cbn [aggregate_loop].
  destruct (Z.eqb_spec k 0); [lia|].
  unfold bind at 1. unfold peek_token. rewrite Ht. cbn [fst].
  rewrite token_eqb_refl. cbn [negb].
  unfold bind, skip_token, next_token. rewrite Ht. reflexivity.
Qed.

Lemma separated_length sep ns :
  List.length (separated sep ns) = (2 * List.length ns)%nat.
Proof. induction ns; simpl; lia. Qed.

Lemma separated_app sep a b :
  separated sep (a ++ b) = separated sep a ++ separated sep b.
Proof. unfold separated. apply flat_map_app. Qed.

Lemma encode_numbers_app base size a b :
  encode_numbers base size (a ++ b) =
  encode_numbers base size a ++ encode_numbers base size b.
Proof. unfold encode_numbers. apply flat_map_app. Qed.

Lemma convert_num_length str base size bytes :
  In size [8; 16; 32] ->
  convert_num str base size = Done bytes ->
  List.length bytes = Z.to_nat (size / 8).
Proof.
  intros Hs. unfold convert_num.
  destruct (scan_sign str) as [neg p]. destruct (infer_base base p) as [b q].
  destruct (convert_digits b q 0); try discriminate.
  destruct (a >? wrap_u32 (convert_max neg size)); try discriminate.
  destruct Hs as [<-|[<-|[<-|[]]]]; destruct neg; simpl;
    intro H; inversion H; reflexivity.
Qed.

Lemma encode_numbers_length base size ns :
  In size [8; 16; 32] ->
  Forall (valid_number base size) ns ->
  List.length (encode_numbers base size ns) =
    (List.length ns * Z.to_nat (size / 8))%nat.
Proof.
  intros Hs. induction 1 as [|n ns Hn _ IH]; [reflexivity|].
  unfold encode_numbers in *. cbn [flat_map List.length].
  rewrite length_app, IH.
  rewrite (convert_num_length _ _ _ _ Hs (valid_number_bytes _ _ _ Hn)).
  lia.
Qed.

Section AggregateRuns.
Variables (max : Z) (sep : dhcp_token) (stext : string) (base size : Z).
Variables (n : dhcp_token * string) (ns : list (dhcp_token * string)).
Hypothesis Hmax : 0 <= max < 2 ^ 32.
Hypothesis Hvalid : Forall (valid_number base size) (n :: ns).
Hypothesis Hcount : Z.of_nat (List.length (n :: ns)) < 2 ^ 32.

Local Notation Hn := (Forall_inv Hvalid).
Local Notation Hns := (Forall_inv_tail Hvalid).

(** After the first number and the run [ns]: the loop is at the tokens
    that follow, with every number counted and stored. *)
Lemma aggregate_through c rest :
  tokens c = n :: separated (sep, stext) ns ++ rest ->
  (max = 0 \/ Z.of_nat (List.length (n :: ns)) < max) ->
  parse_numeric_aggregate max sep base size c =
  aggregate_loop (S (List.length ns + List.length rest)) max sep base size
    (Z.of_nat (List.length (n :: ns))) (encode_numbers base size (n :: ns))
    (with_tokens c rest).
Proof.
  intros Ht Hm. cbn [List.length] in *. rewrite Nat2Z.inj_succ in *.
  unfold parse_numeric_aggregate, bind, remaining.
  rewrite (aggregate_loop_first _ _ _ _ _ _ n
             (separated (sep, stext) ns ++ rest) Hn Ht).
  destruct (Z.eqb_spec 1 max) as [E|E]; [lia|].
  rewrite Ht. cbn [List.length]. rewrite length_app, separated_length.
  replace (S (2 * List.length ns + List.length rest))%nat
    with (List.length ns + S (List.length ns + List.length rest))%nat by lia.
  rewrite (aggregate_loop_run max sep stext base size ns Hns _ 1 _ _ rest)
    by (try lia; reflexivity).
  rewrite with_tokens_twice.
  f_equal. lia.
Qed.

Lemma aggregate_unbounded c rest :
  max = 0 ->
  tokens c = n :: separated (sep, stext) ns ++ rest ->
  first_token rest <> sep ->
  parse_numeric_aggregate max sep base size c =
  Done ((encode_numbers base size (n :: ns),
         Z.of_nat (List.length (n :: ns))), with_tokens c rest).
Proof.
  intros Hm Ht Hs. rewrite (aggregate_through c rest Ht) by auto.
  subst max. apply aggregate_loop_stop; [cbn [List.length]; lia|exact Hs].
Qed.

Lemma aggregate_too_few c rest :
  Z.of_nat (List.length (n :: ns)) < max ->
  tokens c = n :: separated (sep, stext) ns ++ rest ->
  first_token rest <> sep ->
  parse_numeric_aggregate max sep base size c = Fatal "too few numbers.".
Proof.
  intros Hm Ht Hs. rewrite (aggregate_through c rest Ht) by auto.
  apply aggregate_loop_too_few; [cbn [List.length]; lia| |exact Hs].
  cbn [List.length] in Hm. lia.
Qed.

Lemma aggregate_premature_end c :
  (max = 0 \/ Z.of_nat (List.length (n :: ns)) < max) ->
  tokens c = n :: separated (sep, stext) ns ++ [(sep, stext)] ->
  parse_numeric_aggregate max sep base size c =
    Fatal "unexpected end of file".
Proof.
  intros Hm Ht. rewrite (aggregate_through c _ Ht) by auto.
  apply (aggregate_loop_eof _ _ _ stext); [cbn [List.length]; lia|reflexivity].
Qed.
End AggregateRuns.

Lemma aggregate_exact max sep stext base size n ns c rest :
  0 <= max < 2 ^ 32 ->
  Forall (valid_number base size) (n :: ns) ->
  Z.of_nat (List.length (n :: ns)) = max ->
  tokens c = n :: separated (sep, stext) ns ++ rest ->
  parse_numeric_aggregate max sep base size c =
    Done ((encode_numbers base size (n :: ns), max), with_tokens c rest).
Proof.
  intros Hmax Hvalid Hlen Ht.
  destruct (exists_last (l := n :: ns)) as [init [l E]]; [discriminate|].
  destruct init as [|n' init].
  - (* one number *)
    injection E as <- ->. simpl in Ht, Hlen. subst max.
    unfold parse_numeric_aggregate, bind, remaining.
    rewrite (aggregate_loop_first _ _ _ _ _ _ n rest) by (auto; now inversion Hvalid).
    unfold encode_numbers. simpl. rewrite app_nil_r. reflexivity.
  - injection E as <- ->.
    assert (Hv : Forall (valid_number base size) (n :: init) /\
                 valid_number base size l).
    { change (n :: init ++ [l]) with ((n :: init) ++ [l]) in Hvalid.
      apply Forall_app in Hvalid. destruct Hvalid as [H1 H2].
      split; [exact H1|now inversion H2]. }
    destruct Hv as [Hv Hl].
    rewrite separated_app in Ht. simpl separated in Ht at 2.
    rewrite <- app_assoc in Ht. cbn [app] in Ht.
    cbn [List.length] in Hlen. rewrite length_app in Hlen. cbn [List.length] in Hlen.
    rewrite (aggregate_through max sep stext base size n init Hmax Hv)
      with (rest := (sep, stext) :: l :: rest)
      by (try exact Ht; try right; cbn [List.length]; lia).
    rewrite (aggregate_loop_step _ _ _ stext _ _ _ _ _ l rest)
      by (auto; cbn [List.length]; lia).
    rewrite wrap_u32_small by (cbn [List.length]; lia).
    destruct (Z.eqb_spec (Z.of_nat (List.length (n :: init)) + 1) max) as [Eq|Ne];
      [|cbn [List.length] in Ne; lia].
    rewrite with_tokens_twice.
    change (n :: init ++ [l]) with ((n :: init) ++ [l]).
    rewrite encode_numbers_app. unfold encode_numbers at 3. cbn [flat_map].
    rewrite app_nil_r. rewrite Eq. reflexivity.
Qed.

Lemma aggregate_empty_input max sep base size c :
  tokens c = [] ->
  parse_numeric_aggregate max sep base size c = Fatal "unexpected end of file".
Proof.
  intro Ht. unfold parse_numeric_aggregate, bind, remaining. rewrite Ht.
  cbn [List.length aggregate_loop]. change (0 =? 0) with true. cbv iota.
  unfold bind, next_token. rewrite Ht. reflexivity.
Qed.

Lemma convert_num_settled str base size : settled (convert_num str base size).
Proof.
  unfold convert_num. destruct (scan_sign str) as [neg p].
  destruct (infer_base base p) as [b q].
  assert (forall q v, settled (convert_digits b q v)) as Hd.
  { induction q0 as [|ch q0 IHq]; intro v; simpl.
    - exact I.
    - destruct (digit_value (char_code ch)); [|exact I].
      destruct (z >=? b); [exact I|].
      destruct (deref q0 =? 0); [exact I|apply IHq]. }
  specialize (Hd q 0).
  destruct (convert_digits b q 0); try contradiction; [|exact I].
  destruct (a >? wrap_u32 (convert_max neg size)); [exact I|].
  unfold store_num.
  destruct neg, (size =? 8), (size =? 16), (size =? 32); exact I.
Qed.

(** The embedding never runs out of its budget: the call returns or ends
    in a fatal error. *)
Lemma aggregate_loop_total max sep base size :
  forall fuel k acc c,
    (List.length (tokens c) < fuel)%nat ->
    settled (aggregate_loop fuel max sep base size k acc c).
Proof.
  induction fuel as [|fuel IH]; intros k acc c Hf; [lia|].
  assert (number : forall c', (List.length (tokens c') <= fuel)%nat ->
    settled ((t <- next_token ;;
     error_if (token_eqb (fst t) END_OF_FILE) "unexpected end of file" ;;;
     error_if (not_numeric_token (fst t) base) "expecting numeric value." ;;;
     bytes <- lift (convert_num (snd t) base size) ;;
     (let count' := wrap_u32 (k + 1) in
      if count' =? max then ret (acc ++ bytes, count')
      else aggregate_loop fuel max sep base size count' (acc ++ bytes))) c')).
  { intros c' Hc'. unfold bind, next_token.
    destruct (tokens c') as [|t rest] eqn:Ht; [exact I|].
    cbn [fst snd].
    destruct (token_eqb (fst t) END_OF_FILE); [exact I|].
    cbn [error_if ret].
    destruct (not_numeric_token (fst t) base); [exact I|].
    cbn [error_if ret]. unfold lift.
    pose proof (convert_num_settled (snd t) base size) as Hcn.
    destruct (convert_num (snd t) base size); try contradiction; [|exact I].
    destruct (wrap_u32 (k + 1) =? max); [exact I|].
    apply IH. simpl in *. lia. }
  cbn [aggregate_loop].
  destruct (k =? 0); [apply number; lia|].
  unfold bind at 1. unfold peek_token.
  destruct (tokens c) as [|t rest] eqn:Ht; cbn [fst].
  - destruct (token_eqb END_OF_FILE sep) eqn:Es; cbn [negb].
    + unfold bind at 1. unfold skip_token, next_token. rewrite Ht.
      apply number. rewrite Ht. simpl. lia.
    + destruct (max =? 0); [exact I|].
      unfold bind, next_token, ret, parse_error. rewrite ?Ht. simpl.
      rewrite ?Ht. exact I.
  - destruct (token_eqb (fst t) sep) eqn:Es; cbn [negb].
    + unfold bind at 1. unfold skip_token, next_token. rewrite Ht.
      apply number. simpl in *. lia.
    + destruct (max =? 0); [exact I|].
      destruct (negb (token_eqb (fst t) RBRACE) && negb (token_eqb (fst t) LBRACE));
        unfold bind, next_token, ret, parse_error; rewrite ?Ht; exact I.
Qed.

(** C5. The aggregate parser on a run of valid numbers [n :: ns] with
    the separator between them, followed by [rest]:
    - with a nonzero [max] and exactly [max] numbers it stores all of
      them and leaves [rest] unread;
    - with a nonzero [max], fewer numbers and no separator at the head
      of [rest] it ends in the "too few numbers." error;
    - with [max] zero it stops where the separator is absent and returns
      the bytes of all the numbers;
    - in both successful cases the count of numbers read is what is left
      in [*max];
    - an input that ends where a number is expected (no token at all, or
      nothing after a separator) ends in the "unexpected end of file"
      error;
    - at widths 8, 16 and 32 the result holds [size / 8] bytes for each
      number; the call always returns or fails ([settled]: the budget
      of the embedding is never the reason to stop);
    - "192.168.1.10" with max 4, base 10, separator DOT and width 8
      gives the bytes 192,168,1,10; "aa:bb:cc" with max 0, base 16 and
      separator COLON gives 0xAA,0xBB,0xCC and the count 3. *)
Theorem parse_numeric_aggregate_counts :
  (forall max sep stext base size n ns c rest,
     0 <= max < 2 ^ 32 ->
     Forall (valid_number base size) (n :: ns) ->
     Z.of_nat (List.length (n :: ns)) < 2 ^ 32 ->
     tokens c = n :: separated (sep, stext) ns ++ rest ->
     (max <> 0 -> Z.of_nat (List.length (n :: ns)) = max ->
        parse_numeric_aggregate max sep base size c =
          Done ((encode_numbers base size (n :: ns), max), with_tokens c rest))
     /\
     (max <> 0 -> Z.of_nat (List.length (n :: ns)) < max ->
      first_token rest <> sep ->
        parse_numeric_aggregate max sep base size c = Fatal "too few numbers.")
     /\
     (max = 0 -> first_token rest <> sep ->
        parse_numeric_aggregate max sep base size c =
          Done ((encode_numbers base size (n :: ns),
                 Z.of_nat (List.length (n :: ns))), with_tokens c rest))
     /\
     (max = 0 \/ Z.of_nat (List.length (n :: ns)) < max ->
      rest = [(sep, stext)] ->
        parse_numeric_aggregate max sep base size c =
          Fatal "unexpected end of file"))
  /\ (forall max sep base size c,
        tokens c = [] ->
        parse_numeric_aggregate max sep base size c =
          Fatal "unexpected end of file")
  /\ (forall base size ns,
        In size [8; 16; 32] ->
        Forall (valid_number base size) ns ->
        List.length (encode_numbers base size ns) =
          (List.length ns * Z.to_nat (size / 8))%nat)
  /\ (forall max sep base size c,
        settled (parse_numeric_aggregate max sep base size c))
  /\ parse_numeric_aggregate 4 DOT 10 8
       (lexed [(NUMBER, "192"); (DOT, "."); (NUMBER, "168"); (DOT, ".");
               (NUMBER, "1"); (DOT, "."); (NUMBER, "10")])
     = Done (([192; 168; 1; 10], 4), lexed [])
  /\ parse_numeric_aggregate 0 COLON 16 8
       (lexed [(NUMBER_OR_NAME, "aa"); (COLON, ":"); (NUMBER_OR_NAME, "bb");
               (COLON, ":"); (NUMBER_OR_NAME, "cc")])
     = Done (([170; 187; 204], 3), lexed []).
Proof.
  split; [|split; [|split; [|split; [|split]]]].
  - intros max sep stext base size n ns c rest Hmax Hv Hc Ht.
    split; [|split; [|split]].
    + intros _ Hlen. now apply (aggregate_exact max sep stext).
    + intros _ Hlt Hs. now apply (aggregate_too_few max sep stext base size n ns) with (rest := rest).
    + intros Hz Hs. now apply (aggregate_unbounded max sep stext).
    + intros Hm ->. now apply (aggregate_premature_end max sep stext base size n ns).
  - intros. now apply aggregate_empty_input.
  - intros. now apply encode_numbers_length.
  - intros max sep base size c. unfold parse_numeric_aggregate, bind, remaining.
    apply aggregate_loop_total. lia.
  - reflexivity.
  - reflexivity.
Qed.

Lemma parse_numeric_aggregate_counts_witness :
  parse_numeric_aggregate 4 DOT 10 8
    (lexed [(NUMBER, "10"); (DOT, "."); (NUMBER, "0"); (SEMI, ";")])
  = Fatal "too few numbers.".
Proof.
  refine (proj1 (proj2 (proj1 parse_numeric_aggregate_counts
            4 DOT "." 10 8 (NUMBER, "10") [(NUMBER, "0")]
            (lexed [(NUMBER, "10"); (DOT, "."); (NUMBER, "0"); (SEMI, ";")])
            [(SEMI, ";")] _ _ _ _)) _ _ _).
  - lia.
  - repeat constructor; eexists; reflexivity.
  - simpl. lia.
  - reflexivity.
  - lia.
  - simpl. lia.
  - simpl. discriminate.
Defined.

(* ------------------------------------------------------------------ *)
(** ** Expression context classifier                                    *)
(* ------------------------------------------------------------------ *)

Lemma existsb_false_not_in k keys :
  ~ In k keys -> existsb (String.eqb k) keys = false.
Proof.
  intro H. apply Bool.not_true_is_false. intro E.
  apply existsb_exists in E. destruct E as [x [Hx Hk]].
  apply String.eqb_eq in Hk. subst x. contradiction.
Qed.

Lemma mapContains_single k x sk cm k' :
  mapContains (Element (VMap [(k, x)]) sk cm) k' = String.eqb k k'.
Proof. unfold mapContains. simpl. apply orb_false_r. Qed.

Lemma existsb_single k x sk cm keys :
  existsb (mapContains (Element (VMap [(k, x)]) sk cm)) keys =
  existsb (String.eqb k) keys.
Proof.
  induction keys as [|k' keys IH]; [reflexivity|].
  simpl. rewrite IH. f_equal. apply orb_false_r.
Qed.

(** The context of a map with a single key is read off the three key
    tables, the data table first. *)
Lemma expression_context_single k x sk cm :
  expression_context (Element (VMap [(k, x)]) sk cm) =
    if existsb (String.eqb k) data_keys then context_data
    else if existsb (String.eqb k) numeric_keys then context_numeric
    else if existsb (String.eqb k) boolean_keys then context_boolean
    else context_any.
Proof.
  unfold expression_context, is_data_expression, is_numeric_expression,
    is_boolean_expression.
  rewrite !existsb_single. reflexivity.
Qed.

Lemma check_operands_any binop lhs rhs :
  expression_context lhs = context_any \/ expression_context rhs = context_any ->
  check_operands binop lhs rhs <> Some "illegal expression relating different types".
Proof.
  intros H. unfold check_operands.
  destruct (is_expr_none binop); [discriminate|].
  assert (negb (context_eqb (expression_context rhs) context_any)
          && negb (context_eqb (expression_context lhs) context_any)
          && negb (context_eqb (expression_context rhs) (expression_context lhs))
          = false) as ->.
  { destruct H as [-> | ->]; simpl.
    - now rewrite andb_false_r.
    - reflexivity. }
  destruct binop;
    repeat match goal with
           | |- context [if ?b then _ else _] => destruct b
           end; discriminate.
Qed.

(** C2, at the input where it fails: an Integer element is classified
    Data, not Numeric ([is_data_expression] tests the integer type, and
    [expression_context] asks it first). *)
Lemma integer_context_not_numeric :
  expression_context (createInt 5) <> context_numeric.
Proof. discriminate. Qed.

(** C2, amended. The classifier depends on the shape of the element
    only (not on its flag or comments); every Integer element and every
    String element is Data; a map whose only key is "and" is Boolean,
    one whose only key is "concat" is Data, one whose only key is in
    none of the three tables is Any; and when either operand of a binary
    operator classifies Any, the check that relates the two operand
    contexts never reports "illegal expression relating different
    types". *)
Theorem expression_context_shape :
  (forall e sk cm,
     expression_context (Element (content e) sk cm) = expression_context e)
  /\ (forall n sk cm, expression_context (Element (VInt n) sk cm) = context_data)
  /\ (forall s sk cm, expression_context (Element (VString s) sk cm) = context_data)
  /\ (forall x sk cm,
        expression_context (Element (VMap [("and", x)]) sk cm) = context_boolean)
  /\ (forall x sk cm,
        expression_context (Element (VMap [("concat", x)]) sk cm) = context_data)
  /\ (forall k x sk cm,
        ~ In k (data_keys ++ numeric_keys ++ boolean_keys) ->
        expression_context (Element (VMap [(k, x)]) sk cm) = context_any)
  /\ (forall binop lhs rhs,
        expression_context lhs = context_any \/
        expression_context rhs = context_any ->
        check_operands binop lhs rhs <>
          Some "illegal expression relating different types").
Proof.
  repeat split; try reflexivity.
  - intros k x sk cm Hk. rewrite expression_context_single.
    rewrite !in_app_iff in Hk.
    rewrite !existsb_false_not_in by tauto. reflexivity.
  - intros. now apply check_operands_any.
Qed.

Lemma expression_context_shape_witness :
  expression_context (Element (VMap [("funcall", createNull)]) true []) = context_any.
Proof.
  apply (proj1 (proj2 (proj2 (proj2 (proj2 (proj2 expression_context_shape)))))).
  simpl. intuition discriminate.
Defined.

(** C3, at the input where it fails: a map keyed "equal" is not
    classified Data. *)
Lemma equal_node_not_data :
  expression_context (Element (VMap [("equal", createNull)]) false []) <> context_data.
Proof. discriminate. Qed.

(** C3, amended. The classifier is a total function with four possible
    results, so classifying a node again cannot fail; a map whose only
    key is "equal" is Boolean, and so is the node that
    [parse_expression] builds for the equal operator, whatever the
    operands. *)
Theorem equal_node_context :
  (forall e, In (expression_context e)
               [context_data; context_numeric; context_boolean; context_any])
  /\ (forall x sk cm,
        expression_context (Element (VMap [("equal", x)]) sk cm) = context_boolean)
  /\ (forall lhs rhs,
        expression_context (combine expr_equal lhs rhs) = context_boolean).
Proof.
  repeat split; try reflexivity.
  intro e. unfold expression_context.
  destruct (is_data_expression e); [simpl; auto|].
  destruct (is_numeric_expression e); [simpl; auto|].
  destruct (is_boolean_expression e); simpl; auto.
Qed.

(* ------------------------------------------------------------------ *)
(** ** Precedence                                                       *)
(* ------------------------------------------------------------------ *)

Lemma combine_operator_node op lhs rhs :
  combine op lhs rhs = operator_node op lhs rhs.
Proof. reflexivity. Qed.

(** Whatever the budget, the parse of 1 + 2 * 3 in numeric context does
    not return: with four levels or more it ends in the fatal error. *)
Lemma one_plus_two_times_three_never_returns fuel :
  match parse_expression fuel createMap context_numeric None expr_none
          (lexed one_plus_two_times_three) with
  | Done _ => False
  | _ => True
  end.
Proof.
  do 4 (destruct fuel as [|fuel]; [exact I|]).
  exact I.
Qed.

(** C1, at the input of the claim: the numeric-context parse of
    1 + 2 * 3 is a fatal error, not the tree add(1, multiply(2,3)).
    After the integer 1 the context of the next operand is the context
    of 1, which is Data; there the token 2 is read as a hexadecimal
    string, and a string is not accepted as operand of "+". *)
Lemma one_plus_two_times_three_rejected :
  parse_expression 16 createMap context_numeric None expr_none
    (lexed one_plus_two_times_three)
  = Fatal "expecting numeric expressions"
  /\ parse_expression 16 createMap context_numeric None expr_none
       (lexed one_plus_two_times_three)
     <> Done (Some (operator_node expr_add (createInt 1)
                      (operator_node expr_multiply (createInt 2) (createInt 3))),
              lexed []).
Proof. split; [reflexivity|discriminate]. Qed.

(** C1, amended. The numeric-context parse of 1 + 2 * 3 ends in the
    fatal error "expecting numeric expressions".  For operands whose
    node is classified Numeric (lease-time, client-state), any additive
    operator [add] and any multiplicative operator [mul]: the tokens
    "a add b mul c" parse to mul(add(a,b),c) and the tokens
    "a mul b add c" parse to mul(a,add(b,c)); [op_precedence] ranks the
    additive operators above the multiplicative ones, so the additive
    operators bind tighter. *)
Theorem additive_binds_tighter :
  (parse_expression 16 createMap context_numeric None expr_none
     (lexed one_plus_two_times_three)
   = Fatal "expecting numeric expressions")
  /\
  forall a b c add mul,
    In a numeric_leaves -> In b numeric_leaves -> In c numeric_leaves ->
    In add additive_operators -> In mul multiplicative_operators ->
    parse_expression 16 createMap context_numeric None expr_none
      (lexed [a; fst add; b; fst mul; c])
    = Done (Some (operator_node (snd mul)
                    (operator_node (snd add) (leaf_node a) (leaf_node b))
                    (leaf_node c)),
            Parse [] [] 3 [] false)
    /\ parse_expression 16 createMap context_numeric None expr_none
         (lexed [a; fst mul; b; fst add; c])
       = Done (Some (operator_node (snd mul) (leaf_node a)
                       (operator_node (snd add) (leaf_node b) (leaf_node c))),
               Parse [] [] 3 [] false)
    /\ 0 < op_precedence (snd add) (snd mul).
Proof.
  split; [reflexivity|].
  intros a b c add mul Ha Hb Hc Hadd Hmul.
  simpl in Ha, Hb, Hc, Hadd, Hmul.
  repeat match goal with
         | H : _ \/ _ |- _ => destruct H as [H|H]
         | H : False |- _ => contradiction
         end; subst; (split; [vm_compute; reflexivity|split; [vm_compute; reflexivity|reflexivity]]).
Qed.

Lemma additive_binds_tighter_witness :
  parse_expression 16 createMap context_numeric None expr_none
    (lexed [(LEASE_TIME, "lease-time"); (PLUS, "+"); (LEASE_TIME, "lease-time");
            (ASTERISK, "*"); (LEASE_TIME, "lease-time")])
  = Done (Some (operator_node expr_multiply
                  (operator_node expr_add
                     (leaf_node (LEASE_TIME, "lease-time"))
                     (leaf_node (LEASE_TIME, "lease-time")))
                  (leaf_node (LEASE_TIME, "lease-time"))),
          Parse [] [] 3 [] false).
Proof.
  apply (proj2 additive_binds_tighter (LEASE_TIME, "lease-time")
           (LEASE_TIME, "lease-time") (LEASE_TIME, "lease-time")
           (PLUS, "+", expr_add) (ASTERISK, "*", expr_multiply));
    simpl; auto.
Defined.

(* ------------------------------------------------------------------ *)
(** ** Binary nodes                                                     *)
(* ------------------------------------------------------------------ *)

Ltac inv_bind H :=
  match type of H with
  | bind ?m ?k ?c = Done _ =>
      let E := fresh "E" in
      unfold bind at 1 in H;
      destruct (m c) as [[? ?]| | |] eqn:E; [|discriminate H..]
  end.

Ltac inv_bind_as H a c E :=
  match type of H with
  | bind ?m ?k ?c0 = Done _ =>
      unfold bind at 1 in H;
      destruct (m c0) as [[a c]| | |] eqn:E; [|discriminate H..]
  end.

Lemma spine_trans a b c : spine a b -> spine b c -> spine a c.
Proof.
  intros Hab Hbc. induction Hbc.
  - exact Hab.
  - now apply spine_node.
Qed.

Lemma peek_operator_binary c op c' :
  peek_operator c = Done (op, c') ->
  is_expr_none op = false -> is_binary_operator op = true.
Proof.
  unfold peek_operator. intro H. inv_bind H.
  destruct (fst p); simpl in H;
    try (injection H as <- _; intro Hn; first [reflexivity|discriminate Hn]).
  - (* BANG *)
    inv_bind H. inv_bind H.
    match type of H with
    | context [negb ?b] => destruct b
    end; cbv [negb bind error_if parse_error ret] in H; [|discriminate H].
    injection H as <- _. reflexivity.
  - (* TILDE *)
    inv_bind H. inv_bind H.
    repeat match type of H with
           | context [if ?b then _ else _] => destruct b
           end;
      first [discriminate H | injection H as <- _; reflexivity].
Qed.

Lemma binary_operator_not_none op :
  is_binary_operator op = true -> is_expr_none op = false.
Proof. destruct op; simpl; intro; first [reflexivity|discriminate]. Qed.

(** With a left operand pending, what [parse_expression] returns is a
    node of a binary operator: the given [expr] with a flagged map of
    "left" and "right" stored under the operator name; the left child is
    the pending operand or a node built above it in the same way. *)
Lemma parse_expression_pending fuel :
  forall expr context lhs binop c e c',
    is_binary_operator binop = true ->
    parse_expression fuel expr context (Some lhs) binop c = Done (Some e, c') ->
    exists op l r,
      is_binary_operator op = true /\
      spine lhs l /\
      e = mapSet expr (binary_node l r) (binop_name op).
Proof.
  induction fuel as [|f IH]; intros expr context lhs binop c e c' Hb H;
    [discriminate|].
  cbn [parse_expression] in H.
  inv_bind H. destruct o as [rhs|].
  2:{ inv_bind H. inv_bind H. discriminate. }
  inv_bind H. rename e0 into next_op.
  pose proof (peek_operator_binary _ _ _ E0) as Hnext.
  assert (finish : forall rhs' nop c0,
    (is_expr_none nop = false -> is_binary_operator nop = true) ->
    match check_operands binop lhs rhs' with
    | Some msg => parse_error msg
    | None =>
        if is_expr_none nop
        then ret (Some (mapSet expr
                          (mapSet (mapSet (set_skip createMap) lhs "left")
                             rhs' "right") (binop_name binop)))
        else skip_token ;;;
             parse_expression f expr
               (if is_expr_none next_op then context else expression_context rhs)
               (Some (combine binop lhs rhs')) nop
    end c0 = Done (Some e, c') ->
    exists op l r,
      is_binary_operator op = true /\ spine lhs l /\
      e = mapSet expr (binary_node l r) (binop_name op)).
  { intros rhs' nop c0 Hnop Hf.
    destruct (check_operands binop lhs rhs'); [discriminate|].
    destruct (is_expr_none nop) eqn:En.
    - injection Hf as <- _. exists binop, lhs, rhs'.
      repeat split; [assumption|constructor].
    - inv_bind Hf.
      apply IH in Hf; [|now apply Hnop].
      destruct Hf as (op & l & r & Hop & Hsp & ->).
      exists op, l, r. repeat split; [assumption|].
      eapply spine_trans; [|exact Hsp].
      rewrite combine_operator_node. apply spine_node; [assumption|constructor]. }
  destruct (negb (is_expr_none binop) && negb (is_expr_none next_op)
            && (op_precedence binop next_op <? 0)).
  - inv_bind H. inv_bind H. destruct o as [rhs'|].
    2:{ inv_bind H. inv_bind H. discriminate. }
    apply finish in H; [exact H|discriminate].
  - apply finish in H; [exact H|exact Hnext].
Qed.

Lemma parse_expression_first fuel :
  forall expr context c e c',
    parse_expression fuel expr context None expr_none c = Done (Some e, c') ->
    exists p c1,
      parse_non_binary (Nat.pred fuel) createMap context c = Done (Some p, c1) /\
      (e = resetBy expr p \/
       exists op l r,
         is_binary_operator op = true /\ spine p l /\
         e = mapSet expr (binary_node l r) (binop_name op)).
Proof.
  destruct fuel as [|f]; intros expr context c e c' H; [discriminate|].
  cbn [parse_expression] in H. cbn [Nat.pred].
  inv_bind H. destruct o as [rhs|]; [|discriminate].
  exists rhs, p. split; [reflexivity|].
  inv_bind H. rename e0 into next_op.
  destruct (is_expr_none next_op) eqn:En.
  - injection H as <- _. now left.
  - inv_bind H. right.
    eapply parse_expression_pending; [|exact H].
    eapply peek_operator_binary; eassumption.
Qed.



(* ------------------------------------------------------------------ *)
(** ** Scope walk of config_valid_lifetime                              *)
(* ------------------------------------------------------------------ *)

Lemma nth_error_middle (lower : list frame) target upper :
  nth_error (lower ++ target :: upper) (List.length lower) = Some target.
Proof. induction lower; simpl; auto. Qed.

Lemma update_frame_middle (lower : list frame) target upper f :
  update_frame (lower ++ target :: upper) (List.length lower) f =
  lower ++ f target :: upper.
Proof. induction lower; simpl; [reflexivity|now rewrite IHlower]. Qed.

(** The walk goes down through the frames it passes, remembering
    whether one of them was a pool; [above] are the frames over the
    index where the walk starts. *)
Lemma lifetime_walk_passes lower target upper :
  Forall (fun fr => passed fr = true) upper ->
  forall above pop,
    lifetime_walk (lower ++ target :: upper ++ above)
      (List.length lower + List.length upper) pop =
    lifetime_walk (lower ++ target :: upper ++ above)
      (List.length lower) (pop || existsb is_pool upper).
Proof.
  induction upper as [|fr upper IH] using rev_ind; intros Hp above pop.
  - simpl. now rewrite Nat.add_0_r, orb_false_r.
  - apply Forall_app in Hp. destruct Hp as [Hu Hfr].
    inversion Hfr as [|? ? Hk _]; subst.
    rewrite length_app. cbn [List.length].
    replace (List.length lower + (List.length upper + 1))%nat
      with (S (List.length lower + List.length upper)) by lia.
    rewrite <- app_assoc. cbn [app].
    cbn [lifetime_walk].
    assert (nth_error (lower ++ target :: upper ++ fr :: above)
              (S (List.length lower + List.length upper)) = Some fr) as ->.
    { replace (lower ++ target :: upper ++ fr :: above)
        with ((lower ++ target :: upper) ++ fr :: above)
        by (rewrite <- app_assoc; reflexivity).
      replace (S (List.length lower + List.length upper))
        with (List.length (lower ++ target :: upper))
        by (rewrite length_app; simpl; lia).
      apply nth_error_middle. }
    rewrite existsb_app. cbn [existsb]. rewrite orb_false_r.
    unfold passed in Hk. unfold is_pool at 2.
    destruct (kind fr); try discriminate; rewrite (IH Hu);
      f_equal; destruct pop, (existsb is_pool upper); reflexivity.
Qed.

(** Where the walk ends on a stack [lower ++ target :: upper] whose
    frames over [target] are parameter blocks and pools. *)
Lemma lifetime_walk_target lower target upper :
  Forall (fun fr => passed fr = true) upper ->
  lifetime_walk (lower ++ target :: upper)
    (List.length (lower ++ target :: upper) - 1) false =
  match lower with
  | [] => Walk O (existsb is_pool upper) false
  | _ :: _ =>
      lifetime_walk (lower ++ target :: upper) (List.length lower)
        (existsb is_pool upper)
  end.
Proof.
  intro Hp.
  replace (List.length (lower ++ target :: upper) - 1)%nat
    with (List.length lower + List.length upper)%nat
    by (rewrite length_app; simpl; lia).
  pose proof (lifetime_walk_passes lower target upper Hp [] false) as H.
  rewrite app_nil_r in H. rewrite H. cbn [orb].
  destruct lower; reflexivity.
Qed.

Lemma lifetime_walk_at lower target upper pop :
  lower <> [] ->
  passed target = false ->
  lifetime_walk (lower ++ target :: upper) (List.length lower) pop =
  Walk (List.length lower) pop (negb (lifetime_scope (kind target))).
Proof.
  intros Hl Ht. destruct (List.length lower) eqn:El.
  - destruct lower; [contradiction|discriminate].
  - cbn [lifetime_walk]. rewrite <- El, nth_error_middle.
    unfold passed in Ht. destruct (kind target); try discriminate; reflexivity.
Qed.


Lemma lifetime_scope_not_passed fr :
  lifetime_scope (kind fr) = true -> passed fr = false.
Proof. unfold passed. destruct (kind fr); simpl; intro; first [reflexivity|discriminate]. Qed.

(** The call on a stack [lower ++ target :: upper] whose frames over
    [target] are passed by the walk, [target] being [stack[0]] or a
    frame at which the walk stops. *)
Lemma config_valid_lifetime_at config value c lower target upper :
  mapGet config "value" = Some value ->
  stack c = lower ++ target :: upper ->
  Forall (fun fr => passed fr = true) upper ->
  lower = [] \/ passed target = false ->
  let w := Walk (List.length lower) (existsb is_pool upper)
             (match lower with
              | [] => false
              | _ :: _ => negb (lifetime_scope (kind target))
              end) in
  config_valid_lifetime config c =
    Done (tt, with_stack c
                (if unsupported w then issue_counter c + 1 else issue_counter c)
                (lower ++ store_lifetime target (annotate_lifetime value w) :: upper)).
Proof.
  intros Hv Hs Hp Ht w. unfold config_valid_lifetime. rewrite Hv, Hs.
  rewrite (lifetime_walk_target lower target upper Hp).
  assert (match lower with
          | [] => Walk O (existsb is_pool upper) false
          | _ :: _ => lifetime_walk (lower ++ target :: upper)
                        (List.length lower) (existsb is_pool upper)
          end = w) as ->.
  { subst w. destruct lower as [|fr0 lower']; [reflexivity|].
    destruct Ht as [Ht|Ht]; [discriminate|].
    now rewrite lifetime_walk_at. }
  unfold with_stack. do 2 f_equal.
  subst w. cbn [walk_where]. rewrite update_frame_middle. reflexivity.
Qed.

(** C8. [config_valid_lifetime] on a stack [lower ++ target :: upper],
    where the frames [upper] over [target] are parameter blocks and
    pools (the frames the walk passes) and [target] is [stack[0]] or the
    first frame that is neither:
    - when a pool was passed and [target] is [stack[0]] or a
      root/shared-network/subnet/group frame, the value is stored at
      [target] with the comment on the move out of the pool, without
      flag and without a new issue;
    - when only parameter blocks were passed and [target] is a frame of
      another kind above [stack[0]] (a host declaration, say), the value
      is stored at [target] with the skip flag and the comment on the
      unsupported scope, and the issue counter is incremented;
    - when only parameter blocks were passed and [target] is [stack[0]]
      or a root/shared-network/subnet/group frame, the value is stored
      there as it is;
    - when a pool was passed and [target] is a frame of another kind
      above [stack[0]], the value is stored at [target] with the flag,
      both comments and a new issue. *)
Theorem valid_lifetime_scope :
  forall config value c lower target upper,
    mapGet config "value" = Some value ->
    stack c = lower ++ target :: upper ->
    Forall (fun fr => passed fr = true) upper ->
    (existsb is_pool upper = true ->
     lower = [] \/ lifetime_scope (kind target) = true ->
     config_valid_lifetime config c =
       Done (tt, with_stack c (issue_counter c)
                   (lower ++ store_lifetime target
                               (add_comment value MOVED_FROM_POOL) :: upper)))
    /\
    (existsb is_pool upper = false ->
     lower <> [] -> passed target = false ->
     lifetime_scope (kind target) = false ->
     config_valid_lifetime config c =
       Done (tt, with_stack c (issue_counter c + 1)
                   (lower ++ store_lifetime target
                               (set_skip (add_comment value UNSUPPORTED_SCOPE))
                          :: upper)))
    /\
    (existsb is_pool upper = false ->
     lower = [] \/ lifetime_scope (kind target) = true ->
     config_valid_lifetime config c =
       Done (tt, with_stack c (issue_counter c)
                   (lower ++ store_lifetime target value :: upper)))
    /\
    (existsb is_pool upper = true ->
     lower <> [] -> passed target = false ->
     lifetime_scope (kind target) = false ->
     config_valid_lifetime config c =
       Done (tt, with_stack c (issue_counter c + 1)
                   (lower ++ store_lifetime target
                               (add_comment
                                  (set_skip (add_comment value UNSUPPORTED_SCOPE))
                                  MOVED_FROM_POOL) :: upper))).
Proof.
  intros config value c lower target upper Hv Hs Hp.
  assert (legal : lower = [] \/ lifetime_scope (kind target) = true ->
                  lower = [] \/ passed target = false).
  { intros [H|H]; [now left|right; now apply lifetime_scope_not_passed]. }
  repeat split.
  - intros Hpool Hl.
    rewrite (config_valid_lifetime_at config value c lower target upper)
      by auto.
    rewrite Hpool. destruct Hl as [->|Hl]; [reflexivity|].
    destruct lower; [reflexivity|]. rewrite Hl. reflexivity.
  - intros Hpool Hl Ht Hk.
    rewrite (config_valid_lifetime_at config value c lower target upper)
      by auto.
    rewrite Hpool, Hk. destruct lower; [contradiction|reflexivity].
  - intros Hpool Hl.
    rewrite (config_valid_lifetime_at config value c lower target upper)
      by auto.
    rewrite Hpool. destruct Hl as [->|Hl]; [reflexivity|].
    destruct lower; [reflexivity|]. rewrite Hl. reflexivity.
  - intros Hpool Hl Ht Hk.
    rewrite (config_valid_lifetime_at config value c lower target upper)
      by auto.
    rewrite Hpool, Hk. destruct lower; [contradiction|reflexivity].
Qed.

Lemma valid_lifetime_scope_witness :
  config_valid_lifetime (mapSet createMap (createInt 3600) "value")
    (Parse [] [] 0
       [Frame ROOT_GROUP createMap; Frame SUBNET_DECL createMap;
        Frame POOL_DECL createMap; Frame PARAMETER createMap] false)
  = Done (tt,
          Parse [] [] 0
            [Frame ROOT_GROUP createMap;
             store_lifetime (Frame SUBNET_DECL createMap)
               (add_comment (createInt 3600) MOVED_FROM_POOL);
             Frame POOL_DECL createMap; Frame PARAMETER createMap] false).
Proof.
  refine (proj1 (valid_lifetime_scope
            (mapSet createMap (createInt 3600) "value") (createInt 3600)
            (Parse [] [] 0
               [Frame ROOT_GROUP createMap; Frame SUBNET_DECL createMap;
                Frame POOL_DECL createMap; Frame PARAMETER createMap] false)
            [Frame ROOT_GROUP createMap] (Frame SUBNET_DECL createMap)
            [Frame POOL_DECL createMap; Frame PARAMETER createMap]
            _ _ _) _ _).
  - reflexivity.
  - reflexivity.
  - repeat constructor.
  - reflexivity.
  - right. reflexivity.
Defined.

(* ------------------------------------------------------------------ *)
(** ** Zone keys                                                        *)
(* ------------------------------------------------------------------ *)

Lemma key_count_mapSet zone v k k' :
  key_count (mapSet zone v k) k' =
    match content zone with
    | VMap _ => (key_count zone k' + if String.eqb k k' then 1 else 0)%nat
    | _ => key_count zone k'
    end.
Proof.
  unfold mapSet, key_count. destruct zone as [[| | | |m|] sk cm]; simpl; try reflexivity.
  rewrite filter_app, length_app. simpl.
  destruct (String.eqb k k'); reflexivity.
Qed.

Lemma mapContains_false_count zone k :
  mapContains zone k = false -> key_count zone k = 0%nat.
Proof.
  unfold mapContains, key_count. destruct (content zone); try reflexivity.
  induction m as [|p m IH]; simpl; [reflexivity|].
  destruct (String.eqb (fst p) k); simpl; [discriminate|exact IH].
Qed.

Lemma mapContains_mapSet_same zone v k :
  type_of zone = ELEMENT_MAP -> mapContains (mapSet zone v k) k = true.
Proof.
  unfold type_of, mapSet, mapContains.
  destruct zone as [[| | | |m|] sk cm]; simpl; try discriminate.
  intros _. rewrite existsb_app. simpl. rewrite String.eqb_refl.
  now rewrite orb_true_r.
Qed.

Lemma mapContains_mapSet_keeps zone v k k' :
  mapContains zone k' = true -> mapContains (mapSet zone v k) k' = true.
Proof.
  unfold mapSet, mapContains.
  destruct zone as [[| | | |m|] sk cm]; simpl; try discriminate.
  intro H. rewrite existsb_app, H. reflexivity.
Qed.

Lemma type_of_mapSet zone v k : type_of (mapSet zone v k) = type_of zone.
Proof. unfold mapSet, type_of. destruct zone as [[| | | |m|] sk cm]; reflexivity. Qed.

(** A guarded insertion keeps every key at most once. *)
Lemma guarded_set_at_most_once zone v k k' :
  mapContains zone k = false ->
  (key_count zone k' <= 1)%nat ->
  (key_count (mapSet zone v k) k' <= 1)%nat.
Proof.
  intros Hg Hc. rewrite key_count_mapSet.
  destruct (content zone); try exact Hc.
  destruct (String.eqb_spec k k') as [->|_]; [|lia].
  rewrite (mapContains_false_count _ _ Hg). lia.
Qed.

Section ZoneKeys.
Variable gethostbyname : string -> option (list (list Z)).
Variable inet_ntop : list Z -> option string.
Variable parse_ip6_addr_txt : M string.

Local Notation zone_loop := (parse_zone_loop gethostbyname inet_ntop parse_ip6_addr_txt).

Ltac pass_guard H :=
  match type of H with
  | context [error_if ?b _] =>
      destruct b eqn:?; cbv [error_if] in H;
      [cbv [bind parse_error] in H; discriminate H|]
  end.

Lemma zone_loop_at_most_once :
  forall fuel zone c zone' c' k,
    zone_loop fuel zone c = Done (zone', c') ->
    (key_count zone k <= 1)%nat ->
    (key_count zone' k <= 1)%nat.
Proof.
  induction fuel as [|f IH]; intros zone c zone' c' k H Hk; [discriminate|]. cbn [parse_zone_loop] in H.
  inv_bind H.
  destruct (fst p);
    try (inv_bind H; injection H as <- _; exact Hk).
  - (* KEY *)
    inv_bind H. inv_bind H. inv_bind H.
    pass_guard H.
    inv_bind H. inv_bind H.
    eapply IH; [exact H|]. now apply guarded_set_at_most_once.
  - (* PRIMARY *)
    pass_guard H.
    inv_bind H. inv_bind H. inv_bind H.
    eapply IH; [exact H|]. now apply guarded_set_at_most_once.
  - (* SECONDARY *)
    pass_guard H.
    inv_bind H. inv_bind H. inv_bind H.
    eapply IH; [exact H|]. now apply guarded_set_at_most_once.
  - (* PRIMARY6 *)
    pass_guard H.
    inv_bind H. inv_bind H. inv_bind H.
    eapply IH; [exact H|]. now apply guarded_set_at_most_once.
  - (* SECONDARY6 *)
    pass_guard H.
    inv_bind H. inv_bind H. inv_bind H.
    eapply IH; [exact H|]. now apply guarded_set_at_most_once.
Qed.

Lemma parse_host_name_loop_settled :
  forall fuel s c,
    (List.length (tokens c) < fuel)%nat ->
    settled (parse_host_name_loop fuel s c).
Proof.
  induction fuel as [|f IH]; intros s c Hf; [lia|].
  cbn [parse_host_name_loop]. unfold bind at 1. unfold peek_token.
  destruct (tokens c) as [|t rest] eqn:Ht; cbn [fst snd].
  - exact I.
  - destruct (negb (is_identifier (fst t)) && negb (token_eqb (fst t) NUMBER));
      [exact I|].
    unfold bind at 1. unfold skip_token, next_token. rewrite Ht.
    unfold bind at 1. unfold peek_token. cbn [tokens].
    destruct rest as [|t' rest']; cbn [fst snd].
    + exact I.
    + destruct (token_eqb (fst t') DOT); [|exact I].
      unfold bind at 1. unfold next_token. cbn [tokens].
      apply IH. simpl in *. lia.
Qed.

Lemma parse_host_name_settled c : settled (parse_host_name c).
Proof.
  unfold parse_host_name, bind, remaining.
  apply parse_host_name_loop_settled. lia.
Qed.

(** A keyword of a key that the zone already holds ends the run. *)
Lemma zone_loop_second_occurrence :
  forall fuel zone c k,
    In k zone_keys ->
    mapContains zone k = true ->
    first_token (tokens c) = zone_keyword k ->
    exists msg, zone_loop (S fuel) zone c = Fatal msg.
Proof.
  intros fuel zone c k Hin Hc Ht. cbn [parse_zone_loop].
  unfold bind at 1. unfold peek_token.
  destruct (tokens c) as [|t rest] eqn:Etok; cbn [first_token] in Ht.
  { simpl in Hin.
    repeat (destruct Hin as [<-|Hin]; [discriminate Ht|]). contradiction. }
  cbn [fst]. rewrite Ht.
  simpl in Hin.
  destruct Hin as [<-|[<-|[<-|[<-|[<-|[]]]]]]; cbn [zone_keyword String.eqb Ascii.eqb Bool.eqb];
    try (rewrite Hc; cbv [error_if bind parse_error]; eexists; reflexivity).
  (* key *)
  unfold bind at 1. unfold skip_token, next_token. rewrite Etok.
  unfold bind at 1. unfold peek_token. cbn [tokens].
  set (c1 := Parse rest (pending c) (issue_counter c) (stack c) (lose c)).
  set (t' := match rest with [] => (END_OF_FILE, "") | x :: _ => x end).
  assert (Hpeek : match rest with
                  | [] => Done ((END_OF_FILE, ""), c1)
                  | x :: _ => Done (x, c1)
                  end = Done (t', c1)).
  { subst t'. destruct rest; reflexivity. }
  rewrite Hpeek. clear Hpeek.
  unfold bind at 1.
  destruct (token_eqb (fst t') STRING).
  - unfold bind at 1. unfold skip_token, next_token.
    destruct (tokens c1); cbn [ret]; rewrite Hc;
      cbv [error_if bind parse_error]; eexists; reflexivity.
  - unfold bind at 1.
    pose proof (parse_host_name_settled c1) as Hs.
    destruct (parse_host_name c1) as [[[n|] c2]|m| |]; try contradiction.
    + cbn [ret]. rewrite Hc. cbv [error_if bind parse_error]. eexists; reflexivity.
    + cbv [parse_error]. eexists; reflexivity.
    + eexists; reflexivity.
Qed.

(** The clause that a keyword starts leaves its key in the zone, and
    keys stay. *)
Lemma zone_loop_keeps :
  forall fuel zone c zone' c' k,
    zone_loop fuel zone c = Done (zone', c') ->
    mapContains zone k = true ->
    mapContains zone' k = true.
Proof.
  induction fuel as [|f IH]; intros zone c zone' c' k H Hk; [discriminate|]. cbn [parse_zone_loop] in H.
  inv_bind H.
  destruct (fst p);
    try (inv_bind H; injection H as <- _; exact Hk).
  - inv_bind H. inv_bind H. inv_bind H. pass_guard H.
    inv_bind H. inv_bind H.
    eapply IH; [exact H|]. now apply mapContains_mapSet_keeps.
  - pass_guard H. inv_bind H. inv_bind H. inv_bind H.
    eapply IH; [exact H|]. now apply mapContains_mapSet_keeps.
  - pass_guard H. inv_bind H. inv_bind H. inv_bind H.
    eapply IH; [exact H|]. now apply mapContains_mapSet_keeps.
  - pass_guard H. inv_bind H. inv_bind H. inv_bind H.
    eapply IH; [exact H|]. now apply mapContains_mapSet_keeps.
  - pass_guard H. inv_bind H. inv_bind H. inv_bind H.
    eapply IH; [exact H|]. now apply mapContains_mapSet_keeps.
Qed.

Lemma zone_loop_sets :
  forall fuel zone c zone' c' k,
    In k zone_keys ->
    type_of zone = ELEMENT_MAP ->
    first_token (tokens c) = zone_keyword k ->
    zone_loop fuel zone c = Done (zone', c') ->
    mapContains zone' k = true.
Proof.
  intros fuel zone c zone' c' k Hin Hty Ht H.
  destruct fuel as [|f]; [discriminate|]. cbn [parse_zone_loop] in H.
  inv_bind H.
  assert (fst p = zone_keyword k) as Hp.
  { unfold peek_token in E. destruct (tokens c); injection E as <- _; exact Ht. }
  rewrite Hp in H. simpl in Hin.
  destruct Hin as [<-|[<-|[<-|[<-|[<-|[]]]]]];
    cbn [zone_keyword String.eqb Ascii.eqb Bool.eqb] in H.
  - pass_guard H. inv_bind H. inv_bind H. inv_bind H.
    eapply zone_loop_keeps; [exact H|]. now apply mapContains_mapSet_same.
  - pass_guard H. inv_bind H. inv_bind H. inv_bind H.
    eapply zone_loop_keeps; [exact H|]. now apply mapContains_mapSet_same.
  - pass_guard H. inv_bind H. inv_bind H. inv_bind H.
    eapply zone_loop_keeps; [exact H|]. now apply mapContains_mapSet_same.
  - pass_guard H. inv_bind H. inv_bind H. inv_bind H.
    eapply zone_loop_keeps; [exact H|]. now apply mapContains_mapSet_same.
  - inv_bind H. inv_bind H. inv_bind H. pass_guard H.
    inv_bind H. inv_bind H.
    eapply zone_loop_keeps; [exact H|]. now apply mapContains_mapSet_same.
Qed.
End ZoneKeys.

Lemma mapContains_mapSet_other zone v k k' :
  mapContains (mapSet zone v k) k' = true -> k <> k' ->
  mapContains zone k' = true.
Proof.
  unfold mapSet, mapContains.
  destruct zone as [[| | | |m|] sk cm]; simpl; try (intros H _; exact H).
  rewrite existsb_app. simpl. intros H Hne.
  destruct (String.eqb_spec k k') as [->|_]; [contradiction|].
  now rewrite orb_false_r in H.
Qed.

Section ZoneClauses.
Variable gethostbyname : string -> option (list (list Z)).
Variable inet_ntop : list Z -> option string.
Variable parse_ip6_addr_txt : M string.

Local Notation zone_loop := (parse_zone_loop gethostbyname inet_ntop parse_ip6_addr_txt).
Local Notation clause := (zone_clause gethostbyname inet_ntop parse_ip6_addr_txt).
Local Notation clauses := (zone_clauses gethostbyname inet_ntop parse_ip6_addr_txt).

Lemma peek_token_state c t c0 : peek_token c = Done (t, c0) -> c0 = c.
Proof. unfold peek_token. destruct (tokens c); intro H; now injection H as _ <-. Qed.

(** A clause that reads well is a clause of one of the five keys; the
    loop stops on it when the zone holds the key, and goes on with the
    value stored under the key otherwise. *)
Lemma zone_loop_clause f zone c k v c1 :
  clause f c = Done (Some (k, v), c1) ->
  In k zone_keys /\
  zone_loop (S f) zone c =
    if mapContains zone k then Fatal (duplicate_message k)
    else zone_loop f (mapSet zone v k) c1.
Proof.
  unfold zone_clause. intro H. inv_bind_as H t c0 Et.
  cbn [parse_zone_loop]. unfold bind at 1. rewrite Et.
  destruct (fst t); try (cbv [ret] in H; discriminate H).
  - (* KEY *)
    inv_bind_as H u c2 Es. inv_bind_as H t' c3 Ep. inv_bind_as H name c4 En.
    inv_bind_as H u' c5 Esemi. cbv [ret] in H. injection H as <- <- <-.
    split; [simpl; auto 6|].
    unfold bind at 1. rewrite Es. unfold bind at 1. rewrite Ep.
    unfold bind at 1. rewrite En.
    destruct (mapContains zone "key"); [reflexivity|].
    unfold bind at 1. cbv [error_if ret]. unfold bind at 1. rewrite Esemi.
    reflexivity.
  - inv_bind_as H u c2 Es. inv_bind_as H vals c3 Ev.
    cbv [ret] in H. injection H as <- <- <-.
    split; [simpl; auto 6|].
    destruct (mapContains zone "primary"); [reflexivity|].
    unfold bind at 1. cbv [error_if ret]. unfold bind at 1. rewrite Es.
    unfold bind at 1. rewrite Ev. reflexivity.
  - inv_bind_as H u c2 Es. inv_bind_as H vals c3 Ev.
    cbv [ret] in H. injection H as <- <- <-.
    split; [simpl; auto 6|].
    destruct (mapContains zone "secondary"); [reflexivity|].
    unfold bind at 1. cbv [error_if ret]. unfold bind at 1. rewrite Es.
    unfold bind at 1. rewrite Ev. reflexivity.
  - inv_bind_as H u c2 Es. inv_bind_as H vals c3 Ev.
    cbv [ret] in H. injection H as <- <- <-.
    split; [simpl; auto 6|].
    destruct (mapContains zone "primary6"); [reflexivity|].
    unfold bind at 1. cbv [error_if ret]. unfold bind at 1. rewrite Es.
    unfold bind at 1. rewrite Ev. reflexivity.
  - inv_bind_as H u c2 Es. inv_bind_as H vals c3 Ev.
    cbv [ret] in H. injection H as <- <- <-.
    split; [simpl; auto 6|].
    destruct (mapContains zone "secondary6"); [reflexivity|].
    unfold bind at 1. cbv [error_if ret]. unfold bind at 1. rewrite Es.
    unfold bind at 1. rewrite Ev. reflexivity.
Qed.

(** Where no clause starts, the loop ends: the closing brace is
    expected. *)
Lemma zone_loop_no_clause f zone c c' :
  clause f c = Done (None, c') ->
  zone_loop (S f) zone c = (expect RBRACE "expecting right brace." ;;; ret zone) c.
Proof.
  unfold zone_clause. intro H. inv_bind_as H t c0 Et.
  cbn [parse_zone_loop]. unfold bind at 1. rewrite Et.
  apply peek_token_state in Et as Ec. subst c0.
  destruct (fst t); try reflexivity.
  - inv_bind_as H u c2 Es. inv_bind_as H t' c3 Ep. inv_bind_as H name c4 En.
    inv_bind_as H u' c5 Esemi. cbv [ret] in H. discriminate H.
  - inv_bind_as H u c2 Es. inv_bind_as H vals c3 Ev. cbv [ret] in H. discriminate H.
  - inv_bind_as H u c2 Es. inv_bind_as H vals c3 Ev. cbv [ret] in H. discriminate H.
  - inv_bind_as H u c2 Es. inv_bind_as H vals c3 Ev. cbv [ret] in H. discriminate H.
  - inv_bind_as H u c2 Es. inv_bind_as H vals c3 Ev. cbv [ret] in H. discriminate H.
Qed.

(** Clauses of distinct keys that the zone does not hold are all
    stored. *)
Lemma zone_loop_distinct :
  forall f c es c1,
    clauses f c es c1 ->
    forall zone,
      NoDup (map fst es) ->
      (forall k, In k (map fst es) -> mapContains zone k = false) ->
      type_of zone = ELEMENT_MAP ->
      zone_loop f zone c =
        zone_loop (f - List.length es) (with_clauses zone es) c1.
Proof.
  induction 1 as [f c|f c [k v] c1 es c2 He _ IH]; intros zone Hnd Hnew Hty.
  - cbn [List.length with_clauses fold_left]. now rewrite Nat.sub_0_r.
  - destruct (zone_loop_clause f zone c k v c1 He) as [_ ->].
    rewrite (Hnew k) by (simpl; auto).
    cbn [map fst] in Hnd. inversion Hnd as [|? ? Hk Hnd']; subst.
    rewrite (IH (mapSet zone v k)).
    + reflexivity.
    + exact Hnd'.
    + intros k' Hin. 
      destruct (mapContains (mapSet zone v k) k') eqn:Hc; [|reflexivity].
      exfalso. apply mapContains_mapSet_other in Hc.
      * rewrite (Hnew k') in Hc by (simpl; auto). discriminate Hc.
      * intros ->. contradiction.
    + now rewrite type_of_mapSet.
Qed.

(** A clause of a key that the zone holds, or that an earlier clause of
    the block has set, ends the run. *)
Lemma zone_loop_repeated :
  forall f c es c1,
    clauses f c es c1 ->
    forall zone,
      type_of zone = ELEMENT_MAP ->
      (~ NoDup (map fst es) \/
       exists k, In k (map fst es) /\ mapContains zone k = true) ->
      exists k, In k (map fst es) /\ zone_loop f zone c = Fatal (duplicate_message k).
Proof.
  induction 1 as [f c|f c [k v] c1 es c2 He _ IH]; intros zone Hty Hdup.
  - destruct Hdup as [Hnd|[k [[] _]]]. elim Hnd. constructor.
  - destruct (zone_loop_clause f zone c k v c1 He) as [_ ->].
    destruct (mapContains zone k) eqn:Hk.
    { exists k. split; [simpl; auto|reflexivity]. }
    destruct (IH (mapSet zone v k)) as [k' [Hin Hf]].
    + now rewrite type_of_mapSet.
    + destruct Hdup as [Hnd|[k' [Hin Hc]]].
      * destruct (in_dec string_dec k (map fst es)) as [Hin|Hout].
        -- right. exists k. split; [exact Hin|].
           now apply mapContains_mapSet_same.
        -- left. intro Hnd'. apply Hnd. cbn [map fst]. now constructor.
      * right. cbn [map fst] in Hin. destruct Hin as [<-|Hin].
        -- rewrite Hk in Hc. discriminate Hc.
        -- exists k'. split; [exact Hin|]. now apply mapContains_mapSet_keeps.
    + exists k'. split; [simpl; auto|exact Hf].
Qed.
End ZoneClauses.

Lemma zone_loop_closes g i p f zone c b rest :
  tokens c = (RBRACE, b) :: rest ->
  parse_zone_loop g i p (S f) zone c = Done (zone, with_tokens c rest).
Proof.
  intro Ht. cbn [parse_zone_loop]. unfold bind at 1. unfold peek_token.
  rewrite Ht. cbn [fst]. unfold expect, bind, next_token. rewrite Ht.
  reflexivity.
Qed.

(** C9. In a zone block each of the keys "primary", "secondary",
    "primary6", "secondary6" and "key" is set at most once.
    - [parse_zone] is its loop after the left brace.  A clause that
      reads well ([zone_clause]) is a clause of one of the five keys;
      on it the loop ends in the error of that key ("more than one
      ...", "Multiple key definitions") when the zone holds the key,
      and goes on with the value stored under the key otherwise.
    - So, on a block that starts with the clauses [es] (the tokens
      between and after them are free): when two of them have the same
      key, or one has a key that the zone held at the start, the run
      ends in the error of a key of [es]; when the keys are distinct
      and new, and the closing brace follows, the call returns the zone
      with the values of [es] stored in their order.
    - A call that returns leaves every key at most once in the zone if
      the zone it received had it at most once (as the zone that the
      ZONE statement passes has, which holds "name" only).
    - When the zone already holds one of the five keys, the keyword of
      that key at the head of the input ends the run in a fatal error;
      the clause that a keyword starts leaves its key in the zone, and a
      key in the zone stays there. *)
Theorem zone_keys_at_most_once :
  forall gethostbyname inet_ntop parse_ip6_addr_txt,
    (forall zone c b toks,
       tokens c = (LBRACE, b) :: toks ->
       parse_zone gethostbyname inet_ntop parse_ip6_addr_txt zone c =
         parse_zone_loop gethostbyname inet_ntop parse_ip6_addr_txt
           (S (List.length toks)) zone (with_tokens c toks))
    /\ (forall fuel zone c k v c1,
          zone_clause gethostbyname inet_ntop parse_ip6_addr_txt fuel c
            = Done (Some (k, v), c1) ->
          In k zone_keys /\
          parse_zone_loop gethostbyname inet_ntop parse_ip6_addr_txt
            (S fuel) zone c =
            if mapContains zone k then Fatal (duplicate_message k)
            else parse_zone_loop gethostbyname inet_ntop parse_ip6_addr_txt
                   fuel (mapSet zone v k) c1)
    /\ (forall fuel zone c es c1,
          zone_clauses gethostbyname inet_ntop parse_ip6_addr_txt fuel c es c1 ->
          type_of zone = ELEMENT_MAP ->
          (~ NoDup (map fst es) \/
           exists k, In k (map fst es) /\ mapContains zone k = true) ->
          exists k,
            In k (map fst es) /\
            parse_zone_loop gethostbyname inet_ntop parse_ip6_addr_txt
              fuel zone c = Fatal (duplicate_message k))
    /\ (forall fuel zone c es c1 b rest,
          zone_clauses gethostbyname inet_ntop parse_ip6_addr_txt fuel c es c1 ->
          type_of zone = ELEMENT_MAP ->
          NoDup (map fst es) ->
          (forall k, In k (map fst es) -> mapContains zone k = false) ->
          (List.length es < fuel)%nat ->
          tokens c1 = (RBRACE, b) :: rest ->
          parse_zone_loop gethostbyname inet_ntop parse_ip6_addr_txt
            fuel zone c = Done (with_clauses zone es, with_tokens c1 rest))
    /\ (forall zone c zone' c' k,
          parse_zone gethostbyname inet_ntop parse_ip6_addr_txt zone c
            = Done (zone', c') ->
          (key_count zone k <= 1)%nat ->
          (key_count zone' k <= 1)%nat)
    /\ (forall s k,
          (key_count (mapSet (set_skip createMap) (createString s) "name") k
           <= 1)%nat)
    /\ (forall fuel zone c k,
          In k zone_keys ->
          mapContains zone k = true ->
          first_token (tokens c) = zone_keyword k ->
          exists msg,
            parse_zone_loop gethostbyname inet_ntop parse_ip6_addr_txt
              (S fuel) zone c = Fatal msg)
    /\ (forall fuel zone c zone' c' k,
          In k zone_keys ->
          type_of zone = ELEMENT_MAP ->
          first_token (tokens c) = zone_keyword k ->
          parse_zone_loop gethostbyname inet_ntop parse_ip6_addr_txt
            fuel zone c = Done (zone', c') ->
          mapContains zone' k = true)
    /\ (forall fuel zone c zone' c' k,
          parse_zone_loop gethostbyname inet_ntop parse_ip6_addr_txt
            fuel zone c = Done (zone', c') ->
          mapContains zone k = true ->
          mapContains zone' k = true).
Proof.
  intros g i p.
  split; [|split; [|split; [|split; [|split; [|split; [|split; [|split]]]]]]].
  - intros zone c b toks Ht. unfold parse_zone, expect.
    unfold bind at 1. unfold bind at 1. unfold next_token. rewrite Ht.
    reflexivity.
  - intros. now apply zone_loop_clause.
  - intros fuel zone c es c1 Hes Hty Hdup.
    exact (zone_loop_repeated g i p fuel c es c1 Hes zone Hty Hdup).
  - intros fuel zone c es c1 b rest Hes Hty Hnd Hnew Hlen Ht.
    rewrite (zone_loop_distinct g i p fuel c es c1 Hes zone Hnd Hnew Hty).
    destruct (fuel - List.length es)%nat as [|f] eqn:Ef; [lia|].
    now apply zone_loop_closes with (b := b).
  - intros zone c zone' c' k H Hk. unfold parse_zone in H.
    inv_bind H. inv_bind H.
    eapply zone_loop_at_most_once; eassumption.
  - intros s k. rewrite key_count_mapSet.
    change (content (set_skip createMap)) with (@VMap element []).
    change (key_count (set_skip createMap) k) with 0%nat.
    destruct (String.eqb "name" k); lia.
  - intros. eapply zone_loop_second_occurrence; eassumption.
  - intros. eapply zone_loop_sets; eassumption.
  - intros. eapply zone_loop_keeps; eassumption.
Qed.

Lemma zone_keys_at_most_once_witness :
  exists k,
    In k ["primary"; "key"; "primary"] /\
    parse_zone_loop (fun _ => Some [[10; 0; 0; 1]]) (fun _ => Some "10.0.0.1")
      (parse_error "no IPv6") 4
      (mapSet (set_skip createMap) (createString "example.org.") "name")
      (lexed [(PRIMARY, "primary"); (NAME, "ns1"); (SEMI, ";");
              (KEY, "key"); (NAME, "k1"); (SEMI, ";");
              (PRIMARY, "primary"); (NAME, "ns2"); (SEMI, ";"); (RBRACE, "}")])
    = Fatal (duplicate_message k).
Proof.
  apply (proj1 (proj2 (proj2 (zone_keys_at_most_once
           (fun _ => Some [[10; 0; 0; 1]]) (fun _ => Some "10.0.0.1")
           (parse_error "no IPv6"))))
           4%nat
           (mapSet (set_skip createMap) (createString "example.org.") "name")
           (lexed [(PRIMARY, "primary"); (NAME, "ns1"); (SEMI, ";");
                   (KEY, "key"); (NAME, "k1"); (SEMI, ";");
                   (PRIMARY, "primary"); (NAME, "ns2"); (SEMI, ";"); (RBRACE, "}")])
           [("primary", listPush createList (createString "10.0.0.1"));
            ("key", createString "k1");
            ("primary", listPush createList (createString "10.0.0.1"))]
           (lexed [(RBRACE, "}")])).
  - apply clauses_more with
      (c1 := lexed [(KEY, "key"); (NAME, "k1"); (SEMI, ";");
                    (PRIMARY, "primary"); (NAME, "ns2"); (SEMI, ";"); (RBRACE, "}")]);
      [reflexivity|].
    apply clauses_more with
      (c1 := lexed [(PRIMARY, "primary"); (NAME, "ns2"); (SEMI, ";"); (RBRACE, "}")]);
      [reflexivity|].
    apply clauses_more with (c1 := lexed [(RBRACE, "}")]); [reflexivity|].
    apply clauses_none.
  - reflexivity.
  - left. intro Hnd. inversion Hnd as [|? ? Hout _]. apply Hout. simpl. auto.
Defined.

(** A zone block with two "primary" clauses, with a resolver that knows
    every name: the second clause is fatal. *)
Example zone_two_primaries :
  parse_zone (fun _ => Some [[10; 0; 0; 1]]) (fun _ => Some "10.0.0.1")
    (parse_error "no IPv6")
    (mapSet (set_skip createMap) (createString "example.org.") "name")
    (lexed [(LBRACE, "{"); (PRIMARY, "primary"); (NAME, "ns1"); (SEMI, ";");
            (KEY, "key"); (NAME, "k1"); (SEMI, ";");
            (PRIMARY, "primary"); (NAME, "ns2"); (SEMI, ";"); (RBRACE, "}")])
  = Fatal "more than one primary.".
Proof. reflexivity. Qed.

(* ------------------------------------------------------------------ *)
(** ** Statements                                                       *)
(* ------------------------------------------------------------------ *)

Lemma type_of_listPush l e : type_of (listPush l e) = type_of l.
Proof. unfold listPush, type_of. destruct l as [[| | | |m|xs] sk cm]; reflexivity. Qed.

Lemma typed_expression_accepts pe context accepts msg expr c e c' :
  typed_expression pe context accepts msg expr c = Done (Some e, c') ->
  accepts e || mapContains e "variable-reference" || mapContains e "funcall" = true.
Proof.
  unfold typed_expression. intro H. inv_bind H.
  destruct o as [e0|]; [|discriminate].
  destruct (accepts e0) eqn:A1, (mapContains e0 "variable-reference") eqn:A2,
    (mapContains e0 "funcall") eqn:A3;
    cbv [negb andb error_if bind parse_error ret] in H;
    try discriminate H;
    injection H as <- _; rewrite ?A1, ?A2, ?A3; reflexivity.
Qed.

Lemma typed_expression_rejects pe context accepts msg expr c e c1 :
  pe expr context None expr_none c = Done (Some e, c1) ->
  accepts e || mapContains e "variable-reference" || mapContains e "funcall" = false ->
  typed_expression pe context accepts msg expr c = Fatal msg.
Proof.
  intros Hpe A. unfold typed_expression, bind. rewrite Hpe.
  rewrite !orb_false_iff in A. destruct A as [[-> ->] ->]. reflexivity.
Qed.

Lemma typed_expression_result pe context accepts msg expr c e c' :
  typed_expression pe context accepts msg expr c = Done (Some e, c') ->
  pe expr context None expr_none c = Done (Some e, c').
Proof.
  unfold typed_expression. intro H. inv_bind H.
  destruct o as [e0|]; [|discriminate].
  inv_bind H. injection H as <- <-.
  destruct (negb (accepts e0) && negb (mapContains e0 "variable-reference")
            && negb (mapContains e0 "funcall")); cbv [error_if parse_error ret] in E0;
    [discriminate|].
  injection E0 as _ <-. reflexivity.
Qed.

Section StatementProps.
Variable gethostbyname : string -> option (list (list Z)).
Variable inet_ntop : list Z -> option string.
Variable parse_ip6_addr_txt : M string.
Variable server_option : string -> bool.

Local Notation stmts_loop := (statements_loop gethostbyname inet_ntop parse_ip6_addr_txt server_option).
Local Notation stmt := (parse_executable_statement gethostbyname inet_ntop parse_ip6_addr_txt server_option).
Local Notation if_stmt := (parse_if_statement gethostbyname inet_ntop parse_ip6_addr_txt server_option).
Local Notation switch_stmt := (parse_switch_statement gethostbyname inet_ntop parse_ip6_addr_txt server_option).

Lemma statements_loop_type :
  forall fuel statements context c l c',
    stmts_loop fuel statements context c = Done (Some l, c') ->
    type_of l = type_of statements.
Proof.
  induction fuel as [|f IH]; intros statements context c l c' H; [discriminate|]. cbn [statements_loop] in H.
  inv_bind H. inv_bind H. destruct o as [st|].
  - inv_bind H. apply IH in H. now rewrite type_of_listPush in H.
  - inv_bind H. destruct (negb b); [|discriminate].
    injection H as <- _. reflexivity.
Qed.

Lemma statements_of_list fuel context c l c' :
  statements_of (stmts_loop fuel) createList context c = Done (Some l, c') ->
  type_of l = ELEMENT_LIST.
Proof.
  unfold statements_of. intro H. inv_bind H.
  now apply statements_loop_type in H.
Qed.

Lemma need_lose_some m msg k c r c' :
  need_lose m msg k c = Done (Some r, c') ->
  exists arg c1, m c = Done (Some arg, c1) /\ k arg c1 = Done (Some r, c').
Proof.
  unfold need_lose. intro H. inv_bind H.
  destruct o as [arg|].
  - now exists arg, p.
  - inv_bind H. inv_bind H. inv_bind H. discriminate.
Qed.

Lemma parse_if_statement_tree :
  forall fuel result c r c',
    if_stmt fuel result c = Done (Some r, c') ->
    if_tree result r.
Proof.
  induction fuel as [|f IH]; intros result c r c' H; [discriminate|]. cbn [parse_if_statement] in H.
  inv_bind H. inv_bind H. inv_bind H.
  apply need_lose_some in H. destruct H as (cond & c1 & Hcond & H).
  apply typed_expression_accepts in Hcond.
  inv_bind H. inv_bind H.
  inv_bind_as H branch cb Eb.
  destruct branch as [branch|]; [|inv_bind H; discriminate].
  apply statements_of_list in Eb.
  inv_bind H. inv_bind_as H t ct Et.
  destruct (fst t);
    try (injection H as <- _; now apply if_plain).
  - (* ELSE *)
    inv_bind H. inv_bind_as H t2 ct2 Et2.
    destruct (token_eqb (fst t2) IF).
    + inv_bind H.
      apply need_lose_some in H. destruct H as (b & c2 & Hb & H).
      injection H as <- _. apply IH in Hb. now apply if_else_if.
    + destruct (negb (token_eqb (fst t2) LBRACE)); [discriminate|].
      inv_bind H. inv_bind_as H b c2 Eb2.
      destruct b as [b|]; [|discriminate].
      apply statements_of_list in Eb2.
      inv_bind H. injection H as <- _. now apply if_else_block.
  - (* ELSIF *)
    inv_bind H.
    apply need_lose_some in H. destruct H as (b & c2 & Hb & H).
    injection H as <- _. apply IH in Hb. now apply if_else_if.
Qed.

Lemma at_condition_reached c p0 c1 u0 c2 u c0 :
  issue c = Done (u, c0) ->
  peek_token c0 = Done (p0, c1) ->
  (if token_eqb (fst p0) LPAREN then skip_token ;;; ret tt else ret tt) c1
    = Done (u0, c2) ->
  c2 = at_condition c.
Proof.
  unfold issue, peek_token, at_condition. intros Hi Hp Hs.
  injection Hi as _ <-. cbn [tokens] in Hp.
  destruct (tokens c) as [|[tok v] rest] eqn:Et.
  - injection Hp as <- <-. cbn in Hs. injection Hs as _ <-. reflexivity.
  - injection Hp as <- <-. cbn [fst] in Hs.
    destruct tok; cbn in Hs; try rewrite Et in Hs; injection Hs as _ <-;
      reflexivity.
Qed.

Lemma parse_if_statement_condition :
  forall fuel result c r c',
    if_stmt (S fuel) result c = Done (Some r, c') ->
    exists cond c1 then_ else_,
      parse_boolean_expression fuel createMap (at_condition c)
        = Done (Some cond, c1) /\
      accepted_condition cond = true /\
      r = mapSet result (if_node cond then_ else_) "if".
Proof.
  intros fuel result c r c' H. cbn [parse_if_statement] in H.
  inv_bind_as H u c0 Ei. inv_bind_as H t0 ct0 Et0. inv_bind_as H u0 c2 Es.
  pose proof (at_condition_reached _ _ _ _ _ _ _ Ei Et0 Es) as ->.
  apply need_lose_some in H. destruct H as (cond & c1 & Hcond & H).
  exists cond, c1.
  pose proof (typed_expression_accepts _ _ _ _ _ _ _ _ Hcond) as Hacc.
  inv_bind H. inv_bind H.
  inv_bind_as H branch cb Eb.
  destruct branch as [branch|]; [|inv_bind H; discriminate].
  inv_bind H. inv_bind_as H t ct Et.
  destruct (fst t);
    try (injection H as <- _; exists branch, None; repeat split; first [assumption|reflexivity]).
  - (* ELSE *)
    inv_bind H. inv_bind_as H t2 ct2 Et2.
    destruct (token_eqb (fst t2) IF).
    + inv_bind H.
      apply need_lose_some in H. destruct H as (b & cb2 & Hb & H).
      injection H as <- _. exists branch, (Some b). repeat split; first [assumption|reflexivity].
    + destruct (negb (token_eqb (fst t2) LBRACE)); [discriminate|].
      inv_bind H. inv_bind_as H b cb2 Eb2.
      destruct b as [b|]; [|discriminate].
      inv_bind H. injection H as <- _.
      exists branch, (Some b). repeat split; first [assumption|reflexivity].
  - (* ELSIF *)
    inv_bind H.
    apply need_lose_some in H. destruct H as (b & cb2 & Hb & H).
    injection H as <- _. exists branch, (Some b). repeat split; first [assumption|reflexivity].
Qed.

Lemma issue_peek_condition c :
  exists t c0,
    issue c = Done (tt, c0) /\ peek_token c0 = Done (t, c0) /\
    (if token_eqb (fst t) LPAREN then skip_token ;;; ret tt else ret tt) c0
      = Done (tt, at_condition c).
Proof.
  exists (match tokens c with [] => (END_OF_FILE, "") | x :: _ => x end),
    (Parse (tokens c) (pending c) (issue_counter c + 1) (stack c) (lose c)).
  unfold issue, peek_token, at_condition. cbn [tokens].
  destruct (tokens c) as [|[tok v] rest] eqn:Et.
  - repeat split.
  - split; [reflexivity|split; [reflexivity|]].
    cbn [fst]. destruct tok; reflexivity.
Qed.

Lemma parse_if_statement_rejects :
  forall fuel result c e c1,
    parse_expression fuel createMap context_boolean None expr_none
      (at_condition c) = Done (Some e, c1) ->
    accepted_condition e = false ->
    if_stmt (S fuel) result c = Fatal "Expecting a boolean expression.".
Proof.
  intros fuel result c e c1 He Ha. cbn [parse_if_statement].
  destruct (issue_peek_condition c) as (t & c0 & Hi & Hp & Hs).
  unfold bind at 1. rewrite Hi.
  unfold bind at 1. rewrite Hp.
  unfold bind at 1. rewrite Hs.
  unfold need_lose. unfold bind at 1.
  unfold parse_boolean_expression.
  rewrite (typed_expression_rejects _ _ _ _ _ _ _ _ He Ha). reflexivity.
Qed.
End StatementProps.

(** C7, at an input where it fails: the condition of "if foo { }" is a
    variable reference, which is classified Any, and the statement is
    accepted. *)
Lemma if_variable_condition_accepted :
  parse_if_statement no_resolver no_ntop no_ip6 no_server_option 16 createMap
    (lexed [(NAME, "foo"); (LBRACE, "{"); (RBRACE, "}")])
  = Done (Some (mapSet createMap
                  (if_node (mapSet createMap (set_skip (createString "foo"))
                              "variable-reference")
                     createList None) "if"),
          Parse [] [] 2 [] false)
  /\ expression_context
       (mapSet createMap (set_skip (createString "foo")) "variable-reference")
     <> context_boolean.
Proof. split; [reflexivity|discriminate]. Qed.

Lemma expect_cons tok msg c v rest :
  tokens c = (tok, v) :: rest ->
  expect tok msg c = Done (tt, with_tokens c rest).
Proof.
  intro Ht. unfold expect, bind, next_token. rewrite Ht. cbn [fst].
  now rewrite token_eqb_refl.
Qed.

Lemma peek_token_head c t rest :
  tokens c = t :: rest -> peek_token c = Done (t, c).
Proof. intro H. unfold peek_token. now rewrite H. Qed.

Lemma skip_token_head c t rest :
  tokens c = t :: rest -> skip_token c = Done (t, with_tokens c rest).
Proof. intro H. unfold skip_token, next_token. now rewrite H. Qed.

Lemma issue_peek_condition_first c :
  exists t c0,
    issue c = Done (tt, c0) /\ peek_token c0 = Done (t, c0) /\
    fst t = first_token (tokens c) /\
    (if token_eqb (fst t) LPAREN then skip_token ;;; ret tt else ret tt) c0
      = Done (tt, at_condition c).
Proof.
  exists (match tokens c with [] => (END_OF_FILE, "") | x :: _ => x end),
    (Parse (tokens c) (pending c) (issue_counter c + 1) (stack c) (lose c)).
  unfold issue, peek_token, at_condition. cbn [tokens].
  destruct (tokens c) as [|[tok v] rest] eqn:Et.
  - repeat split.
  - split; [reflexivity|split; [reflexivity|split; [reflexivity|]]].
    cbn [fst]. destruct tok; reflexivity.
Qed.

Section IfChain.
Variable gethostbyname : string -> option (list (list Z)).
Variable inet_ntop : list Z -> option string.
Variable parse_ip6_addr_txt : M string.
Variable server_option : string -> bool.

Local Notation stmts := (parse_executable_statements gethostbyname inet_ntop parse_ip6_addr_txt server_option).
Local Notation if_stmt := (parse_if_statement gethostbyname inet_ntop parse_ip6_addr_txt server_option).

(** The shared start of the four cases: the call up to the closing
    brace of the then-block. *)
Ltac to_then_block c then_ c2 Hc Ht Hb Hr :=
  cbn [parse_if_statement];
  let t := fresh "t" in let c0 := fresh "c0" in
  let Hi := fresh "Hi" in let Hp := fresh "Hp" in
  let Hf := fresh "Hf" in let Hs := fresh "Hs" in
  destruct (issue_peek_condition_first c) as (t & c0 & Hi & Hp & Hf & Hs);
  unfold bind at 1; rewrite Hi;
  unfold bind at 1; rewrite Hp;
  unfold bind at 1; rewrite Hs;
  unfold need_lose at 1; unfold bind at 1; rewrite Hc;
  rewrite Hf;
  destruct (token_eqb (first_token (tokens c)) LPAREN);
  cbn [app] in Ht;
  [ unfold bind at 1; rewrite (expect_cons _ _ _ _ _ Ht);
    unfold bind at 1; rewrite (expect_cons LBRACE _ (with_tokens _ _) _ _ eq_refl)
  | unfold bind at 1; cbv [ret];
    unfold bind at 1; rewrite (expect_cons _ _ _ _ _ Ht) ];
  rewrite ?with_tokens_twice;
  unfold bind at 1;
  match goal with
  | |- match ?x with _ => _ end = _ =>
      replace x with (Done (Some then_, c2)) by (symmetry; exact Hb)
  end;
  unfold bind at 1; rewrite (expect_cons _ _ _ _ _ Hr).

Lemma if_statement_plain f result c cond c1 r b body then_ c2 b' tail :
  parse_boolean_expression f createMap (at_condition c) = Done (Some cond, c1) ->
  tokens c1 = (if token_eqb (first_token (tokens c)) LPAREN
               then [(RPAREN, r)] else []) ++ (LBRACE, b) :: body ->
  stmts f createList context_any (with_tokens c1 body) = Done (Some then_, c2) ->
  tokens c2 = (RBRACE, b') :: tail ->
  first_token tail <> ELSE -> first_token tail <> ELSIF ->
  if_stmt (S f) result c =
    Done (Some (mapSet result (if_node cond then_ None) "if"), with_tokens c2 tail).
Proof.
  intros Hc Ht Hb Hr He Hei.
  to_then_block c then_ c2 Hc Ht Hb Hr.
  all: unfold bind at 1; unfold peek_token; cbn [tokens with_tokens].
  all: destruct tail as [|[tk tv] tail']; [reflexivity|].
  all: cbn [first_token fst] in He, Hei; cbn [fst].
  all: destruct tk; try reflexivity; contradiction.
Qed.

Lemma if_statement_elsif f result c cond c1 r b body then_ c2 b' e more branch c4 :
  parse_boolean_expression f createMap (at_condition c) = Done (Some cond, c1) ->
  tokens c1 = (if token_eqb (first_token (tokens c)) LPAREN
               then [(RPAREN, r)] else []) ++ (LBRACE, b) :: body ->
  stmts f createList context_any (with_tokens c1 body) = Done (Some then_, c2) ->
  tokens c2 = (RBRACE, b') :: (ELSIF, e) :: more ->
  if_stmt f createMap (with_tokens c2 more) = Done (Some branch, c4) ->
  if_stmt (S f) result c =
    Done (Some (mapSet result (if_node cond then_ (Some branch)) "if"), c4).
Proof.
  intros Hc Ht Hb Hr Hn.
  to_then_block c then_ c2 Hc Ht Hb Hr.
  all: unfold bind at 1;
    rewrite (peek_token_head (with_tokens c2 ((ELSIF, e) :: more)) _ _ eq_refl);
    cbn [fst].
  all: unfold bind at 1;
    rewrite (skip_token_head (with_tokens c2 ((ELSIF, e) :: more)) _ _ eq_refl);
    rewrite with_tokens_twice.
  all: unfold need_lose at 1; unfold bind at 1; rewrite Hn; reflexivity.
Qed.

Lemma if_statement_else_if f result c cond c1 r b body then_ c2 b' e e' more branch c4 :
  parse_boolean_expression f createMap (at_condition c) = Done (Some cond, c1) ->
  tokens c1 = (if token_eqb (first_token (tokens c)) LPAREN
               then [(RPAREN, r)] else []) ++ (LBRACE, b) :: body ->
  stmts f createList context_any (with_tokens c1 body) = Done (Some then_, c2) ->
  tokens c2 = (RBRACE, b') :: (ELSE, e) :: (IF, e') :: more ->
  if_stmt f createMap (with_tokens c2 more) = Done (Some branch, c4) ->
  if_stmt (S f) result c =
    Done (Some (mapSet result (if_node cond then_ (Some branch)) "if"), c4).
Proof.
  intros Hc Ht Hb Hr Hn.
  to_then_block c then_ c2 Hc Ht Hb Hr.
  all: unfold bind at 1;
    rewrite (peek_token_head (with_tokens c2 ((ELSE, e) :: (IF, e') :: more)) _ _ eq_refl);
    cbn [fst].
  all: unfold bind at 1;
    rewrite (skip_token_head (with_tokens c2 ((ELSE, e) :: (IF, e') :: more)) _ _ eq_refl);
    rewrite with_tokens_twice.
  all: unfold bind at 1;
    rewrite (peek_token_head (with_tokens c2 ((IF, e') :: more)) _ _ eq_refl);
    cbn [fst token_eqb dhcp_token_beq].
  all: unfold bind at 1;
    rewrite (skip_token_head (with_tokens c2 ((IF, e') :: more)) _ _ eq_refl);
    rewrite with_tokens_twice.
  all: unfold need_lose at 1; unfold bind at 1; rewrite Hn; reflexivity.
Qed.

Lemma if_statement_else_block f result c cond c1 r b body then_ c2 b' e b2 more
    else_ c4 b3 rest :
  parse_boolean_expression f createMap (at_condition c) = Done (Some cond, c1) ->
  tokens c1 = (if token_eqb (first_token (tokens c)) LPAREN
               then [(RPAREN, r)] else []) ++ (LBRACE, b) :: body ->
  stmts f createList context_any (with_tokens c1 body) = Done (Some then_, c2) ->
  tokens c2 = (RBRACE, b') :: (ELSE, e) :: (LBRACE, b2) :: more ->
  stmts f createList context_any (with_tokens c2 more) = Done (Some else_, c4) ->
  tokens c4 = (RBRACE, b3) :: rest ->
  if_stmt (S f) result c =
    Done (Some (mapSet result (if_node cond then_ (Some else_)) "if"),
          with_tokens c4 rest).
Proof.
  intros Hc Ht Hb Hr Hn Hr'.
  to_then_block c then_ c2 Hc Ht Hb Hr.
  all: unfold bind at 1;
    rewrite (peek_token_head (with_tokens c2 ((ELSE, e) :: (LBRACE, b2) :: more)) _ _ eq_refl);
    cbn [fst].
  all: unfold bind at 1;
    rewrite (skip_token_head (with_tokens c2 ((ELSE, e) :: (LBRACE, b2) :: more)) _ _ eq_refl);
    rewrite with_tokens_twice.
  all: unfold bind at 1;
    rewrite (peek_token_head (with_tokens c2 ((LBRACE, b2) :: more)) _ _ eq_refl);
    cbn [fst token_eqb dhcp_token_beq negb].
  all: unfold bind at 1;
    rewrite (skip_token_head (with_tokens c2 ((LBRACE, b2) :: more)) _ _ eq_refl);
    rewrite with_tokens_twice.
  all: unfold bind at 1;
    match goal with
    | |- match ?x with _ => _ end = _ =>
        replace x with (Done (Some else_, c4)) by (symmetry; exact Hn)
    end.
  all: unfold bind at 1; rewrite (expect_cons _ _ _ _ _ Hr'); reflexivity.
Qed.
End IfChain.
(** C7, amended. What [parse_if_statement] returns is the given map
    with one node stored under "if": a flagged map with "condition",
    "then" (a list of statements) and, when an else part follows,
    "else" ([if_tree]).  The condition is what
    [parse_boolean_expression] returns on the input after an optional
    left parenthesis (of which, and of its right parenthesis, the node
    keeps nothing); it is a boolean expression, a variable reference or
    a function call, and a condition that is none of the three ends the
    run in the error "Expecting a boolean expression.".

    The else part follows the input.  With the condition [cond] read,
    the block of statements [then_] read after it, and [tail] the input
    after the closing brace of that block:
    - when [tail] starts with neither ELSE nor ELSIF the node has no
      "else" and [tail] is left unread;
    - when [tail] is ELSIF, or ELSE IF, followed by an if statement that
      is read into an empty map as [branch], the "else" child is
      [branch] itself, a map with the node of that statement under
      "if": the chain is not wrapped in a list;
    - when [tail] is ELSE followed by a braced block that is read as
      the list [else_], the "else" child is that list. *)
Theorem if_statement_shape :
  forall gethostbyname inet_ntop parse_ip6_addr_txt server_option,
    (forall fuel result c r c',
       parse_if_statement gethostbyname inet_ntop parse_ip6_addr_txt
         server_option fuel result c = Done (Some r, c') ->
       if_tree result r)
    /\ (forall fuel result c r c',
          parse_if_statement gethostbyname inet_ntop parse_ip6_addr_txt
            server_option (S fuel) result c = Done (Some r, c') ->
          exists cond c1 then_ else_,
            parse_boolean_expression fuel createMap (at_condition c)
              = Done (Some cond, c1) /\
            accepted_condition cond = true /\
            r = mapSet result (if_node cond then_ else_) "if")
    /\ (forall fuel result c e c1,
          parse_expression fuel createMap context_boolean None expr_none
            (at_condition c) = Done (Some e, c1) ->
          accepted_condition e = false ->
          parse_if_statement gethostbyname inet_ntop parse_ip6_addr_txt
            server_option (S fuel) result c
          = Fatal "Expecting a boolean expression.")
    /\ (forall fuel result c cond c1 r b body then_ c2 b' tail,
          parse_boolean_expression fuel createMap (at_condition c)
            = Done (Some cond, c1) ->
          tokens c1 = (if token_eqb (first_token (tokens c)) LPAREN
                       then [(RPAREN, r)] else []) ++ (LBRACE, b) :: body ->
          parse_executable_statements gethostbyname inet_ntop
            parse_ip6_addr_txt server_option fuel createList context_any
            (with_tokens c1 body) = Done (Some then_, c2) ->
          tokens c2 = (RBRACE, b') :: tail ->
          (first_token tail <> ELSE -> first_token tail <> ELSIF ->
           parse_if_statement gethostbyname inet_ntop parse_ip6_addr_txt
             server_option (S fuel) result c =
             Done (Some (mapSet result (if_node cond then_ None) "if"),
                   with_tokens c2 tail))
          /\ (forall e more branch c4,
                tail = (ELSIF, e) :: more ->
                parse_if_statement gethostbyname inet_ntop parse_ip6_addr_txt
                  server_option fuel createMap (with_tokens c2 more)
                  = Done (Some branch, c4) ->
                parse_if_statement gethostbyname inet_ntop parse_ip6_addr_txt
                  server_option (S fuel) result c =
                  Done (Some (mapSet result
                                (if_node cond then_ (Some branch)) "if"), c4))
          /\ (forall e e' more branch c4,
                tail = (ELSE, e) :: (IF, e') :: more ->
                parse_if_statement gethostbyname inet_ntop parse_ip6_addr_txt
                  server_option fuel createMap (with_tokens c2 more)
                  = Done (Some branch, c4) ->
                parse_if_statement gethostbyname inet_ntop parse_ip6_addr_txt
                  server_option (S fuel) result c =
                  Done (Some (mapSet result
                                (if_node cond then_ (Some branch)) "if"), c4))
          /\ (forall e b2 more else_ c4 b3 rest,
                tail = (ELSE, e) :: (LBRACE, b2) :: more ->
                parse_executable_statements gethostbyname inet_ntop
                  parse_ip6_addr_txt server_option fuel createList context_any
                  (with_tokens c2 more) = Done (Some else_, c4) ->
                tokens c4 = (RBRACE, b3) :: rest ->
                parse_if_statement gethostbyname inet_ntop parse_ip6_addr_txt
                  server_option (S fuel) result c =
                  Done (Some (mapSet result
                                (if_node cond then_ (Some else_)) "if"),
                        with_tokens c4 rest))).
Proof.
  intros g i p so. split; [|split; [|split]].
  - apply parse_if_statement_tree.
  - apply parse_if_statement_condition.
  - apply parse_if_statement_rejects.
  - intros fuel result c cond c1 r b body then_ c2 b' tail Hc Ht Hb Hr.
    split; [|split; [|split]].
    + intros He Hei. eapply if_statement_plain; eassumption.
    + intros e more branch c4 -> Hn. eapply if_statement_elsif; eassumption.
    + intros e e' more branch c4 -> Hn. eapply if_statement_else_if; eassumption.
    + intros e b2 more else_ c4 b3 rest -> Hn Hr'.
      eapply if_statement_else_block; eassumption.
Qed.

Lemma if_statement_shape_witness :
  parse_if_statement no_resolver no_ntop no_ip6 no_server_option 16 createMap
    (lexed [(LPAREN, "("); (NAME, "a"); (EQUAL, "="); (STRING, "x"); (RPAREN, ")");
            (LBRACE, "{"); (RBRACE, "}");
            (ELSIF, "elsif");
            (LPAREN, "("); (NAME, "b"); (EQUAL, "="); (STRING, "y"); (RPAREN, ")");
            (LBRACE, "{"); (RBRACE, "}");
            (ELSE, "else"); (LBRACE, "{"); (RBRACE, "}")])
  = Done (Some (mapSet createMap
                  (if_node (operator_node expr_equal (mapSet createMap (set_skip (createString "a")) "variable-reference") (createString "x"))
                     createList
                     (Some (mapSet createMap
                              (if_node (operator_node expr_equal (mapSet createMap (set_skip (createString "b")) "variable-reference")
                                          (createString "y"))
                                 createList (Some createList)) "if"))) "if"),
          Parse [] [] 4 [] false).
Proof.
  set (rest2 := [(LPAREN, "("); (NAME, "b"); (EQUAL, "="); (STRING, "y");
                 (RPAREN, ")"); (LBRACE, "{"); (RBRACE, "}");
                 (ELSE, "else"); (LBRACE, "{"); (RBRACE, "}")]).
  apply (proj1 (proj2 (proj2 (proj2 (proj2 (if_statement_shape no_resolver no_ntop
                  no_ip6 no_server_option)))
           15%nat createMap
           (lexed ([(LPAREN, "("); (NAME, "a"); (EQUAL, "="); (STRING, "x");
                    (RPAREN, ")"); (LBRACE, "{"); (RBRACE, "}");
                    (ELSIF, "elsif")] ++ rest2))
           (operator_node expr_equal (mapSet createMap (set_skip (createString "a")) "variable-reference") (createString "x"))
           (Parse ([(RPAREN, ")"); (LBRACE, "{"); (RBRACE, "}"); (ELSIF, "elsif")]
                   ++ rest2) [] 2 [] false)
           ")" "{" ((RBRACE, "}") :: (ELSIF, "elsif") :: rest2)
           createList
           (Parse ((RBRACE, "}") :: (ELSIF, "elsif") :: rest2) [] 2 [] false)
           "}" ((ELSIF, "elsif") :: rest2)
           eq_refl eq_refl eq_refl eq_refl))
           "elsif" rest2
           (mapSet createMap
              (if_node (operator_node expr_equal (mapSet createMap (set_skip (createString "b")) "variable-reference") (createString "y"))
                 createList (Some createList)) "if")
           (Parse [] [] 4 [] false) eq_refl).
  reflexivity.
Defined.

Lemma expect_done tok msg c u c' :
  expect tok msg c = Done (u, c') ->
  first_token (tokens c) = tok /\ c' = with_tokens c (tl (tokens c)).
Proof.
  unfold expect, bind, next_token, first_token, with_tokens.
  destruct (tokens c) as [|t rest] eqn:Et; cbn [fst tl].
  - destruct (token_eqb END_OF_FILE tok) eqn:Eq; cbn [negb error_if];
      [|discriminate].
    apply token_eqb_eq in Eq. intro H. injection H as _ <-.
    split; [exact Eq|]. destruct c; simpl in *; now subst.
  - destruct (token_eqb (fst t) tok) eqn:Eq; cbn [negb error_if];
      [|discriminate].
    apply token_eqb_eq in Eq. intro H. injection H as _ <-. now split.
Qed.

Section SwitchProps.
Variable gethostbyname : string -> option (list (list Z)).
Variable inet_ntop : list Z -> option string.
Variable parse_ip6_addr_txt : M string.
Variable server_option : string -> bool.

Local Notation stmt := (parse_executable_statement gethostbyname inet_ntop parse_ip6_addr_txt server_option).
Local Notation stmts := (parse_executable_statements gethostbyname inet_ntop parse_ip6_addr_txt server_option).
Local Notation switch_stmt := (parse_switch_statement gethostbyname inet_ntop parse_ip6_addr_txt server_option).

Lemma parse_switch_statement_body :
  forall fuel result c r c',
    switch_stmt (S fuel) result c = Done (Some r, c') ->
    exists cond block c1 c3,
      first_token (tokens c) = LPAREN /\
      parse_expression fuel createMap context_data_or_numeric None expr_none
        (Parse (tl (tokens c)) (pending c) (issue_counter c + 1) (stack c) (lose c))
        = Done (Some cond, c1) /\
      first_token (tokens c1) = RPAREN /\
      first_token (tl (tokens c1)) = LBRACE /\
      stmts fuel createList (switch_context cond)
        (with_tokens c1 (tl (tl (tokens c1)))) = Done (Some block, c3) /\
      r = mapSet result (switch_node cond block) "switch".
Proof.
  intros fuel result c r c' H. cbn [parse_switch_statement] in H.
  inv_bind_as H u c0 Ei. inv_bind_as H u1 c0' El.
  unfold issue in Ei. injection Ei as _ <-.
  apply expect_done in El. cbn [tokens] in El. destruct El as [Hl ->].
  inv_bind_as H cond c1 Ec.
  destruct cond as [cond|]; [|inv_bind H; inv_bind H; discriminate].
  inv_bind_as H u2 c2 Er. apply expect_done in Er. destruct Er as [Hr ->].
  inv_bind_as H u3 c2' Eb. apply expect_done in Eb. cbn [tokens with_tokens] in Eb.
  destruct Eb as [Hb ->].
  inv_bind_as H block c3 Es.
  destruct block as [block|]; [|inv_bind H; discriminate].
  inv_bind H. injection H as <- _.
  exists cond, block, c1, c3.
  repeat split; try assumption.
Qed.

Lemma case_in_any_scope fuel result c v rest :
  tokens c = (CASE, v) :: rest ->
  stmt (S fuel) result context_any c =
    Fatal "case statement in inappropriate scope.".
Proof.
  intro Ht. cbn [parse_executable_statement].
  unfold bind at 1. unfold peek_token. rewrite Ht. cbn [fst].
  unfold bind at 1. unfold skip_token, next_token. rewrite Ht. reflexivity.
Qed.

Lemma case_in_switch_scope fuel result context c v rest :
  tokens c = (CASE, v) :: rest ->
  context <> context_any ->
  stmt (S fuel) result context c =
    parse_case_statement fuel result context (with_tokens c rest).
Proof.
  intros Ht Hc. cbn [parse_executable_statement].
  unfold bind at 1. unfold peek_token. rewrite Ht. cbn [fst].
  unfold bind at 1. unfold skip_token, next_token. rewrite Ht.
  destruct context; try contradiction; reflexivity.
Qed.

Lemma default_in_any_scope fuel result c v v' rest :
  tokens c = (DEFAULT, v) :: (COLON, v') :: rest ->
  stmt (S fuel) result context_any c = Fatal "switch default statement in %s".
Proof.
  intro Ht. cbn [parse_executable_statement].
  unfold bind at 1. unfold peek_token. rewrite Ht. cbn [fst].
  unfold bind at 1. unfold skip_token, next_token. rewrite Ht. reflexivity.
Qed.
End SwitchProps.

Lemma parse_case_statement_context fuel result context c r c' :
  parse_case_statement fuel result context c = Done (Some r, c') ->
  exists e c1,
    parse_expression fuel createMap context None expr_none c = Done (Some e, c1) /\
    r = mapSet result e "case".
Proof.
  unfold parse_case_statement. intro H.
  inv_bind_as H e c1 Ee.
  destruct e as [e|].
  - inv_bind H. injection H as <- _. now exists e, c1.
  - inv_bind H. inv_bind H. inv_bind H. inv_bind H. discriminate.
Qed.

(** The body of an on statement (like the branches of an if statement)
    is parsed in the case context Any: a case statement there is fatal
    as well. *)
Example case_in_on_body :
  parse_on_statement no_resolver no_ntop no_ip6 no_server_option 8 createMap
    (lexed [(COMMIT, "commit"); (LBRACE, "{"); (CASE, "case");
            (NUMBER, "1"); (COLON, ":"); (RBRACE, "}")])
  = Fatal "case statement in inappropriate scope.".
Proof. reflexivity. Qed.

Lemma case_literal_string f s v rest c :
  tokens c = (STRING, s) :: (COLON, v) :: rest ->
  parse_expression (S (S f)) createMap context_data None expr_none c
  = Done (Some (createString s), with_tokens c ((COLON, v) :: rest)).
Proof.
  intro Ht. destruct c as [tk pd ic st ls]. cbn [tokens] in Ht. subst tk.
  reflexivity.
Qed.

Lemma case_literal_number f s v rest c :
  tokens c = (NUMBER, s) :: (COLON, v) :: rest ->
  parse_expression (S (S f)) createMap context_numeric None expr_none c
  = Done (Some (createInt (atoi s)), with_tokens c ((COLON, v) :: rest)).
Proof.
  intro Ht. destruct c as [tk pd ic st ls]. cbn [tokens] in Ht. subst tk.
  reflexivity.
Qed.

Lemma case_literal_value f context lit v rest c :
  context = context_data \/ context = context_numeric ->
  case_literal context lit = true ->
  tokens c = lit :: (COLON, v) :: rest ->
  parse_expression (S (S f)) createMap context None expr_none c
  = Done (Some (case_value context lit), with_tokens c ((COLON, v) :: rest)).
Proof.
  intros [-> | ->] Hl Ht; destruct lit as [tk s];
    unfold case_literal in Hl; cbn [context_eqb fst] in Hl;
    apply token_eqb_eq in Hl; subst tk.
  - now apply case_literal_string.
  - now apply case_literal_number.
Qed.

Section SwitchBody.
Variable gethostbyname : string -> option (list (list Z)).
Variable inet_ntop : list Z -> option string.
Variable parse_ip6_addr_txt : M string.
Variable server_option : string -> bool.

Local Notation stmt := (parse_executable_statement gethostbyname inet_ntop parse_ip6_addr_txt server_option).
Local Notation stmts := (parse_executable_statements gethostbyname inet_ntop parse_ip6_addr_txt server_option).
Local Notation stmts_loop := (statements_loop gethostbyname inet_ntop parse_ip6_addr_txt server_option).
Local Notation switch_stmt := (parse_switch_statement gethostbyname inet_ntop parse_ip6_addr_txt server_option).

Ltac run_as H :=
  unfold bind at 1;
  match goal with
  | |- match ?x with _ => _ end = _ =>
      match type of H with
      | _ = ?y => replace x with y by (symmetry; exact H)
      end
  end.

(** The switch statement, from its parts. *)
Lemma switch_statement_reads f result c l toks cond c1 r b body block c3 b' rest :
  tokens c = (LPAREN, l) :: toks ->
  parse_expression f createMap context_data_or_numeric None expr_none
    (Parse toks (pending c) (issue_counter c + 1) (stack c) (lose c))
    = Done (Some cond, c1) ->
  tokens c1 = (RPAREN, r) :: (LBRACE, b) :: body ->
  stmts f createList (switch_context cond) (with_tokens c1 body)
    = Done (Some block, c3) ->
  tokens c3 = (RBRACE, b') :: rest ->
  switch_stmt (S f) result c =
    Done (Some (mapSet result (switch_node cond block) "switch"),
          with_tokens c3 rest).
Proof.
  intros Ht Hc Ht1 Hb Ht3. cbn [parse_switch_statement].
  unfold bind at 1. unfold issue at 1.
  unfold bind at 1.
  rewrite (expect_cons LPAREN _
             (Parse (tokens c) (pending c) (issue_counter c + 1) (stack c) (lose c))
             l toks Ht).
  unfold with_tokens at 1. cbn [pending issue_counter stack lose].
  unfold bind at 1. rewrite Hc.
  unfold bind at 1. rewrite (expect_cons _ _ _ _ _ Ht1).
  unfold bind at 1.
  rewrite (expect_cons LBRACE _ (with_tokens c1 ((LBRACE, b) :: body)) b body eq_refl).
  rewrite with_tokens_twice.
  run_as Hb.
  unfold bind at 1. rewrite (expect_cons _ _ _ _ _ Ht3). reflexivity.
Qed.

(** A case statement in a case context other than Any, from its
    expression. *)
Lemma case_statement_reads f result context c v toks e c1 v' rest :
  tokens c = (CASE, v) :: toks ->
  context <> context_any ->
  parse_expression f createMap context None expr_none (with_tokens c toks)
    = Done (Some e, c1) ->
  tokens c1 = (COLON, v') :: rest ->
  stmt (S f) result context c =
    Done (Some (mapSet result e "case"), with_tokens c1 rest).
Proof.
  intros Ht Hctx He Ht1.
  rewrite (case_in_switch_scope gethostbyname inet_ntop parse_ip6_addr_txt
             server_option f result context c v toks Ht Hctx).
  unfold parse_case_statement. unfold bind at 1. rewrite He.
  unfold bind at 1. rewrite (expect_cons _ _ _ _ _ Ht1). reflexivity.
Qed.

(** One turn of the loop over the statements: the statement is parsed
    in the case context of the loop, and the loop goes on in the same
    context. *)
Lemma statements_loop_turn f statements context c st c1 :
  stmt f (add_comments createMap (pending c)) context
    (Parse (tokens c) [] (issue_counter c) (stack c) (lose c))
    = Done (Some st, c1) ->
  stmts_loop (S f) statements context c =
    stmts_loop f (listPush statements (add_comments st (pending c1))) context
      (Parse (tokens c1) [] (issue_counter c1) (stack c1) (lose c1)).
Proof.
  intro Hs. cbn [statements_loop].
  unfold bind at 1. unfold take_comments at 1.
  run_as Hs.
  unfold bind at 1. unfold take_comments at 1. reflexivity.
Qed.

Lemma statements_loop_end f statements context c c1 :
  stmt f (add_comments createMap (pending c)) context
    (Parse (tokens c) [] (issue_counter c) (stack c) (lose c))
    = Done (None, c1) ->
  stmts_loop (S f) statements context c =
    Done (if lose c1 then None else Some statements, c1).
Proof.
  intro Hs. cbn [statements_loop].
  unfold bind at 1. unfold take_comments at 1.
  run_as Hs.
  unfold bind at 1. unfold get_lose. destruct (lose c1); reflexivity.
Qed.

Lemma stmt_at_rbrace f result context c b rest :
  tokens c = (RBRACE, b) :: rest ->
  stmt (S f) result context c =
    Done (None, Parse (tokens c) (pending c) (issue_counter c) (stack c) false).
Proof.
  intro Ht. cbn [parse_executable_statement].
  unfold bind at 1. rewrite (peek_token_head _ _ _ Ht). reflexivity.
Qed.

(** A body of case statements on literals: every one of them is read
    in the case context of the loop. *)
Lemma case_loop context kw col b rest :
  context = context_data \/ context = context_numeric ->
  forall lits,
    Forall (fun lit => case_literal context lit = true) lits ->
    forall f statements c,
      pending c = [] ->
      tokens c = case_clauses kw col lits ++ (RBRACE, b) :: rest ->
      stmts_loop (List.length lits + S (S (S (S f)))) statements context c =
        Done (Some (case_statements context lits statements),
              Parse ((RBRACE, b) :: rest) [] (issue_counter c) (stack c) false).
Proof.
  intros Hctx. induction 1 as [|lit lits Hlit _ IH]; intros f statements c Hp Ht.
  - cbn [case_clauses flat_map app] in Ht. cbn [List.length Nat.add case_statements fold_left].
    rewrite (statements_loop_end _ statements context c
               (Parse (tokens c) [] (issue_counter c) (stack c) false)).
    + cbn [lose]. rewrite Ht. reflexivity.
    + rewrite (stmt_at_rbrace _ _ context _ b rest) by exact Ht. reflexivity.
  - cbn [case_clauses flat_map case_clause app] in Ht.
    cbn [List.length Nat.add].
    assert (Hany : context <> context_any)
      by (destruct Hctx as [-> | ->]; discriminate).
    rewrite (statements_loop_turn _ statements context c
               (mapSet (add_comments createMap (pending c))
                  (case_value context lit) "case")
               (Parse (flat_map (case_clause kw col) lits ++ (RBRACE, b) :: rest)
                  [] (issue_counter c) (stack c) (lose c))).
    + cbn [pending tokens issue_counter stack lose]. rewrite Hp.
      rewrite (IH f _ (Parse (flat_map (case_clause kw col) lits ++ (RBRACE, b) :: rest)
                         [] (issue_counter c) (stack c) (lose c)) eq_refl eq_refl).
      reflexivity.
    + replace (List.length lits + S (S (S (S f))))%nat
        with (S (S (S (List.length lits + S f))))%nat by lia.
      set (tail := flat_map (case_clause kw col) lits ++ (RBRACE, b) :: rest).
      set (c' := Parse (tokens c) [] (issue_counter c) (stack c) (lose c)).
      apply (case_statement_reads _ _ context c' kw
               (lit :: (COLON, col) :: tail)
               (case_value context lit)
               (with_tokens c' ((COLON, col) :: tail)) col tail).
      * exact Ht.
      * exact Hany.
      * apply (case_literal_value _ context lit col tail
                 (with_tokens c' (lit :: (COLON, col) :: tail)) Hctx Hlit).
        reflexivity.
      * reflexivity.
Qed.

(** A switch over case statements on literals. *)
Lemma switch_on_literals f result c l toks cond c1 r b kw col lits b' rest :
  tokens c = (LPAREN, l) :: toks ->
  parse_expression (List.length lits + S (S (S (S f)))) createMap
    context_data_or_numeric None expr_none
    (Parse toks (pending c) (issue_counter c + 1) (stack c) (lose c))
    = Done (Some cond, c1) ->
  pending c1 = [] ->
  tokens c1 = (RPAREN, r) :: (LBRACE, b) ::
              case_clauses kw col lits ++ (RBRACE, b') :: rest ->
  Forall (fun lit => case_literal (switch_context cond) lit = true) lits ->
  switch_stmt (S (List.length lits + S (S (S (S f))))) result c =
    Done (Some (mapSet result
                  (switch_node cond
                     (case_statements (switch_context cond) lits createList))
                  "switch"),
          Parse rest [] (issue_counter c1) (stack c1) false).
Proof.
  intros Ht Hc Hp Ht1 Hl.
  apply (switch_statement_reads _ result c l toks cond c1 r b
           (case_clauses kw col lits ++ (RBRACE, b') :: rest)
           (case_statements (switch_context cond) lits createList)
           (Parse ((RBRACE, b') :: rest) [] (issue_counter c1) (stack c1) false)
           b' rest Ht Hc Ht1); [|reflexivity].
  unfold parse_executable_statements, statements_of.
  unfold bind at 1. cbv [error_if ret type_of createList content element_type_eqb negb].
  assert (Hctx : switch_context cond = context_data \/
                 switch_context cond = context_numeric).
  { unfold switch_context. destruct (is_data_expression cond); auto. }
  exact (case_loop (switch_context cond) kw col b' rest Hctx lits Hl f createList
           (with_tokens c1 (case_clauses kw col lits ++ (RBRACE, b') :: rest))
           Hp eq_refl).
Qed.
End SwitchBody.
(** C6. A switch statement parses its condition in data-or-numeric
    context and the statements of its body with the case context
    [switch_context cond]: data when [is_data_expression] holds of the
    condition, numeric otherwise.
    - From its parts: when the condition is read as [cond] and the
      statements of the body, parsed in the case context
      [switch_context cond], are read as [block], the call returns the
      node with [cond] and [block] under "switch"; and a call that
      returns has read its condition and its body in this way.
    - The loop over the statements parses each statement in its case
      context and goes on in the same context; it ends at the first
      token that starts no statement.
    - A case statement in a case context other than Any parses its
      expression in that context and stores it under "case".
    - So, for a body of any number of case statements on literals
      (NUMBER tokens when the context is numeric, STRING tokens when it
      is data) the switch returns the list of the case statements, each
      literal read in the context of the condition: an integer in a
      numeric switch, a string in a data switch.
    - A case statement, and a default statement (DEFAULT followed by a
      colon), in the case context Any end the run in a fatal error. *)
Theorem switch_case_context :
  forall gethostbyname inet_ntop parse_ip6_addr_txt server_option,
    (forall fuel result c l toks cond c1 r b body block c3 b' rest,
       tokens c = (LPAREN, l) :: toks ->
       parse_expression fuel createMap context_data_or_numeric None expr_none
         (Parse toks (pending c) (issue_counter c + 1) (stack c) (lose c))
         = Done (Some cond, c1) ->
       tokens c1 = (RPAREN, r) :: (LBRACE, b) :: body ->
       parse_executable_statements gethostbyname inet_ntop parse_ip6_addr_txt
         server_option fuel createList
         (if is_data_expression cond then context_data else context_numeric)
         (with_tokens c1 body) = Done (Some block, c3) ->
       tokens c3 = (RBRACE, b') :: rest ->
       parse_switch_statement gethostbyname inet_ntop parse_ip6_addr_txt
         server_option (S fuel) result c =
         Done (Some (mapSet result (switch_node cond block) "switch"),
               with_tokens c3 rest))
    /\ (forall fuel result c r c',
          parse_switch_statement gethostbyname inet_ntop parse_ip6_addr_txt
            server_option (S fuel) result c = Done (Some r, c') ->
          exists cond block c1 c3,
            first_token (tokens c) = LPAREN /\
            parse_expression fuel createMap context_data_or_numeric None expr_none
              (Parse (tl (tokens c)) (pending c) (issue_counter c + 1)
                     (stack c) (lose c))
              = Done (Some cond, c1) /\
            first_token (tokens c1) = RPAREN /\
            first_token (tl (tokens c1)) = LBRACE /\
            parse_executable_statements gethostbyname inet_ntop
              parse_ip6_addr_txt server_option fuel createList
              (switch_context cond) (with_tokens c1 (tl (tl (tokens c1))))
              = Done (Some block, c3) /\
            r = mapSet result (switch_node cond block) "switch")
    /\ (forall fuel statements context c st c1,
          parse_executable_statement gethostbyname inet_ntop parse_ip6_addr_txt
            server_option fuel (add_comments createMap (pending c)) context
            (Parse (tokens c) [] (issue_counter c) (stack c) (lose c))
            = Done (Some st, c1) ->
          statements_loop gethostbyname inet_ntop parse_ip6_addr_txt
            server_option (S fuel) statements context c =
          statements_loop gethostbyname inet_ntop parse_ip6_addr_txt
            server_option fuel
            (listPush statements (add_comments st (pending c1))) context
            (Parse (tokens c1) [] (issue_counter c1) (stack c1) (lose c1)))
    /\ (forall fuel statements context c c1,
          parse_executable_statement gethostbyname inet_ntop parse_ip6_addr_txt
            server_option fuel (add_comments createMap (pending c)) context
            (Parse (tokens c) [] (issue_counter c) (stack c) (lose c))
            = Done (None, c1) ->
          statements_loop gethostbyname inet_ntop parse_ip6_addr_txt
            server_option (S fuel) statements context c =
          Done (if lose c1 then None else Some statements, c1))
    /\ (forall fuel result context c v toks e c1 v' rest,
          tokens c = (CASE, v) :: toks ->
          context <> context_any ->
          parse_expression fuel createMap context None expr_none
            (with_tokens c toks) = Done (Some e, c1) ->
          tokens c1 = (COLON, v') :: rest ->
          parse_executable_statement gethostbyname inet_ntop
            parse_ip6_addr_txt server_option (S fuel) result context c =
          Done (Some (mapSet result e "case"), with_tokens c1 rest))
    /\ (forall fuel result context c v rest,
          tokens c = (CASE, v) :: rest ->
          context <> context_any ->
          parse_executable_statement gethostbyname inet_ntop
            parse_ip6_addr_txt server_option (S fuel) result context c =
          parse_case_statement fuel result context (with_tokens c rest))
    /\ (forall fuel result context c r c',
          parse_case_statement fuel result context c = Done (Some r, c') ->
          exists e c1,
            parse_expression fuel createMap context None expr_none c
              = Done (Some e, c1) /\
            r = mapSet result e "case")
    /\ (forall fuel result c l toks cond c1 r b kw col lits b' rest,
          tokens c = (LPAREN, l) :: toks ->
          parse_expression (List.length lits + S (S (S (S fuel)))) createMap
            context_data_or_numeric None expr_none
            (Parse toks (pending c) (issue_counter c + 1) (stack c) (lose c))
            = Done (Some cond, c1) ->
          pending c1 = [] ->
          tokens c1 = (RPAREN, r) :: (LBRACE, b) ::
                      case_clauses kw col lits ++ (RBRACE, b') :: rest ->
          Forall (fun lit =>
                    case_literal
                      (if is_data_expression cond then context_data
                       else context_numeric) lit = true) lits ->
          parse_switch_statement gethostbyname inet_ntop parse_ip6_addr_txt
            server_option (S (List.length lits + S (S (S (S fuel))))) result c =
            Done (Some (mapSet result
                          (switch_node cond
                             (case_statements
                                (if is_data_expression cond then context_data
                                 else context_numeric) lits createList))
                          "switch"),
                  Parse rest [] (issue_counter c1) (stack c1) false))
    /\ (forall fuel result c v rest,
          tokens c = (CASE, v) :: rest ->
          parse_executable_statement gethostbyname inet_ntop
            parse_ip6_addr_txt server_option (S fuel) result context_any c =
          Fatal "case statement in inappropriate scope.")
    /\ (forall fuel result c v v' rest,
          tokens c = (DEFAULT, v) :: (COLON, v') :: rest ->
          parse_executable_statement gethostbyname inet_ntop
            parse_ip6_addr_txt server_option (S fuel) result context_any c =
          Fatal "switch default statement in %s").
Proof.
  intros g i p so.
  split; [|split; [|split; [|split; [|split; [|split; [|split; [|split; [|split]]]]]]]].
  - intros. eapply switch_statement_reads; eassumption.
  - apply parse_switch_statement_body.
  - intros. now apply statements_loop_turn.
  - intros. now apply statements_loop_end.
  - intros. eapply case_statement_reads; eassumption.
  - intros. eapply case_in_switch_scope; eassumption.
  - intros. eapply parse_case_statement_context; eassumption.
  - intros. eapply switch_on_literals; eassumption.
  - intros. eapply case_in_any_scope; eassumption.
  - intros. eapply default_in_any_scope; eassumption.
Qed.

Lemma switch_case_context_witness :
  parse_switch_statement no_resolver no_ntop no_ip6 no_server_option 7 createMap
    (lexed [(LPAREN, "("); (LEASE_TIME, "lease-time"); (RPAREN, ")");
            (LBRACE, "{"); (CASE, "case"); (NUMBER, "1"); (COLON, ":");
            (CASE, "case"); (NUMBER, "2"); (COLON, ":"); (RBRACE, "}")])
  = Done (Some (mapSet createMap
                  (switch_node (leaf_node (LEASE_TIME, "lease-time"))
                     (listPush
                        (listPush createList
                           (mapSet createMap (createInt 1) "case"))
                        (mapSet createMap (createInt 2) "case")))
                  "switch"),
          Parse [] [] 2 [] false).
Proof.
  assert (Hl : Forall (fun lit => case_literal context_numeric lit = true)
                 [(NUMBER, "1"); (NUMBER, "2")]).
  { repeat (apply Forall_cons; [reflexivity|]). apply Forall_nil. }
  apply (proj1 (proj2 (proj2 (proj2 (proj2 (proj2 (proj2 (proj2
           (switch_case_context no_resolver no_ntop no_ip6 no_server_option))))))))
           0%nat createMap
           (lexed [(LPAREN, "("); (LEASE_TIME, "lease-time"); (RPAREN, ")");
                   (LBRACE, "{"); (CASE, "case"); (NUMBER, "1"); (COLON, ":");
                   (CASE, "case"); (NUMBER, "2"); (COLON, ":"); (RBRACE, "}")])
           "(" 
           [(LEASE_TIME, "lease-time"); (RPAREN, ")");
            (LBRACE, "{"); (CASE, "case"); (NUMBER, "1"); (COLON, ":");
            (CASE, "case"); (NUMBER, "2"); (COLON, ":"); (RBRACE, "}")]
           (leaf_node (LEASE_TIME, "lease-time"))
           (Parse [(RPAREN, ")");
                   (LBRACE, "{"); (CASE, "case"); (NUMBER, "1"); (COLON, ":");
                   (CASE, "case"); (NUMBER, "2"); (COLON, ":"); (RBRACE, "}")]
              [] 2 [] false)
           ")" "{" "case" ":" [(NUMBER, "1"); (NUMBER, "2")] "}" []
           eq_refl eq_refl eq_refl eq_refl Hl).
Defined.

(** The chain "if (a = x) { } elsif (b = y) { } else { }": one root
    node; its else part is the node of the elsif, whose else part is
    the list of the braced else. *)
Example if_elsif_else_chain :
  let variable s := mapSet createMap (set_skip (createString s)) "variable-reference" in
  parse_if_statement no_resolver no_ntop no_ip6 no_server_option 16 createMap
    (lexed [(LPAREN, "("); (NAME, "a"); (EQUAL, "="); (STRING, "x"); (RPAREN, ")");
            (LBRACE, "{"); (RBRACE, "}");
            (ELSIF, "elsif");
            (LPAREN, "("); (NAME, "b"); (EQUAL, "="); (STRING, "y"); (RPAREN, ")");
            (LBRACE, "{"); (RBRACE, "}");
            (ELSE, "else"); (LBRACE, "{"); (RBRACE, "}")])
  = Done (Some (mapSet createMap
                  (if_node (operator_node expr_equal (variable "a") (createString "x"))
                     createList
                     (Some (mapSet createMap
                              (if_node (operator_node expr_equal (variable "b")
                                          (createString "y"))
                                 createList (Some createList)) "if"))) "if"),
          Parse [] [] 4 [] false).
Proof. reflexivity. Qed.

(** A switch on a numeric condition: the case expression is parsed in
    numeric context, so the token 1 is an integer. *)
Example switch_numeric_case :
  parse_switch_statement no_resolver no_ntop no_ip6 no_server_option 16 createMap
    (lexed [(LPAREN, "("); (LEASE_TIME, "lease-time"); (RPAREN, ")");
            (LBRACE, "{"); (CASE, "case"); (NUMBER, "1"); (COLON, ":");
            (RBRACE, "}")])
  = Done (Some (mapSet createMap
                  (switch_node (leaf_node (LEASE_TIME, "lease-time"))
                     (listPush createList (mapSet createMap (createInt 1) "case")))
                  "switch"),
          Parse [] [] 2 [] false).
Proof. reflexivity. Qed.

(** A switch on a data condition: the case expression is parsed in data
    context. *)
Example switch_data_case :
  parse_switch_statement no_resolver no_ntop no_ip6 no_server_option 16 createMap
    (lexed [(LPAREN, "("); (HARDWARE, "hardware"); (RPAREN, ")");
            (LBRACE, "{"); (CASE, "case"); (STRING, "x"); (COLON, ":");
            (RBRACE, "}")])
  = Done (Some (mapSet createMap
                  (switch_node (leaf_node (HARDWARE, "hardware"))
                     (listPush createList (mapSet createMap (createString "x") "case")))
                  "switch"),
          Parse [] [] 2 [] false).
Proof. reflexivity. Qed.

(* ------------------------------------------------------------------ *)
(** ** Further properties                                               *)
(* ------------------------------------------------------------------ *)

(* ------------------------------------------------------------------ *)
(** ** Error recovery: skip_to_semi and skip_to_rbrace                  *)
(* ------------------------------------------------------------------ *)

(** The loop on a state is the function [skipped] on its tokens: the
    budget is never the reason to stop. *)
Lemma skip_loop_skipped :
  forall fuel n c,
    (List.length (tokens c) < fuel)%nat ->
    skip_to_rbrace_loop fuel n c = Done (tt, with_tokens c (skipped n (tokens c))).
Proof.
  induction fuel as [|f IH]; intros n c Hf; [lia|].
  cbn [skip_to_rbrace_loop]. unfold bind at 1. unfold peek_token.
  destruct (tokens c) as [|t rest] eqn:Ht.
  - cbn [fst]. unfold bind, next_token. rewrite Ht. cbn [fst token_eqb dhcp_token_beq].
    unfold ret, with_tokens. cbn [skipped]. rewrite <- Ht. destruct c; reflexivity.
  - assert (eat : forall k,
      (t' <- next_token ;;
       (if token_eqb (fst t') END_OF_FILE then ret tt
        else skip_to_rbrace_loop f k)) c =
      if token_eqb (fst t) END_OF_FILE then Done (tt, with_tokens c rest)
      else Done (tt, with_tokens c (skipped k rest))).
    { intro k. unfold bind, next_token. rewrite Ht.
      destruct (token_eqb (fst t) END_OF_FILE); [reflexivity|].
      rewrite IH by (simpl in *; lia). reflexivity. }
    assert (eat1 : (skip_token ;;; ret tt) c = Done (tt, with_tokens c rest)).
    { unfold bind, skip_token, next_token. rewrite Ht. reflexivity. }
    cbn [skipped].
    destruct (fst t) eqn:Et; cbn [fst];
      try (rewrite eat; cbn [token_eqb dhcp_token_beq]; reflexivity).
    + (* SEMI *) destruct (n =? 0); [exact eat1|].
      rewrite eat. reflexivity.
    + (* RBRACE *)
      destruct ((if n >? 0 then n - 1 else n) =? 0); [exact eat1|].
      rewrite eat. reflexivity.
    + exact eat1.
Qed.

Lemma skip_to_rbrace_skipped n c :
  skip_to_rbrace n c = Done (tt, with_tokens c (skipped n (tokens c))).
Proof.
  unfold skip_to_rbrace, bind, remaining. apply skip_loop_skipped. lia.
Qed.

Lemma skipped_words pre :
  Forall (fun t => word t = true) pre ->
  forall n rest, skipped n (pre ++ rest) = skipped n rest.
Proof.
  induction 1 as [|t pre Ht _ IH]; intros n rest; [reflexivity|].
  cbn [app skipped]. unfold word in Ht.
  destruct (fst t); try discriminate Ht; apply IH.
Qed.

Lemma skipped_block block :
  forall depth n rest,
    braces_match depth block = true -> 1 <= n ->
    skipped (n + Z.of_nat depth) (block ++ rest) = skipped n rest.
Proof.
  induction block as [|t block IH]; intros depth n rest Hb Hn.
  - cbn [braces_match] in Hb. apply Nat.eqb_eq in Hb. subst depth.
    cbn [app]. f_equal. simpl. lia.
  - cbn [app skipped]. cbn [braces_match] in Hb.
    destruct (fst t); try discriminate Hb; try (apply IH; assumption).
    + (* SEMI *)
      destruct (Z.eqb_spec (n + Z.of_nat depth) 0); [lia|]. now apply IH.
    + (* LBRACE *)
      replace (n + Z.of_nat depth + 1) with (n + Z.of_nat (S depth)) by lia.
      now apply IH.
    + (* RBRACE *)
      destruct depth as [|d]; [discriminate Hb|].
      destruct (Z.gtb_spec (n + Z.of_nat (S d)) 0); [|lia].
      replace (n + Z.of_nat (S d) - 1) with (n + Z.of_nat d) by lia.
      destruct (Z.eqb_spec (n + Z.of_nat d) 0); [lia|]. now apply IH.
Qed.

Lemma skipped_suffix toks :
  forall n, exists pre, toks = pre ++ skipped n toks.
Proof.
  induction toks as [|t rest IH]; intro n; [now exists []|].
  assert (here : exists pre, t :: rest = pre ++ rest) by now exists [t].
  assert (further : forall k, exists pre, t :: rest = pre ++ skipped k rest).
  { intro k. destruct (IH k) as [pre Hp]. exists (t :: pre).
    cbn [app]. now rewrite <- Hp. }
  cbn [skipped].
  destruct (fst t); try apply further; try exact here.
  - destruct (n =? 0); [exact here|apply further].
  - destruct ((if n >? 0 then n - 1 else n) =? 0); [exact here|apply further].
Qed.

(** X1. [skip_to_semi] skips over a statement, as the comment over
    [skip_to_rbrace] lists the cases.  After the words [pre] of the
    statement (tokens that are no semicolon, brace, end of line or end
    of file):
    - "statement;": the semicolon is consumed and the call returns;
    - "statement foo bar { ... }": with the braces of the block matched,
      the matching closing brace ends the statement, whatever semicolons
      the block holds;
    - "statement}": the closing brace is consumed and the call returns;
    - when the input ends, everything is consumed.
    The call never ends in an error. *)
Theorem skip_to_semi_statement :
  forall c pre rest,
    Forall (fun t => word t = true) pre ->
    (forall s, tokens c = pre ++ (SEMI, s) :: rest ->
       skip_to_semi c = Done (tt, with_tokens c rest))
    /\ (forall s s' block,
          braces_match 0 block = true ->
          tokens c = pre ++ (LBRACE, s) :: block ++ (RBRACE, s') :: rest ->
          skip_to_semi c = Done (tt, with_tokens c rest))
    /\ (forall s, tokens c = pre ++ (RBRACE, s) :: rest ->
          skip_to_semi c = Done (tt, with_tokens c rest))
    /\ (tokens c = pre -> skip_to_semi c = Done (tt, with_tokens c [])).
Proof.
  intros c pre rest Hpre. unfold skip_to_semi.
  repeat split.
  - intros s Ht. rewrite skip_to_rbrace_skipped, Ht, skipped_words by assumption.
    reflexivity.
  - intros s s' block Hb Ht.
    rewrite skip_to_rbrace_skipped, Ht, skipped_words by assumption.
    cbn [skipped fst].
    change (0 + 1) with (1 + Z.of_nat 0).
    rewrite skipped_block by (assumption || lia). reflexivity.
  - intros s Ht. rewrite skip_to_rbrace_skipped, Ht, skipped_words by assumption.
    reflexivity.
  - intros Ht. rewrite skip_to_rbrace_skipped, Ht.
    rewrite <- (app_nil_r pre), skipped_words by assumption. reflexivity.
Qed.

Lemma skip_to_semi_statement_witness :
  skip_to_semi
    (lexed [(NAME, "zone"); (NAME, "x"); (LBRACE, "{"); (NAME, "a"); (SEMI, ";");
            (LBRACE, "{"); (RBRACE, "}"); (RBRACE, "}"); (NAME, "next")])
  = Done (tt, lexed [(NAME, "next")]).
Proof.
  assert (Hpre : Forall (fun t => word t = true) [(NAME, "zone"); (NAME, "x")])
    by (repeat constructor).
  apply (proj1 (proj2 (skip_to_semi_statement
           (lexed [(NAME, "zone"); (NAME, "x"); (LBRACE, "{"); (NAME, "a");
                   (SEMI, ";"); (LBRACE, "{"); (RBRACE, "}"); (RBRACE, "}");
                   (NAME, "next")])
           [(NAME, "zone"); (NAME, "x")] [(NAME, "next")] Hpre))
         "{" "}" [(NAME, "a"); (SEMI, ";"); (LBRACE, "{"); (RBRACE, "}")]).
  - reflexivity.
  - reflexivity.
Defined.

(** X2. [skip_to_rbrace] "skips everything from the current point up to
    (and including) the given number of right braces":
    - whatever the count and the input, the call returns ([Done]), it
      only consumes tokens (what is left is a suffix of the input) and
      changes nothing else of the state;
    - with the count 1, after a block whose braces match, the next right
      brace is consumed and the call returns;
    - with a count above 1 that right brace is consumed and the call
      goes on as the call with the count less one. *)
Theorem skip_to_rbrace_matching :
  (forall n c, exists pre rest,
     tokens c = pre ++ rest /\
     skip_to_rbrace n c = Done (tt, with_tokens c rest))
  /\ (forall c block s rest,
        braces_match 0 block = true ->
        tokens c = block ++ (RBRACE, s) :: rest ->
        skip_to_rbrace 1 c = Done (tt, with_tokens c rest))
  /\ (forall n c block s rest,
        1 < n ->
        braces_match 0 block = true ->
        tokens c = block ++ (RBRACE, s) :: rest ->
        skip_to_rbrace n c = skip_to_rbrace (n - 1) (with_tokens c rest)).
Proof.
  split; [|split].
  - intros n c. destruct (skipped_suffix (tokens c) n) as [pre Hp].
    exists pre, (skipped n (tokens c)). split; [exact Hp|].
    apply skip_to_rbrace_skipped.
  - intros c block s rest Hb Ht.
    rewrite skip_to_rbrace_skipped, Ht.
    change 1 with (1 + Z.of_nat 0) at 1.
    rewrite skipped_block by (assumption || lia). reflexivity.
  - intros n c block s rest Hn Hb Ht.
    rewrite !skip_to_rbrace_skipped, Ht.
    replace n with (n + Z.of_nat 0) at 1 by (simpl; lia).
    rewrite skipped_block by (assumption || lia).
    cbn [skipped fst tokens with_tokens].
    destruct (Z.gtb_spec n 0); [|lia].
    destruct (Z.eqb_spec (n - 1) 0); [lia|]. reflexivity.
Qed.

Lemma skip_to_rbrace_matching_witness :
  skip_to_rbrace 1
    (lexed [(NAME, "a"); (LBRACE, "{"); (SEMI, ";"); (RBRACE, "}"); (SEMI, ";");
            (RBRACE, "}"); (NAME, "next")])
  = Done (tt, lexed [(NAME, "next")]).
Proof.
  apply (proj1 (proj2 skip_to_rbrace_matching)
           (lexed [(NAME, "a"); (LBRACE, "{"); (SEMI, ";"); (RBRACE, "}");
                   (SEMI, ";"); (RBRACE, "}"); (NAME, "next")])
           [(NAME, "a"); (LBRACE, "{"); (SEMI, ";"); (RBRACE, "}"); (SEMI, ";")]
           "}" [(NAME, "next")]).
  - reflexivity.
  - reflexivity.
Defined.

(* ------------------------------------------------------------------ *)
(** ** parse_string                                                     *)
(* ------------------------------------------------------------------ *)

(** X3. [parse_string] never returns: when the first token is not a
    string the call ends in "expecting a string", and when it is one
    the call ends in "no memory for string", since the [parse_error]
    after [malloc] is called without a test of the allocation.  The
    semicolon is never looked at and no string is ever handed back. *)
Theorem parse_string_never_returns :
  forall c,
    parse_string c =
      Fatal (if token_eqb (first_token (tokens c)) STRING
             then "no memory for string %s."
             else "expecting a string").
Proof.
  intro c. unfold parse_string, bind, next_token.
  destruct (tokens c) as [|t rest]; cbn [first_token fst]; [reflexivity|].
  destruct (token_eqb (fst t) STRING); reflexivity.
Qed.

(* ------------------------------------------------------------------ *)
(** ** parse_host_name                                                  *)
(* ------------------------------------------------------------------ *)

Lemma append_assoc (a b c : string) :
  String.append (String.append a b) c = String.append a (String.append b c).
Proof. induction a as [|ch a IH]; simpl; [reflexivity|now rewrite IH]. Qed.

Lemma append_empty_r (a : string) : String.append a "" = a.
Proof. induction a as [|ch a IH]; simpl; [reflexivity|now rewrite IH]. Qed.

Lemma peek_token_first c :
  exists text, peek_token c = Done ((first_token (tokens c), text), c)
               /\ match tokens c with
                  | [] => text = ""
                  | t :: _ => text = snd t
                  end.
Proof.
  unfold peek_token. destruct (tokens c) as [|[k s] rest]; eexists; split; reflexivity.
Qed.

Lemma is_label_not_dot t : is_label t = true -> token_eqb t DOT = false.
Proof. destruct t; simpl; intro H; first [reflexivity|discriminate H]. Qed.

Lemma parse_host_name_loop_stop f s c :
  is_label (first_token (tokens c)) = false ->
  parse_host_name_loop (S f) s c = Done (s, c).
Proof.
  intro H. cbn [parse_host_name_loop]. unfold bind, peek_token.
  unfold is_label in H. apply orb_false_iff in H. destruct H as [H1 H2].
  destruct (tokens c) as [|t r]; cbn [first_token fst] in *.
  - reflexivity.
  - rewrite H1, H2. reflexivity.
Qed.

Lemma parse_host_name_loop_step f s c t r1 :
  tokens c = t :: r1 ->
  is_label (fst t) = true ->
  parse_host_name_loop (S f) s c =
    match r1 with
    | d :: r2 =>
        if token_eqb (fst d) DOT
        then parse_host_name_loop f
               (Some (String.append (String.append (name_so_far s) (snd t)) (snd d)))
               (with_tokens c r2)
        else Done (Some (String.append (name_so_far s) (snd t)), with_tokens c r1)
    | [] => Done (Some (String.append (name_so_far s) (snd t)), with_tokens c r1)
    end.
Proof.
  intros Ht Hl. cbn [parse_host_name_loop]. unfold bind at 1. unfold peek_token.
  rewrite Ht. cbn [fst snd].
  assert (negb (is_identifier (fst t)) && negb (token_eqb (fst t) NUMBER) = false)
    as ->.
  { unfold is_label in Hl. apply orb_true_iff in Hl.
    destruct Hl as [->| ->]; [reflexivity|]. now rewrite andb_false_r. }
  unfold bind at 1. unfold skip_token, next_token. rewrite Ht.
  unfold bind at 1. unfold peek_token. cbn [tokens].
  assert (Hs1 : match s with
                | Some x => String.append x (snd t)
                | None => snd t
                end = String.append (name_so_far s) (snd t)).
  { destruct s; reflexivity. }
  rewrite Hs1.
  destruct r1 as [|d r2]; cbn [fst]; [reflexivity|].
  destruct (token_eqb (fst d) DOT); [|reflexivity].
  unfold bind, next_token. cbn [tokens snd]. reflexivity.
Qed.

Lemma parse_host_name_loop_grammar :
  forall fuel s c,
    (List.length (tokens c) < fuel)%nat ->
    is_label (first_token (tokens c)) = true ->
    exists name rest,
      dotted name /\ tokens c = name ++ rest /\ name_ends name rest = true /\
      parse_host_name_loop fuel s c =
        Done (Some (String.append (name_so_far s) (texts name)),
              with_tokens c rest).
Proof.
  induction fuel as [|f IH]; intros s c Hf Hl; [lia|].
  destruct (tokens c) as [|t r1] eqn:Ht; cbn [first_token] in Hl; [discriminate|].
  rewrite (parse_host_name_loop_step f s c t r1 Ht Hl).
  assert (one : exists name rest,
    dotted name /\ t :: r1 = name ++ rest /\ name_ends name rest = true /\
    Done (Some (String.append (name_so_far s) (snd t)), with_tokens c r1) =
    Done (Some (String.append (name_so_far s) (texts name)), with_tokens c rest)
    \/ token_eqb (first_token r1) DOT = true).
  { destruct (token_eqb (first_token r1) DOT) eqn:Ed.
    - exists [], []. now right.
    - exists [t], r1. left. repeat split.
      + now constructor.
      + unfold name_ends. cbn [last]. now rewrite (is_label_not_dot _ Hl), Ed.
      + cbn [texts]. now rewrite append_empty_r. }
  destruct r1 as [|d r2].
  { destruct one as (name & rest & [H|H]); [|discriminate H]. now exists name, rest. }
  cbn [first_token] in one.
  destruct (token_eqb (fst d) DOT) eqn:Ed.
  2:{ destruct one as (name & rest & [H|H]); [|discriminate H]. now exists name, rest. }
  clear one. apply token_eqb_eq in Ed.
  destruct (is_label (first_token r2)) eqn:El2.
  - destruct (IH (Some (String.append (String.append (name_so_far s) (snd t)) (snd d)))
                 (with_tokens c r2)) as (name & rest & Hd & Htok & Hend & Hrun).
    { simpl in *. lia. }
    { exact El2. }
    exists (t :: d :: name), rest. repeat split.
    + now constructor.
    + cbn [app]. cbn [tokens with_tokens] in Htok. now rewrite Htok.
    + unfold name_ends in *.
      assert (last (t :: d :: name) (END_OF_FILE, "") =
              last name (END_OF_FILE, "")) as ->; [|exact Hend].
      destruct Hd; reflexivity.
    + rewrite Hrun. cbn [name_so_far texts]. rewrite with_tokens_twice.
      rewrite !append_assoc. reflexivity.
  - exists [t; d], r2. repeat split.
    + now constructor.
    + unfold name_ends. cbn [last fst]. rewrite Ed. cbn [token_eqb dhcp_token_beq].
      now rewrite El2.
    + destruct f as [|f']; [simpl in Hf; lia|].
      rewrite parse_host_name_loop_stop by exact El2.
      cbn [texts]. rewrite !append_assoc, append_empty_r. reflexivity.
Qed.

(** What [parse_host_name] does on every state. *)
Lemma parse_host_name_spec c :
  (is_label (first_token (tokens c)) = false ->
     parse_host_name c = Done (None, c))
  /\ (is_label (first_token (tokens c)) = true ->
      exists name rest,
        dotted name /\ tokens c = name ++ rest /\ name_ends name rest = true /\
        parse_host_name c = Done (Some (texts name), with_tokens c rest)).
Proof.
  unfold parse_host_name, bind, remaining. split.
  - apply parse_host_name_loop_stop.
  - intro Hl.
    destruct (parse_host_name_loop_grammar (S (List.length (tokens c))) None c)
      as (name & rest & H); [lia|exact Hl|].
    now exists name, rest.
Qed.

(** X4. [parse_host_name] follows the grammar in its comment, with
    numbers among the labels.  The call never ends in an error.  When
    the first token is neither an identifier nor a number it returns
    NULL and consumes nothing.  Otherwise it consumes a run of tokens
    of the form label (DOT label)* with an optional final DOT, as long
    as it can (no label follows a final dot, no dot a final label),
    and the name is the texts of all the consumed tokens, the dots
    included, one after the other. *)
Theorem parse_host_name_grammar :
  forall c,
    (is_label (first_token (tokens c)) = false ->
       parse_host_name c = Done (None, c))
    /\ (is_label (first_token (tokens c)) = true ->
        exists name rest,
          dotted name /\ tokens c = name ++ rest /\ name_ends name rest = true /\
          parse_host_name c = Done (Some (texts name), with_tokens c rest)).
Proof. exact parse_host_name_spec. Qed.

Lemma parse_host_name_grammar_witness :
  exists name rest,
    dotted name /\
    [(NAME, "ns1"); (DOT, "."); (NAME, "example"); (DOT, "."); (SEMI, ";")]
      = name ++ rest /\
    name_ends name rest = true /\
    parse_host_name
      (lexed [(NAME, "ns1"); (DOT, "."); (NAME, "example"); (DOT, "."); (SEMI, ";")])
    = Done (Some (texts name),
            with_tokens
              (lexed [(NAME, "ns1"); (DOT, "."); (NAME, "example"); (DOT, ".");
                      (SEMI, ";")]) rest).
Proof.
  apply (proj2 (parse_host_name_grammar
           (lexed [(NAME, "ns1"); (DOT, "."); (NAME, "example"); (DOT, ".");
                   (SEMI, ";")]))).
  reflexivity.
Defined.

(* ------------------------------------------------------------------ *)
(** ** parse_ip_addr_or_hostname and parse_ip_addr                      *)
(* ------------------------------------------------------------------ *)

Section AddressOrName.
Variable gethostbyname : string -> option (list (list Z)).
Variable inet_ntop : list Z -> option string.

Local Notation addr_or_name := (parse_ip_addr_or_hostname gethostbyname inet_ntop).

Lemma looks_like_ip_address_spec c :
  token_eqb (first_token (tokens c)) NUMBER = true ->
  looks_like_ip_address c = Done (ip_address_ahead (tokens c), c).
Proof.
  unfold looks_like_ip_address, ip_address_ahead. intro H.
  destruct (tokens c) as [|[k0 s0] r0]; [reflexivity|].
  cbn [first_token fst] in H. apply token_eqb_eq in H. subst k0.
  destruct r0 as [|[[] s1] [|[[] s2] r]]; reflexivity.
Qed.

(** The end of the function: the address is printed, or the call is
    fatal. *)
Lemma print_address_some b c o c' :
  match inet_ntop b with
  | None => parse_error "can't print IP address"
  | Some buf => ret (Some buf)
  end c = Done (o, c') ->
  exists text, inet_ntop b = Some text /\ o = Some text /\ c' = c.
Proof.
  destruct (inet_ntop b) as [text|] eqn:E; [|discriminate].
  intro H. injection H as <- <-. now exists text.
Qed.

Lemma no_address_fatal (t : dhcp_token * string) c :
  ((if negb (token_eqb (fst t) RBRACE) && negb (token_eqb (fst t) LBRACE)
    then next_token ;;; ret tt else ret tt) ;;;
   @parse_error (option string) "%s (%d): expecting IP address or hostname") c
  = Fatal "%s (%d): expecting IP address or hostname".
Proof.
  unfold bind.
  destruct (negb (token_eqb (fst t) RBRACE) && negb (token_eqb (fst t) LBRACE)).
  - unfold next_token. destruct (tokens c); reflexivity.
  - reflexivity.
Qed.

Lemma addr_or_name_never_null check_multi c o c' :
  addr_or_name check_multi c = Done (o, c') ->
  exists bin text, inet_ntop bin = Some text /\ o = Some text.
Proof.
  unfold parse_ip_addr_or_hostname. intro H.
  inv_bind_as H t c0 Et.
  destruct (peek_token_first c) as (text & Hpeek & _).
  rewrite Hpeek in Et. injection Et as <- <-. cbn [fst] in H.
  inv_bind_as H bin c1 Ebin.
  destruct bin as [b|].
  - apply print_address_some in H. destruct H as (tx & Hi & Ho & _).
    now exists b, tx.
  - assert (c1 = c) as ->.
    { destruct (token_eqb (first_token (tokens c)) NUMBER) eqn:En;
        [|now injection Ebin].
      unfold bind in Ebin. rewrite looks_like_ip_address_spec in Ebin by exact En.
      destruct (ip_address_ahead (tokens c)); [|now injection Ebin].
      destruct (parse_numeric_aggregate 4 DOT 10 8 c) as [[? ?]| | |];
        discriminate Ebin. }
    destruct (is_identifier (first_token (tokens c))
              || token_eqb (first_token (tokens c)) NUMBER) eqn:El.
    + destruct (parse_host_name_spec c) as [_ Hgo].
      destruct (Hgo El) as (name & rest & _ & _ & _ & Hrun).
      unfold bind at 1 in H. rewrite Hrun in H.
      destruct (gethostbyname (texts name)) as [[|a more]|]; try discriminate H.
      unfold bind at 1 in H.
      match type of H with
      | match ?m ?c with _ => _ end = _ => destruct (m c) as [[u c2]| | |] eqn:Ec
      end; try discriminate H.
      apply print_address_some in H. destruct H as (tx & Hi & Ho & _).
      now exists a, tx.
    + rewrite (no_address_fatal (first_token (tokens c), text)) in H.
      discriminate H.
Qed.

Lemma valid_decimal_is_number size n :
  valid_number 10 size n -> fst n = NUMBER.
Proof.
  intros [H _]. unfold not_numeric_token in H. cbn [Z.eqb Pos.eqb negb orb] in H.
  rewrite andb_true_r in H. apply negb_false_iff in H. now apply token_eqb_eq.
Qed.

(** NUMBER DOT NUMBER at the head: the address is read, the resolver is
    not asked. *)
Lemma addr_or_name_reads_address check_multi c n1 n2 s more :
  fst n1 = NUMBER -> fst n2 = NUMBER ->
  tokens c = n1 :: (DOT, s) :: n2 :: more ->
  addr_or_name check_multi c =
    (r <- parse_numeric_aggregate 4 DOT 10 8 ;;
     match inet_ntop (fst r) with
     | None => parse_error "can't print IP address"
     | Some buf => ret (Some buf)
     end) c.
Proof.
  intros H1 H2 Ht. unfold parse_ip_addr_or_hostname.
  unfold bind at 1. unfold peek_token. rewrite Ht. cbn [fst]. rewrite H1.
  cbn [token_eqb dhcp_token_beq].
  unfold bind at 1. unfold bind at 1.
  rewrite looks_like_ip_address_spec by (rewrite Ht; cbn [first_token]; now rewrite H1).
  assert (ip_address_ahead (tokens c) = true) as ->.
  { rewrite Ht. unfold ip_address_ahead. destruct n1 as [k1 t1], n2 as [k2 t2].
    cbn [fst] in H1, H2. now subst. }
  unfold bind.
  destruct (parse_numeric_aggregate 4 DOT 10 8 c) as [[r c1]| | |]; reflexivity.
Qed.

Lemma addr_or_name_address check_multi c n1 n2 n3 n4 s rest :
  Forall (valid_number 10 8) [n1; n2; n3; n4] ->
  tokens c = n1 :: separated (DOT, s) [n2; n3; n4] ++ rest ->
  addr_or_name check_multi c =
    match inet_ntop (encode_numbers 10 8 [n1; n2; n3; n4]) with
    | Some text => Done (Some text, with_tokens c rest)
    | None => Fatal "can't print IP address"
    end.
Proof.
  intros Hv Ht.
  assert (H1 : fst n1 = NUMBER).
  { apply (valid_decimal_is_number 8). now inversion Hv. }
  assert (H2 : fst n2 = NUMBER).
  { apply (valid_decimal_is_number 8). inversion Hv as [|? ? _ Hv']. now inversion Hv'. }
  rewrite (addr_or_name_reads_address check_multi c n1 n2 s
             ((DOT, s) :: n3 :: (DOT, s) :: n4 :: rest) H1 H2 Ht).
  unfold bind.
  rewrite (aggregate_exact 4 DOT s 10 8 n1 [n2; n3; n4] c rest)
    by (try assumption; try reflexivity; lia).
  cbn [fst]. destruct (inet_ntop (encode_numbers 10 8 [n1; n2; n3; n4])); reflexivity.
Qed.

Lemma addr_or_name_short_address check_multi c n1 n2 s rest :
  Forall (valid_number 10 8) [n1; n2] ->
  tokens c = n1 :: (DOT, s) :: n2 :: rest ->
  first_token rest <> DOT ->
  addr_or_name check_multi c = Fatal "too few numbers.".
Proof.
  intros Hv Ht Hr.
  assert (H1 : fst n1 = NUMBER).
  { apply (valid_decimal_is_number 8). now inversion Hv. }
  assert (H2 : fst n2 = NUMBER).
  { apply (valid_decimal_is_number 8). inversion Hv as [|? ? _ Hv']. now inversion Hv'. }
  rewrite (addr_or_name_reads_address check_multi c n1 n2 s rest H1 H2 Ht).
  unfold bind.
  rewrite (aggregate_too_few 4 DOT s 10 8 n1 [n2]) with (rest := rest);
    try assumption; try reflexivity; simpl; lia.
Qed.

(** Without NUMBER DOT NUMBER at the head, a label starts a host name,
    which goes to the resolver. *)
Lemma addr_or_name_hostname check_multi c name c1 :
  is_label (first_token (tokens c)) = true ->
  ip_address_ahead (tokens c) = false ->
  parse_host_name c = Done (Some name, c1) ->
  addr_or_name check_multi c =
    match gethostbyname name with
    | None | Some [] => Fatal "%s: host unknown."
    | Some (a :: more) =>
        match inet_ntop a with
        | None => Fatal "can't print IP address"
        | Some text =>
            Done (Some text,
                  if check_multi && negb (Nat.eqb (List.length more) 0)
                  then Parse (tokens c1)
                         (pending c1 ++ [multiple_addresses name])
                         (issue_counter c1) (stack c1) (lose c1)
                  else c1)
        end
    end.
Proof.
  intros Hl Ha Hn. unfold parse_ip_addr_or_hostname.
  destruct (peek_token_first c) as (text & Hpeek & _).
  unfold bind at 1. rewrite Hpeek. cbn [fst].
  assert (Hbin : (if token_eqb (first_token (tokens c)) NUMBER
                  then ipaddr <- looks_like_ip_address ;;
                       (if ipaddr
                        then r <- parse_numeric_aggregate 4 DOT 10 8 ;;
                             ret (Some (fst r))
                        else ret None)
                  else ret None) c = Done (None, c)).
  { destruct (token_eqb (first_token (tokens c)) NUMBER) eqn:En; [|reflexivity].
    unfold bind. rewrite looks_like_ip_address_spec by exact En.
    rewrite Ha. reflexivity. }
  unfold bind at 1. rewrite Hbin.
  unfold is_label in Hl. rewrite Hl.
  unfold bind at 1. rewrite Hn.
  destruct (gethostbyname name) as [[|a more]|]; try reflexivity.
  unfold bind, add_pending, ret.
  destruct (check_multi && negb (Nat.eqb (List.length more) 0));
    destruct (inet_ntop a); reflexivity.
Qed.
End AddressOrName.

Ltac forall_list :=
  repeat (apply Forall_cons; [assumption|]); apply Forall_nil.

(** X5. [parse_ip_addr_or_hostname] never returns NULL: whenever the
    call returns, what it returns is a text that [inet_ntop] printed
    for some address.  (With a first token that is an identifier or a
    number, [parse_host_name] cannot return NULL, and every other way
    without an address ends in a fatal error.)  So the tests of its
    result against NULL in [parse_zone] and in [parse_config_data]
    never fire. *)
Theorem ip_addr_or_hostname_never_null :
  forall gethostbyname inet_ntop check_multi c o c',
    parse_ip_addr_or_hostname gethostbyname inet_ntop check_multi c = Done (o, c') ->
    exists bin text, inet_ntop bin = Some text /\ o = Some text.
Proof. intros. eapply addr_or_name_never_null; eassumption. Qed.

Lemma ip_addr_or_hostname_never_null_witness :
  exists bin text,
    (fun _ : list Z => Some "192.0.2.1") bin = Some text /\
    Some "192.0.2.1" = Some text.
Proof.
  apply (ip_addr_or_hostname_never_null
           (fun _ => Some [[192; 0; 2; 1]]) (fun _ => Some "192.0.2.1") false
           (lexed [(NAME, "ns1"); (DOT, "."); (NAME, "example"); (SEMI, ";")])
           (Some "192.0.2.1") (lexed [(SEMI, ";")])).
  reflexivity.
Defined.

(** X6. An address is read without the resolver.  When the input starts
    with four decimal numbers that fit a byte, with dots between them,
    [parse_ip_addr] returns the four bytes and leaves what follows, and
    [parse_ip_addr_or_hostname] returns what [inet_ntop] prints for
    these four bytes, whatever the resolver and [check_multi] (it is
    fatal if [inet_ntop] fails).  NUMBER DOT NUMBER at the head commits
    the call to an address: when no third dot follows, the call ends in
    "too few numbers." and no host name is tried. *)
Theorem ip_address_read_without_resolver :
  forall gethostbyname inet_ntop check_multi c n1 n2 s,
    valid_number 10 8 n1 -> valid_number 10 8 n2 ->
    (forall n3 n4 rest,
       valid_number 10 8 n3 -> valid_number 10 8 n4 ->
       tokens c = n1 :: separated (DOT, s) [n2; n3; n4] ++ rest ->
       parse_ip_addr c =
         Done (encode_numbers 10 8 [n1; n2; n3; n4], with_tokens c rest)
       /\ parse_ip_addr_or_hostname gethostbyname inet_ntop check_multi c =
            match inet_ntop (encode_numbers 10 8 [n1; n2; n3; n4]) with
            | Some text => Done (Some text, with_tokens c rest)
            | None => Fatal "can't print IP address"
            end)
    /\ (forall rest,
          tokens c = n1 :: (DOT, s) :: n2 :: rest ->
          first_token rest <> DOT ->
          parse_ip_addr_or_hostname gethostbyname inet_ntop check_multi c =
            Fatal "too few numbers.").
Proof.
  intros g i cm c n1 n2 s H1 H2. split.
  - intros n3 n4 rest H3 H4 Ht. split.
    + unfold parse_ip_addr, bind.
      rewrite (aggregate_exact 4 DOT s 10 8 n1 [n2; n3; n4] c rest)
        by (try assumption; try reflexivity; try lia; forall_list).
      reflexivity.
    + apply (addr_or_name_address g i cm c n1 n2 n3 n4 s rest);
        [forall_list|exact Ht].
  - intros rest Ht Hr.
    apply (addr_or_name_short_address g i cm c n1 n2 s rest);
      [forall_list|exact Ht|exact Hr].
Qed.

Lemma ip_address_read_without_resolver_witness :
  parse_ip_addr_or_hostname no_resolver (fun _ => Some "10.0.0.1") true
    (lexed [(NUMBER, "10"); (DOT, "."); (NUMBER, "0"); (DOT, "."); (NUMBER, "0");
            (DOT, "."); (NUMBER, "1"); (SEMI, ";")])
  = Done (Some "10.0.0.1", lexed [(SEMI, ";")]).
Proof.
  assert (V : forall t, In t ["10"; "0"; "1"] -> valid_number 10 8 (NUMBER, t)).
  { intros t [<-|[<-|[<-|[]]]]; (split; [reflexivity|eexists; reflexivity]). }
  apply (proj2 (proj1 (ip_address_read_without_resolver
           no_resolver (fun _ => Some "10.0.0.1") true
           (lexed [(NUMBER, "10"); (DOT, "."); (NUMBER, "0"); (DOT, ".");
                   (NUMBER, "0"); (DOT, "."); (NUMBER, "1"); (SEMI, ";")])
           (NUMBER, "10") (NUMBER, "0") "."
           (V "10" ltac:(simpl; auto)) (V "0" ltac:(simpl; auto)))
         (NUMBER, "0") (NUMBER, "1") [(SEMI, ";")]
         (V "0" ltac:(simpl; auto)) (V "1" ltac:(simpl; auto)) eq_refl)).
Defined.

(** X7. A host name goes to the resolver.  When the first token is an
    identifier or a number and the input does not start with
    NUMBER DOT NUMBER, the name that [parse_host_name] reads is looked
    up: an unknown host, or one without address, is a fatal error
    ("host unknown"); otherwise the FIRST address is printed by
    [inet_ntop] and returned, and the comment on multiple addresses,
    which names the host ("/// <name> resolves into multiple
    addresses", cut to the 127 characters that [msg] holds), is left
    waiting exactly when [check_multi] is set and the host has more
    than one address.  Nothing else of the state changes. *)
Theorem host_name_resolved :
  forall gethostbyname inet_ntop check_multi c name c1,
    is_label (first_token (tokens c)) = true ->
    ip_address_ahead (tokens c) = false ->
    parse_host_name c = Done (Some name, c1) ->
    parse_ip_addr_or_hostname gethostbyname inet_ntop check_multi c =
      match gethostbyname name with
      | None | Some [] => Fatal "%s: host unknown."
      | Some (a :: more) =>
          match inet_ntop a with
          | None => Fatal "can't print IP address"
          | Some text =>
              Done (Some text,
                    if check_multi && negb (Nat.eqb (List.length more) 0)
                    then Parse (tokens c1)
                           (pending c1 ++ [multiple_addresses name])
                           (issue_counter c1) (stack c1) (lose c1)
                    else c1)
          end
      end.
Proof. intros. now apply addr_or_name_hostname. Qed.

Lemma host_name_resolved_witness :
  parse_ip_addr_or_hostname
    (fun _ => Some [[192; 0; 2; 1]; [192; 0; 2; 2]])
    (fun b => if Z.eqb (nth 3 b 0) 1 then Some "192.0.2.1" else Some "192.0.2.2")
    true
    (lexed [(NUMBER, "10"); (DOT, "."); (NAME, "example"); (COMMA, ",")])
  = Done (Some "192.0.2.1",
          Parse [(COMMA, ",")]
            ["/// 10.example resolves into multiple addresses"] 0 [] false).
Proof.
  apply (host_name_resolved
           (fun _ => Some [[192; 0; 2; 1]; [192; 0; 2; 2]])
           (fun b => if Z.eqb (nth 3 b 0) 1 then Some "192.0.2.1" else Some "192.0.2.2")
           true
           (lexed [(NUMBER, "10"); (DOT, "."); (NAME, "example"); (COMMA, ",")])
           "10.example" (lexed [(COMMA, ",")])); reflexivity.
Defined.

(* ------------------------------------------------------------------ *)
(** ** convert_num: the texts it accepts                                *)
(* ------------------------------------------------------------------ *)

Lemma digit_value_below base t d :
  0 < base <= 10 ->
  digit_value t = Some d -> (d >=? base) = false ->
  digit_below base t = true.
Proof.
  intros Hb Hd Hlt. unfold digit_value in Hd. unfold digit_below.
  change (char_code "a") with 97 in *. change (char_code "A") with 65 in *.
  change (char_code "0") with 48 in *.
  destruct (Z.geb_spec d base); [discriminate|].
  destruct (Z.geb_spec t 97); [injection Hd as <-; lia|].
  destruct (Z.geb_spec t 65); [injection Hd as <-; lia|].
  destruct (Z.geb_spec t 48); [|discriminate].
  injection Hd as <-. apply andb_true_iff. split; [apply Z.leb_le|apply Z.ltb_lt]; lia.
Qed.

Lemma digit_below_value base t :
  0 < base <= 10 ->
  digit_below base t = true ->
  digit_value t = Some (t - 48) /\ (t - 48 >=? base) = false.
Proof.
  intros Hb H. unfold digit_below in H. change (char_code "0") with 48 in H.
  apply andb_true_iff in H. destruct H as [H1 H2].
  apply Z.leb_le in H1. apply Z.ltb_lt in H2.
  unfold digit_value.
  change (char_code "a") with 97. change (char_code "A") with 65.
  change (char_code "0") with 48.
  destruct (Z.geb_spec t 97); [lia|].
  destruct (Z.geb_spec t 65); [lia|].
  destruct (Z.geb_spec t 48); [|lia].
  split; [reflexivity|]. destruct (Z.geb_spec (t - 48) base); [lia|reflexivity].
Qed.

Lemma deref_c_chars s : (deref s =? 0) = match c_chars s with [] => true | _ => false end.
Proof.
  destruct s as [|ch r]; [reflexivity|]. cbn [deref c_chars].
  destruct (char_code ch =? 0); reflexivity.
Qed.

Lemma convert_digits_sound base :
  0 < base <= 10 ->
  forall ptr val v,
    convert_digits base ptr val = Done v ->
    c_chars ptr <> [] /\ Forall (fun ch => digit_below base ch = true) (c_chars ptr).
Proof.
  intros Hb. induction ptr as [|ch rest IH]; intros val v H; [discriminate H|].
  cbn [convert_digits deref] in H.
  destruct (digit_value (char_code ch)) as [d|] eqn:Ed; [|discriminate H].
  destruct (d >=? base) eqn:Eb; [discriminate H|].
  pose proof (digit_value_below base _ d Hb Ed Eb) as Hch.
  assert (Hnz : (char_code ch =? 0) = false).
  { unfold digit_below in Hch. change (char_code "0") with 48 in Hch.
    apply andb_true_iff in Hch. destruct Hch as [H1 _]. apply Z.leb_le in H1.
    destruct (Z.eqb_spec (char_code ch) 0); [lia|reflexivity]. }
  cbn [c_chars]. rewrite Hnz. split; [discriminate|].
  constructor; [exact Hch|].
  rewrite deref_c_chars in H.
  destruct (c_chars rest) eqn:Er; [constructor|].
  exact (proj2 (IH _ _ H)).
Qed.

Lemma convert_digits_complete base :
  0 < base <= 10 ->
  forall ptr val,
    c_chars ptr <> [] ->
    Forall (fun ch => digit_below base ch = true) (c_chars ptr) ->
    exists v, convert_digits base ptr val = Done v.
Proof.
  intros Hb. induction ptr as [|ch rest IH]; intros val Hne Hall;
    [now contradiction Hne|].
  cbn [c_chars] in Hne, Hall.
  destruct (char_code ch =? 0) eqn:Ez; [now contradiction Hne|].
  inversion Hall as [|? ? Hch Hrest]; subst.
  destruct (digit_below_value base _ Hb Hch) as [Hd Hlt].
  cbn [convert_digits deref]. rewrite Hd, Hlt.
  rewrite deref_c_chars.
  destruct (c_chars rest) eqn:Er; [eexists; reflexivity|].
  apply IH; [discriminate|exact Hrest].
Qed.

Lemma store_num_done negative size v :
  In size [8; 16; 32] -> exists bytes, store_num negative size v = Done bytes.
Proof.
  intros [<-|[<-|[<-|[]]]]; destruct negative; eexists; reflexivity.
Qed.

Lemma convert_num_unsigned_part str base size :
  base <> 0 ->
  convert_num str base size =
    match convert_digits base (unsigned_part str) 0 with
    | Done val =>
        if val >? wrap_u32 (convert_max (fst (scan_sign str)) size)
        then Fatal (exceeds_message base)
        else store_num (fst (scan_sign str)) size val
    | Fatal m => Fatal m
    | Exhausted => Exhausted
    | Outside w => Outside w
    end.
Proof.
  intro Hb. unfold convert_num, unsigned_part.
  destruct (scan_sign str) as [neg p]. cbn [fst snd].
  unfold infer_base. destruct (Z.eqb_spec base 0); [contradiction|reflexivity].
Qed.

Lemma convert_num_empty str base size :
  c_chars (unsigned_part str) = [] ->
  convert_num str base size = Fatal "Bogus number: %s.".
Proof.
  unfold convert_num, unsigned_part.
  destruct (scan_sign str) as [neg p]. cbn [snd]. intro He.
  assert (Hd : deref p =? char_code "0" = false).
  { destruct p as [|ch r]; [reflexivity|]. cbn [c_chars deref] in *.
    destruct (Z.eqb_spec (char_code ch) 0) as [->|]; [reflexivity|discriminate He]. }
  assert (Hi : exists b, infer_base base p = (b, p)).
  { unfold infer_base. rewrite Hd. destruct (base =? 0); eexists; reflexivity. }
  destruct Hi as [b ->].
  destruct p as [|ch r]; [reflexivity|]. cbn [c_chars] in He.
  destruct (Z.eqb_spec (char_code ch) 0) as [E|]; [|discriminate He].
  cbn [convert_digits deref]. rewrite E. reflexivity.
Qed.

(** X8. [convert_num] with a base between 2 and 10 (its callers use 8
    and 10) accepts digit strings only.  After an optional leading
    minus:
    - if the call returns, the text is not empty and every character is
      a decimal digit below the base;
    - conversely, at the widths 8, 16 and 32 a non-empty text of such
      digits is never a "Bogus number": the call returns, or it ends in
      the "exceeds max" error of the range check;
    - whatever the base, an empty text (or a lone minus) ends in
      "Bogus number". *)
Theorem convert_num_accepts_digits_only :
  forall str base size,
    0 < base <= 10 ->
    (forall bytes,
       convert_num str base size = Done bytes ->
       c_chars (unsigned_part str) <> [] /\
       Forall (fun ch => digit_below base ch = true) (c_chars (unsigned_part str)))
    /\ (In size [8; 16; 32] ->
        c_chars (unsigned_part str) <> [] ->
        Forall (fun ch => digit_below base ch = true) (c_chars (unsigned_part str)) ->
        (exists bytes, convert_num str base size = Done bytes)
        \/ convert_num str base size = Fatal (exceeds_message base))
    /\ (forall base', c_chars (unsigned_part str) = [] ->
        convert_num str base' size = Fatal "Bogus number: %s.").
Proof.
  intros str base size Hb. split; [|split].
  - intros bytes H. rewrite convert_num_unsigned_part in H by lia.
    destruct (convert_digits base (unsigned_part str) 0) as [v| | |] eqn:E;
      try discriminate H.
    eapply convert_digits_sound; eassumption.
  - intros Hs Hne Hall. rewrite convert_num_unsigned_part by lia.
    destruct (convert_digits_complete base Hb (unsigned_part str) 0 Hne Hall)
      as [v ->].
    destruct (v >? wrap_u32 (convert_max (fst (scan_sign str)) size));
      [now right|left].
    now apply store_num_done.
  - intros base' He. now apply convert_num_empty.
Qed.

Lemma convert_num_accepts_digits_only_witness :
  c_chars (unsigned_part "-128") <> [] /\
  Forall (fun ch => digit_below 10 ch = true) (c_chars (unsigned_part "-128")).
Proof.
  apply (proj1 (convert_num_accepts_digits_only "-128" 10 8 ltac:(lia)) [128]).
  reflexivity.
Defined.

(* ------------------------------------------------------------------ *)
(** ** parse_cshl                                                       *)
(* ------------------------------------------------------------------ *)

Lemma hex_byte_read_back b :
  0 <= b < 256 -> convert_num (hex_byte b) 16 8 = Done [b].
Proof.
  intro Hb.
  assert (all : forallb
            (fun n => match convert_num (hex_byte (Z.of_nat n)) 16 8 with
                      | Done [x] => x =? Z.of_nat n
                      | _ => false
                      end) (seq 0 256) = true) by (vm_compute; reflexivity).
  rewrite forallb_forall in all.
  specialize (all (Z.to_nat b)). rewrite Z2Nat.id in all by lia.
  assert (Hin : In (Z.to_nat b) (seq 0 256)) by (apply in_seq; lia).
  specialize (all Hin).
  destruct (convert_num (hex_byte b) 16 8) as [[|x [|y l]]| | |]; try discriminate all.
  apply Z.eqb_eq in all. now subst.
Qed.

Lemma valid_hex_kind n :
  valid_number 16 8 n -> fst n = NUMBER \/ fst n = NUMBER_OR_NAME.
Proof.
  intros [H _]. unfold not_numeric_token in H.
  destruct (fst n); try (now left); try (now right); discriminate H.
Qed.

Lemma valid_hex_one_byte n :
  valid_number 16 8 n -> exists b, convert_num (snd n) 16 8 = Done [b]
                                   /\ number_bytes 16 8 n = [b].
Proof.
  intro Hv. pose proof (valid_number_bytes _ _ _ Hv) as Hb.
  pose proof (convert_num_length (snd n) 16 8 _ (or_introl eq_refl) Hb) as Hl.
  destruct (number_bytes 16 8 n) as [|b [|b' l]]; try discriminate Hl.
  now exists b.
Qed.

(** One turn of the loop of [parse_cshl] on a valid number. *)
Lemma parse_cshl_loop_step f first data c n rest :
  valid_number 16 8 n ->
  tokens c = n :: rest ->
  parse_cshl_loop (S f) first data c =
    let tbuf := if first then hex_byte (hd 0 (number_bytes 16 8 n))
                else String.append ":" (hex_byte (hd 0 (number_bytes 16 8 n))) in
    match rest with
    | (COLON, _) :: rest' =>
        parse_cshl_loop f false (String.append data tbuf) (with_tokens c rest')
    | _ => Done (String.append data tbuf, with_tokens c rest)
    end.
Proof.
  intros Hv Ht. cbn [parse_cshl_loop].
  unfold bind at 1. unfold next_token. rewrite Ht. cbn [fst snd].
  assert (negb (token_eqb (fst n) NUMBER) && negb (token_eqb (fst n) NUMBER_OR_NAME)
          = false) as ->.
  { destruct (valid_hex_kind n Hv) as [-> | ->]; reflexivity. }
  unfold bind at 1. cbn [error_if ret].
  unfold bind at 1. unfold lift. rewrite (valid_number_bytes _ _ _ Hv).
  unfold bind at 1. unfold peek_token. cbn [tokens].
  destruct rest as [|[k s] rest']; [reflexivity|].
  cbn [fst]. destruct k; try reflexivity.
Qed.

Lemma parse_cshl_loop_run s ns :
  Forall (valid_number 16 8) ns ->
  forall fuel first data c n rest,
    valid_number 16 8 n ->
    tokens c = n :: separated (COLON, s) ns ++ rest ->
    first_token rest <> COLON ->
    (List.length ns < fuel)%nat ->
    parse_cshl_loop fuel first data c =
      Done (String.append data
              (String.append
                 (if first then hex_byte (hd 0 (number_bytes 16 8 n))
                  else String.append ":" (hex_byte (hd 0 (number_bytes 16 8 n))))
                 (colon_hex (encode_numbers 16 8 ns))),
            with_tokens c rest).
Proof.
  induction 1 as [|m ns Hm Hns IH]; intros fuel first data c n rest Hn Ht Hr Hf.
  - destruct fuel as [|f]; [simpl in Hf; lia|].
    cbn [separated flat_map app] in Ht.
    rewrite (parse_cshl_loop_step f first data c n rest Hn Ht). cbv zeta.
    cbn [encode_numbers flat_map colon_hex]. rewrite append_empty_r.
    destruct rest as [|[k t] rest']; [reflexivity|].
    destruct k; try reflexivity. now contradiction Hr.
  - destruct fuel as [|f]; [simpl in Hf; lia|].
    cbn [separated flat_map app] in Ht.
    rewrite (parse_cshl_loop_step f first data c n _ Hn Ht). cbv zeta.
    rewrite (IH f false _ (with_tokens c (m :: separated (COLON, s) ns ++ rest))
               m rest Hm eq_refl Hr) by (simpl in Hf; lia).
    rewrite with_tokens_twice.
    destruct (valid_hex_one_byte m Hm) as (b & _ & Hb).
    unfold encode_numbers. cbn [flat_map]. fold (encode_numbers 16 8 ns).
    rewrite Hb. cbn [hd app colon_hex].
    rewrite !append_assoc. reflexivity.
Qed.

Lemma parse_cshl_run s n ns c rest :
  Forall (valid_number 16 8) (n :: ns) ->
  tokens c = n :: separated (COLON, s) ns ++ rest ->
  first_token rest <> COLON ->
  parse_cshl c = Done (hex_list (encode_numbers 16 8 (n :: ns)), with_tokens c rest).
Proof.
  intros Hv Ht Hr. inversion Hv as [|? ? Hn Hns]; subst.
  unfold parse_cshl, bind, remaining.
  rewrite (parse_cshl_loop_run s ns Hns _ true "" c n rest Hn Ht Hr).
  2:{ rewrite Ht. cbn [List.length]. rewrite length_app, separated_length. lia. }
  destruct (valid_hex_one_byte n Hn) as (b & _ & Hb).
  unfold encode_numbers. cbn [flat_map]. fold (encode_numbers 16 8 ns).
  rewrite Hb. reflexivity.
Qed.

Lemma hex_token_valid p :
  hex_kind p ->
  valid_number 16 8 (hex_token p) /\ number_bytes 16 8 (hex_token p) = [snd p].
Proof.
  intros [Hk Hb]. pose proof (hex_byte_read_back (snd p) Hb) as Hr.
  unfold hex_token. split; [split|].
  - cbn [fst]. destruct Hk as [-> | ->]; reflexivity.
  - now exists [snd p].
  - unfold number_bytes. cbn [snd]. now rewrite Hr.
Qed.

Lemma hex_tokens_bytes bs :
  Forall hex_kind bs ->
  Forall (valid_number 16 8) (map hex_token bs)
  /\ encode_numbers 16 8 (map hex_token bs) = map snd bs.
Proof.
  induction 1 as [|b bs Hb _ [IH1 IH2]]; [split; [constructor|reflexivity]|].
  destruct (hex_token_valid b Hb) as [Hv Hn].
  cbn [map]. split; [now constructor|].
  unfold encode_numbers in *. cbn [flat_map]. rewrite Hn, IH2. reflexivity.
Qed.

(** X9. [parse_cshl] prints what it reads in a normal form, and reads
    its own output back.
    - What "%02hhx" prints for a byte is read back by [convert_num] in
      base 16 at width 8 as that byte.
    - On a run of hexadecimal numbers that fit a byte, with colons
      between them and no colon after the last, the call returns the
      bytes printed with two lower-case hexadecimal digits each and
      colons between them, and leaves what follows the run.
    - On the tokens of such a text (one number token for each two-digit
      group) the call returns the same text: the normal form is a fixed
      point. *)
Theorem parse_cshl_normal_form :
  (forall b, 0 <= b < 256 -> convert_num (hex_byte b) 16 8 = Done [b])
  /\ (forall s n ns c rest,
        Forall (valid_number 16 8) (n :: ns) ->
        tokens c = n :: separated (COLON, s) ns ++ rest ->
        first_token rest <> COLON ->
        parse_cshl c =
          Done (hex_list (encode_numbers 16 8 (n :: ns)), with_tokens c rest))
  /\ (forall b bs c rest,
        Forall hex_kind (b :: bs) ->
        tokens c = hex_tokens (b :: bs) ++ rest ->
        first_token rest <> COLON ->
        parse_cshl c = Done (hex_list (map snd (b :: bs)), with_tokens c rest)).
Proof.
  split; [exact hex_byte_read_back|split].
  - intros. now apply (parse_cshl_run s).
  - intros b bs c rest Hk Ht Hr.
    destruct (hex_tokens_bytes (b :: bs) Hk) as [Hv He].
    cbn [map] in Hv.
    rewrite (parse_cshl_run ":" (hex_token b) (map hex_token bs) c rest Hv Ht Hr).
    change (hex_token b :: map hex_token bs) with (map hex_token (b :: bs)).
    now rewrite He.
Qed.

Lemma parse_cshl_normal_form_witness :
  parse_cshl (lexed [(NUMBER, "0"); (COLON, ":"); (NUMBER_OR_NAME, "A");
                     (COLON, ":"); (NUMBER_OR_NAME, "ff"); (SEMI, ";")])
  = Done ("00:0a:ff", lexed [(SEMI, ";")]).
Proof.
  assert (V : Forall (valid_number 16 8)
                [(NUMBER, "0"); (NUMBER_OR_NAME, "A"); (NUMBER_OR_NAME, "ff")]).
  { repeat (apply Forall_cons; [split; [reflexivity|eexists; reflexivity]|]).
    apply Forall_nil. }
  apply (proj1 (proj2 parse_cshl_normal_form) ":" (NUMBER, "0")
           [(NUMBER_OR_NAME, "A"); (NUMBER_OR_NAME, "ff")]
           (lexed [(NUMBER, "0"); (COLON, ":"); (NUMBER_OR_NAME, "A");
                   (COLON, ":"); (NUMBER_OR_NAME, "ff"); (SEMI, ";")])
           [(SEMI, ";")] V eq_refl).
  discriminate.
Defined.

(* ------------------------------------------------------------------ *)
(** ** parse_base64                                                     *)
(* ------------------------------------------------------------------ *)

Lemma parse_base64_loop_run u rest ts :
  Forall (fun x => valid_base64 (snd x) = true) ts ->
  valid_base64 (snd u) = false ->
  forall fuel r c t,
    tokens c = t :: ts ++ u :: rest ->
    (List.length ts < fuel)%nat ->
    parse_base64_loop fuel r c =
      Done (String.append r (texts (t :: ts)), with_tokens c (u :: rest)).
Proof.
  intros Hts Hu. induction Hts as [|x ts Hx _ IH]; intros fuel r c t Ht Hf.
  - destruct fuel as [|f]; [simpl in Hf; lia|].
    cbn [parse_base64_loop]. unfold bind, next_token, peek_token.
    rewrite Ht. cbn [tokens app fst snd]. rewrite Hu.
    cbn [texts]. rewrite append_empty_r. reflexivity.
  - destruct fuel as [|f]; [simpl in Hf; lia|].
    cbn [parse_base64_loop]. unfold bind at 1. unfold next_token.
    rewrite Ht. unfold bind at 1. unfold peek_token. cbn [tokens app fst snd].
    rewrite Hx.
    change (Parse (x :: ts ++ u :: rest) (pending c) (issue_counter c) (stack c) (lose c))
      with (with_tokens c (x :: ts ++ u :: rest)).
    rewrite (IH f _ (with_tokens c (x :: ts ++ u :: rest)) x eq_refl)
      by (simpl in Hf; lia).
    rewrite with_tokens_twice. cbn [texts].
    rewrite !append_assoc. reflexivity.
Qed.

Lemma base64_alphabet ch :
  0 <= ch < 256 -> invalid_base64_char ch = negb (base64_character ch).
Proof.
  intro Hb.
  assert (all : forallb
            (fun n => Bool.eqb (invalid_base64_char (Z.of_nat n))
                        (negb (base64_character (Z.of_nat n))))
            (seq 0 256) = true) by (vm_compute; reflexivity).
  rewrite forallb_forall in all.
  specialize (all (Z.to_nat ch)). rewrite Z2Nat.id in all by lia.
  apply Bool.eqb_prop. apply all. apply in_seq. lia.
Qed.

Lemma char_code_range ch : 0 <= char_code ch < 256.
Proof.
  unfold char_code. pose proof (N_ascii_bounded ch) as H. lia.
Qed.

Lemma valid_base64_alphabet s :
  valid_base64 s = forallb base64_character (c_chars s).
Proof.
  induction s as [|ch r IH]; [reflexivity|].
  cbn [valid_base64 c_chars].
  destruct (char_code ch =? 0); [reflexivity|].
  cbn [forallb]. rewrite (base64_alphabet _ (char_code_range ch)), IH.
  destruct (base64_character (char_code ch)); reflexivity.
Qed.

(** X10. [parse_base64] does not decode: it returns the texts of the
    tokens it consumes, one after the other.  It takes the first token
    whatever it is, then every following token as long as the text of
    the token that comes next is made of characters of the base64
    alphabet (A-Z, a-z, 0-9, '+', '/') and of the padding '=' only; the
    first token with another character (a semicolon, say) is left
    unread.  The table [from64] marks exactly these characters. *)
Theorem parse_base64_collects_tokens :
  (forall c t ts u rest,
     Forall (fun x => valid_base64 (snd x) = true) ts ->
     valid_base64 (snd u) = false ->
     tokens c = t :: ts ++ u :: rest ->
     parse_base64 c = Done (Some (texts (t :: ts)), with_tokens c (u :: rest)))
  /\ (forall ch, 0 <= ch < 256 ->
        invalid_base64_char ch = negb (base64_character ch))
  /\ (forall s, valid_base64 s = forallb base64_character (c_chars s)).
Proof.
  split; [|split].
  - intros c t ts u rest Hts Hu Ht.
    unfold parse_base64, bind, remaining.
    rewrite (parse_base64_loop_run u rest ts Hts Hu _ "" c t Ht).
    + reflexivity.
    + rewrite Ht. cbn [List.length]. rewrite length_app. lia.
  - exact base64_alphabet.
  - exact valid_base64_alphabet.
Qed.

Lemma parse_base64_collects_tokens_witness :
  parse_base64
    (lexed [(NAME, "abc"); (PLUS, "+"); (NAME, "def"); (SLASH, "/");
            (NUMBER_OR_NAME, "9z"); (EQUAL, "="); (EQUAL, "="); (SEMI, ";");
            (RBRACE, "}")])
  = Done (Some "abc+def/9z==", lexed [(SEMI, ";"); (RBRACE, "}")]).
Proof.
  apply (proj1 parse_base64_collects_tokens
           (lexed [(NAME, "abc"); (PLUS, "+"); (NAME, "def"); (SLASH, "/");
                   (NUMBER_OR_NAME, "9z"); (EQUAL, "="); (EQUAL, "="); (SEMI, ";");
                   (RBRACE, "}")])
           (NAME, "abc")
           [(PLUS, "+"); (NAME, "def"); (SLASH, "/"); (NUMBER_OR_NAME, "9z");
            (EQUAL, "="); (EQUAL, "=")]
           (SEMI, ";") [(RBRACE, "}")]).
  - repeat (apply Forall_cons; [reflexivity|]). apply Forall_nil.
  - reflexivity.
  - reflexivity.
Defined.

(* ------------------------------------------------------------------ *)
(** ** parse_key                                                        *)
(* ------------------------------------------------------------------ *)

Lemma only_tokens_refl c : only_tokens c c.
Proof. repeat split. Qed.

Lemma only_tokens_trans a b c : only_tokens a b -> only_tokens b c -> only_tokens a c.
Proof.
  intros (H1 & H2 & H3 & H4) (G1 & G2 & G3 & G4).
  repeat split; congruence.
Qed.

Lemma only_tokens_with c rest : only_tokens c (with_tokens c rest).
Proof. repeat split. Qed.

Lemma next_token_only c t c' : next_token c = Done (t, c') -> only_tokens c c'.
Proof.
  unfold next_token. destruct (tokens c); intro H; injection H as <- <-;
    repeat split.
Qed.

Lemma peek_token_same c t c' : peek_token c = Done (t, c') -> c' = c.
Proof.
  unfold peek_token. destruct (tokens c); intro H; now injection H as <- <-.
Qed.

Lemma parse_semi_only c u c' : parse_semi c = Done (u, c') -> only_tokens c c'.
Proof.
  unfold parse_semi. intro H. inv_bind H.
  apply next_token_only in E.
  destruct (negb (token_eqb (fst p) SEMI)); [discriminate H|].
  injection H as _ <-. exact E.
Qed.

Lemma expect_only tok msg c u c' : expect tok msg c = Done (u, c') -> only_tokens c c'.
Proof.
  unfold expect. intro H. inv_bind H.
  apply next_token_only in E.
  destruct (negb (token_eqb (fst p) tok)); [discriminate H|].
  injection H as _ <-. exact E.
Qed.

Lemma parse_host_name_only c o c' :
  parse_host_name c = Done (o, c') -> only_tokens c c'.
Proof.
  intro H. destruct (parse_host_name_spec c) as [Hstop Hgo].
  destruct (is_label (first_token (tokens c))).
  - destruct (Hgo eq_refl) as (name & rest & _ & _ & _ & Hrun).
    rewrite Hrun in H. injection H as _ <-. apply only_tokens_with.
  - rewrite (Hstop eq_refl) in H. injection H as _ <-. apply only_tokens_refl.
Qed.

Lemma parse_base64_loop_only :
  forall fuel r c x c',
    parse_base64_loop fuel r c = Done (x, c') -> only_tokens c c'.
Proof.
  induction fuel as [|f IH]; intros r c x c' H; [discriminate H|].
  cbn [parse_base64_loop] in H.
  inv_bind_as H t c1 E1. apply next_token_only in E1.
  inv_bind_as H p c2 E2. apply peek_token_same in E2. subst c2.
  destruct (valid_base64 (snd p)).
  - apply IH in H. eapply only_tokens_trans; eassumption.
  - injection H as _ <-. exact E1.
Qed.

Lemma parse_base64_some c o c' :
  parse_base64 c = Done (o, c') -> (exists sec, o = Some sec) /\ only_tokens c c'.
Proof.
  unfold parse_base64. intro H. inv_bind H. inv_bind H.
  unfold remaining in E. injection E as _ <-.
  injection H as <- <-. split; [eexists; reflexivity|].
  eapply parse_base64_loop_only; eassumption.
Qed.

Lemma not_contained_not_in (l : list (string * element)) sk cm k :
  mapContains (Element (VMap l) sk cm) k = false -> ~ In k (map fst l).
Proof.
  unfold mapContains. cbn [content]. intros H Hin.
  apply in_map_iff in Hin. destruct Hin as (p & Hp & Hl).
  assert (existsb (fun q => String.eqb (fst q) k) l = true) as Ht.
  { apply existsb_exists. exists p. split; [exact Hl|]. rewrite Hp. apply String.eqb_refl. }
  congruence.
Qed.

Lemma NoDup_snoc (l : list string) k : NoDup l -> ~ In k l -> NoDup (l ++ [k]).
Proof.
  intros Hl Hk. induction Hl as [|x l Hx _ IH]; cbn [app].
  - constructor; [intros []|constructor].
  - constructor.
    + rewrite in_app_iff. intros [H|[H|[]]]; [contradiction|].
      subst. apply Hk. now left.
    + apply IH. intro H. apply Hk. now right.
Qed.

(** A guarded [mapSet] keeps the shape of the key. *)
Lemma key_shape_set key k v :
  key_shape key ->
  mapContains key k = false ->
  key_entry (k, v) ->
  key_shape (mapSet key v k).
Proof.
  intros (name & entries & -> & Hall & Hnd) Hc He.
  exists name, (entries ++ [(k, v)]). repeat split.
  - apply Forall_app. split; [exact Hall|]. constructor; [exact He|constructor].
  - rewrite map_app. cbn [map fst]. apply NoDup_snoc; [exact Hnd|].
    apply not_contained_not_in in Hc. cbn [map fst] in Hc.
    intro H. apply Hc. now right.
Qed.

Lemma parse_key_loop_shape :
  forall fuel key c r c',
    key_shape key ->
    parse_key_loop fuel key c = Done (r, c') ->
    only_tokens c c' /\
    exists key' token, r = Some (key', token) /\ key_shape key'.
Proof.
  induction fuel as [|f IH]; intros key c r c' Hk H; [discriminate H|].
  cbn [parse_key_loop] in H.
  inv_bind_as H t c1 E1. apply next_token_only in E1.
  destruct (fst t) eqn:Et;
    try (injection H as <- <-; split; [exact E1|]; eexists _, _; split;
         [reflexivity|exact Hk]).
  - (* ALGORITHM *)
    inv_bind_as H u1 c2 E2.
    destruct (mapContains key "algorithm") eqn:Ec; [discriminate E2|].
    injection E2 as _ <-.
    inv_bind_as H alg c3 E3. apply parse_host_name_only in E3.
    destruct alg as [alg|]; [|discriminate H].
    inv_bind_as H u2 c4 E4. apply parse_semi_only in E4.
    apply IH in H.
    + destruct H as [Ho Hr]. split; [|exact Hr].
      eauto using only_tokens_trans.
    + apply key_shape_set; [exact Hk|exact Ec|].
      left. split; [reflexivity|]. now exists alg.
  - (* SECRET *)
    inv_bind_as H u1 c2 E2.
    destruct (mapContains key "secret") eqn:Ec; [discriminate E2|].
    injection E2 as _ <-.
    inv_bind_as H sec c3 E3. apply parse_base64_some in E3.
    destruct E3 as [[s ->] E3].
    inv_bind_as H u2 c4 E4. apply parse_semi_only in E4.
    apply IH in H.
    + destruct H as [Ho Hr]. split; [|exact Hr].
      eauto using only_tokens_trans.
    + apply key_shape_set; [exact Hk|exact Ec|].
      right. split; [reflexivity|]. now exists s.
Qed.

Lemma parse_key_spec result c r c' :
  parse_key result c = Done (r, c') ->
  exists key,
    r = Some (remember_key result key) /\ key_shape key
    /\ issue_counter c' = issue_counter c + 1
    /\ pending c' = pending c /\ stack c' = stack c /\ lose c' = lose c.
Proof.
  unfold parse_key. intro H.
  inv_bind_as H u0 c0 E0. unfold issue in E0. injection E0 as _ <-.
  inv_bind_as H t c1 E1. apply peek_token_same in E1. subst c1.
  inv_bind_as H key c2 E2.
  assert (Hkey : key_shape key /\
                 only_tokens (Parse (tokens c) (pending c) (issue_counter c + 1)
                                (stack c) (lose c)) c2).
  { destruct (token_eqb (fst t) STRING).
    - inv_bind_as E2 u c3 E3. apply next_token_only in E3.
      injection E2 as <- <-. split; [|exact E3].
      exists (snd t), []. repeat split; constructor.
    - inv_bind_as E2 n c3 E3. apply parse_host_name_only in E3.
      destruct n as [n|]; [|discriminate E2].
      injection E2 as <- <-. split; [|exact E3].
      exists n, []. repeat split; constructor. }
  destruct Hkey as [Hk Ho].
  inv_bind_as H u1 c3 E3. apply expect_only in E3.
  inv_bind_as H n c4 E4. unfold remaining in E4. injection E4 as _ <-.
  inv_bind_as H lr c5 E5.
  apply (parse_key_loop_shape _ _ _ _ _ Hk) in E5.
  destruct E5 as [Ho5 (key' & token & -> & Hk')].
  inv_bind_as H u2 c6 E6.
  destruct (negb (token_eqb token RBRACE)); [discriminate E6|].
  injection E6 as _ <-.
  inv_bind_as H t2 c7 E7. apply peek_token_same in E7. subst c7.
  inv_bind_as H u3 c8 E8.
  assert (Ho8 : only_tokens c5 c8).
  { destruct (token_eqb (fst t2) SEMI).
    - inv_bind_as E8 u c9 E9. apply next_token_only in E9.
      injection E8 as _ <-. exact E9.
    - injection E8 as _ <-. apply only_tokens_refl. }
  injection H as <- <-.
  exists key'. split; [reflexivity|]. split; [exact Hk'|].
  pose proof (only_tokens_trans _ _ _ Ho
                (only_tokens_trans _ _ _ E3
                   (only_tokens_trans _ _ _ Ho5 Ho8))) as (P1 & P2 & P3 & P4).
  cbn [pending issue_counter stack lose] in *. auto.
Qed.

Lemma find_snoc_none (l : list (string * element)) k v :
  find (fun p => String.eqb (fst p) k) l = None ->
  find (fun p => String.eqb (fst p) k) (l ++ [(k, v)]) = Some (k, v).
Proof.
  induction l as [|p l IH]; cbn [find app fst].
  - now rewrite String.eqb_refl.
  - destruct (String.eqb (fst p) k); [discriminate|exact IH].
Qed.

Lemma find_push_under (l : list (string * element)) k e p :
  find (fun q => String.eqb (fst q) k) l = Some p ->
  find (fun q => String.eqb (fst q) k) (push_under l k e)
    = Some (fst p, listPush (snd p) e).
Proof.
  induction l as [|q l IH]; cbn [find push_under]; [discriminate|].
  destruct (String.eqb (fst q) k) eqn:E.
  - intro H. injection H as <-. cbn [find fst]. now rewrite E.
  - intro H. cbn [find]. rewrite E. now apply IH.
Qed.

Lemma find_push_under_other (l : list (string * element)) k e k' :
  k' <> k ->
  find (fun q => String.eqb (fst q) k') (push_under l k e)
    = find (fun q => String.eqb (fst q) k') l.
Proof.
  intro Hk. induction l as [|q l IH]; cbn [find push_under]; [reflexivity|].
  destruct (String.eqb (fst q) k) eqn:E.
  - cbn [find fst]. destruct (String.eqb (fst q) k') eqn:E'; [|reflexivity].
    apply String.eqb_eq in E, E'. congruence.
  - cbn [find]. now rewrite IH.
Qed.

Lemma find_snoc_other (l : list (string * element)) k v k' :
  k' <> k ->
  find (fun q => String.eqb (fst q) k') (l ++ [(k, v)])
    = find (fun q => String.eqb (fst q) k') l.
Proof.
  intro Hk. induction l as [|q l IH]; cbn [find app fst].
  - destruct (String.eqb_spec k k'); [congruence|reflexivity].
  - destruct (String.eqb (fst q) k'); [reflexivity|exact IH].
Qed.

(** [remember_key] appends the key to the list under "tsig-keys", which
    it creates when the map has none, and touches no other child. *)
Lemma remember_key_appends result key :
  type_of result = ELEMENT_MAP ->
  exists keys,
    mapGet (remember_key result key) "tsig-keys" = Some (listPush keys key)
    /\ (mapGet result "tsig-keys" = Some keys
        \/ (mapGet result "tsig-keys" = None /\ keys = createList)).
Proof.
  unfold remember_key, mapGet, mapSet, mapPush, type_of.
  destruct result as [[| | | |m|] sk cm]; try discriminate. cbn [content]. intros _.
  destruct (find (fun p => String.eqb (fst p) "tsig-keys") m) as [p|] eqn:E.
  - exists (snd p). cbn [content].
    rewrite (find_push_under m "tsig-keys" key p E). cbn [snd]. auto.
  - exists createList. cbn [content].
    rewrite (find_snoc_none m "tsig-keys" _ E). cbn [snd]. auto.
Qed.

Lemma remember_key_other result key k :
  k <> "tsig-keys" ->
  mapGet (remember_key result key) k = mapGet result k.
Proof.
  intro Hk. unfold remember_key.
  destruct (mapGet result "tsig-keys") eqn:E.
  - unfold mapPush, mapGet. destruct result as [[| | | |m|] sk cm]; try reflexivity.
    cbn [content]. now rewrite find_push_under_other.
  - unfold mapSet, mapGet. destruct result as [[| | | |m|] sk cm]; try reflexivity.
    cbn [content]. now rewrite find_snoc_other.
Qed.

Lemma last_char_append s t :
  t <> "" -> last_char (String.append s t) = last_char t.
Proof.
  intro Ht. induction s as [|ch s IH]; [reflexivity|].
  cbn [String.append last_char].
  destruct (String.append s t) eqn:E; [|exact IH].
  destruct s; [cbn in E; contradiction|discriminate E].
Qed.

Lemma qualified_ends_with_dot alg : last_char (qualified alg) = char_code ".".
Proof.
  unfold qualified. destruct (strrchr alg ".");
    rewrite last_char_append by discriminate; reflexivity.
Qed.

Lemma parse_key_loop_repeated f key c k :
  (k = ALGORITHM /\ mapContains key "algorithm" = true
   \/ k = SECRET /\ mapContains key "secret" = true) ->
  first_token (tokens c) = k ->
  exists msg, parse_key_loop (S f) key c = Fatal msg.
Proof.
  intros Hk Ht. cbn [parse_key_loop]. unfold bind at 1. unfold next_token.
  destruct (tokens c) as [|t rest]; cbn [first_token] in Ht.
  - destruct Hk as [[-> _]|[-> _]]; discriminate Ht.
  - cbn [fst]. rewrite Ht.
    destruct Hk as [[-> Hc]|[-> Hc]]; rewrite Hc; eexists; reflexivity.
Qed.

(** X11. [parse_key] never returns ISC_FALSE (the branch under the test
    of the secret against NULL cannot be taken), and when it returns:
    - the key is a flagged map that holds "name" first, then
      "algorithm" and "secret" in the order of the input, each at most
      once (a second "algorithm" or "secret" is a fatal error);
    - an algorithm is stored with a dot added at its end when the name
      has a dot anywhere, even as its last character, and with
      ".SIG-ALG.REG.INT." added otherwise, so the stored name always
      ends in a dot;
    - the key is appended to the list that the result holds under
      "tsig-keys", which is created when there is none; the other
      children of the result are untouched;
    - the issue counter is one more than before, and the waiting
      comments, the stack and the flag [lose] are as before. *)
Theorem parse_key_remembers_key :
  (forall result c r c',
     parse_key result c = Done (r, c') ->
     exists key,
       r = Some (remember_key result key) /\ key_shape key
       /\ issue_counter c' = issue_counter c + 1
       /\ pending c' = pending c /\ stack c' = stack c /\ lose c' = lose c)
  /\ (forall f key c k,
        (k = ALGORITHM /\ mapContains key "algorithm" = true
         \/ k = SECRET /\ mapContains key "secret" = true) ->
        first_token (tokens c) = k ->
        exists msg, parse_key_loop (S f) key c = Fatal msg)
  /\ (forall alg, last_char (qualified alg) = char_code ".")
  /\ (forall result key,
        type_of result = ELEMENT_MAP ->
        exists keys,
          mapGet (remember_key result key) "tsig-keys" = Some (listPush keys key)
          /\ (mapGet result "tsig-keys" = Some keys
              \/ (mapGet result "tsig-keys" = None /\ keys = createList)))
  /\ (forall result key k,
        k <> "tsig-keys" ->
        mapGet (remember_key result key) k = mapGet result k).
Proof.
  split; [|split; [|split; [|split]]].
  - exact parse_key_spec.
  - exact parse_key_loop_repeated.
  - exact qualified_ends_with_dot.
  - exact remember_key_appends.
  - exact remember_key_other.
Qed.

(** A key whose algorithm is written as a fully qualified name: the dot
    is added all the same. *)
Example parse_key_qualified_algorithm :
  parse_key createMap
    (lexed [(NAME, "k1"); (LBRACE, "{");
            (ALGORITHM, "algorithm"); (NAME, "hmac-md5"); (DOT, ".");
            (NAME, "sig-alg"); (DOT, "."); (NAME, "reg"); (DOT, ".");
            (NAME, "int"); (DOT, "."); (SEMI, ";");
            (SECRET, "secret"); (NAME, "abc"); (PLUS, "+"); (NAME, "def");
            (EQUAL, "="); (SEMI, ";");
            (RBRACE, "}"); (SEMI, ";")])
  = Done (Some (Element
            (VMap [("tsig-keys",
                    Element (VList
                      [Element (VMap
                         [("name", createString "k1");
                          ("algorithm", createString "hmac-md5.sig-alg.reg.int..");
                          ("secret", createString "abc+def=")]) true []])
                      false [])]) false []),
          Parse [] [] 1 [] false).
Proof. reflexivity. Qed.

Lemma parse_key_remembers_key_witness :
  exists key,
    Some (remember_key createMap
            (Element (VMap [("name", createString "k1")]) true []))
      = Some (remember_key createMap key)
    /\ key_shape key
    /\ issue_counter (lexed []) + 1 = issue_counter (lexed []) + 1
    /\ pending (Parse [] [] 1 [] false) = pending (lexed [(STRING, "k1"); (LBRACE, "{"); (RBRACE, "}")])
    /\ stack (Parse [] [] 1 [] false) = stack (lexed [(STRING, "k1"); (LBRACE, "{"); (RBRACE, "}")])
    /\ lose (Parse [] [] 1 [] false) = lose (lexed [(STRING, "k1"); (LBRACE, "{"); (RBRACE, "}")]).
Proof.
  apply (proj1 parse_key_remembers_key createMap
           (lexed [(STRING, "k1"); (LBRACE, "{"); (RBRACE, "}")])
           (Some (remember_key createMap
                    (Element (VMap [("name", createString "k1")]) true [])))
           (Parse [] [] 1 [] false)).
  reflexivity.
Defined.

(* ------------------------------------------------------------------ *)
(** ** parse_option_data                                                *)
(* ------------------------------------------------------------------ *)

Lemma parse_option_data_loop_step f o c t rest :
  option_word t = true ->
  tokens c = t :: rest ->
  parse_option_data_loop (S f) o c =
    parse_option_data_loop f
      (OptionText (String.append (data o) (data_word t))
                  (String.append (saved o) (saved_word t))
                  (canon_bool o || canonized t)
                  (has_ignore o || ignore_word t))
      (with_tokens c rest).
Proof.
  intros Hw Ht. unfold option_word in Hw. apply andb_true_iff in Hw.
  destruct Hw as [Hs He]. apply negb_true_iff in Hs, He.
  cbn [parse_option_data_loop]. unfold bind at 1. unfold peek_token. rewrite Ht.
  cbn [fst snd]. rewrite He. unfold bind at 1. cbn [error_if ret]. rewrite Hs.
  unfold data_word, saved_word, canonized, ignore_word.
  destruct (token_eqb (fst t) COMMA) eqn:Ec.
  - apply token_eqb_eq in Ec. rewrite Ec. cbn [is_identifier andb orb token_eqb dhcp_token_beq].
    unfold bind, skip_token, next_token. rewrite Ht.
    rewrite !orb_false_r. reflexivity.
  - unfold bind at 1. unfold skip_token, next_token. rewrite Ht.
    change (Parse rest (pending c) (issue_counter c) (stack c) (lose c))
      with (with_tokens c rest).
    destruct (is_identifier (fst t) && String.eqb (snd t) "off") eqn:Eoff.
    + cbn [orb]. rewrite orb_true_r.
      apply andb_true_iff in Eoff. destruct Eoff as [_ Eoff]. rewrite Eoff.
      cbn [negb]. rewrite andb_false_r, orb_false_r. reflexivity.
    + cbn [orb].
      destruct (token_eqb (fst t) ON) eqn:Eon.
      * apply token_eqb_eq in Eon. rewrite Eon.
        cbn [is_identifier andb token_eqb dhcp_token_beq].
        rewrite orb_true_r, orb_false_r. reflexivity.
      * destruct (token_eqb (fst t) IGNORE) eqn:Ei.
        -- apply token_eqb_eq in Ei. rewrite Ei in *.
           cbn [is_identifier andb] in *. rewrite Eoff.
           cbn [negb]. rewrite orb_false_r, orb_true_r. reflexivity.
        -- rewrite !andb_false_r. cbn [andb]. rewrite !orb_false_r.
           destruct (is_identifier (fst t)); reflexivity.
Qed.

Lemma parse_option_data_loop_run pre :
  Forall (fun t => option_word t = true) pre ->
  forall fuel o c rest,
    tokens c = pre ++ rest ->
    parse_option_data_loop (List.length pre + fuel) o c =
    parse_option_data_loop fuel
      (OptionText (String.append (data o) (words data_word pre))
                  (String.append (saved o) (words saved_word pre))
                  (canon_bool o || existsb canonized pre)
                  (has_ignore o || existsb ignore_word pre))
      (with_tokens c rest).
Proof.
  induction 1 as [|t pre Ht _ IH]; intros fuel o c rest Hc.
  - cbn [List.length Nat.add words existsb]. rewrite !append_empty_r, !orb_false_r.
    cbn [app] in Hc. subst rest. destruct o, c; reflexivity.
  - cbn [List.length Nat.add app] in *.
    rewrite (parse_option_data_loop_step _ o c t (pre ++ rest) Ht Hc).
    rewrite (IH fuel _ _ rest) by reflexivity.
    rewrite with_tokens_twice. cbn [data saved canon_bool has_ignore words existsb].
    rewrite !append_assoc, !orb_assoc. reflexivity.
Qed.

Lemma parse_option_data_loop_semi f o c s rest :
  tokens c = (SEMI, s) :: rest ->
  parse_option_data_loop (S f) o c = Done (o, c).
Proof.
  intro Ht. cbn [parse_option_data_loop]. unfold bind, peek_token. rewrite Ht.
  reflexivity.
Qed.

Lemma parse_option_data_loop_eof f o c :
  tokens c = [] ->
  parse_option_data_loop (S f) o c = Fatal "unexpected end of file".
Proof.
  intro Ht. cbn [parse_option_data_loop]. unfold bind, peek_token. rewrite Ht.
  reflexivity.
Qed.

Lemma parse_option_data_loop_to_semi pre s rest c :
  Forall (fun t => option_word t = true) pre ->
  tokens c = pre ++ (SEMI, s) :: rest ->
  parse_option_data_loop (S (List.length (tokens c))) (OptionText "" "" false false) c
  = Done (OptionText (words data_word pre) (words saved_word pre)
            (existsb canonized pre) (existsb ignore_word pre),
          with_tokens c ((SEMI, s) :: rest)).
Proof.
  intros Hpre Ht. rewrite Ht at 1. rewrite length_app. cbn [List.length].
  replace (S (List.length pre + S (List.length rest)))
    with (List.length pre + S (S (List.length rest)))%nat by lia.
  rewrite (parse_option_data_loop_run pre Hpre _ _ c ((SEMI, s) :: rest) Ht).
  now rewrite (parse_option_data_loop_semi _ _ _ s rest).
Qed.

Lemma parse_option_data_to_eof pre c :
  Forall (fun t => option_word t = true) pre ->
  tokens c = pre ->
  parse_option_data_loop (S (List.length (tokens c))) (OptionText "" "" false false) c
  = Fatal "unexpected end of file".
Proof.
  intros Hpre Ht. rewrite Ht at 1.
  replace (S (List.length pre)) with (List.length pre + 1)%nat by lia.
  rewrite (parse_option_data_loop_run pre Hpre _ _ c []) by now rewrite app_nil_r.
  now apply parse_option_data_loop_eof.
Qed.

(** X12. [parse_option_data] on the tokens [pre] of an option value (no
    semicolon among them):
    - it stops in front of the semicolon, which it leaves unread, and
      always returns ISC_TRUE;
    - when no token is the identifier "off", the token ON or the token
      IGNORE, the element only gains "data", the texts of the tokens one
      after the other with ", " for each comma; nothing is flagged and
      no issue is counted;
    - when "off" or ON occurs ("false" and "true" are written in their
      place) the element also gets the comment on canonized booleans
      and, under "original-data", a flagged string with the text as it
      was written;
    - when IGNORE occurs, the element is flagged, gets the comment on
      the pseudo-boolean and the "original-data" child, and one issue
      is counted;
    - when the input ends before a semicolon, the call ends in
      "unexpected end of file". *)
Theorem parse_option_data_keeps_original :
  forall expr c pre,
    Forall (fun t => option_word t = true) pre ->
    (forall s rest,
       tokens c = pre ++ (SEMI, s) :: rest ->
       existsb canonized pre = false -> existsb ignore_word pre = false ->
       parse_option_data expr c =
         Done (Some (mapSet expr (createString (words data_word pre)) "data"),
               with_tokens c ((SEMI, s) :: rest)))
    /\ (forall s rest,
          tokens c = pre ++ (SEMI, s) :: rest ->
          existsb canonized pre = true -> existsb ignore_word pre = false ->
          parse_option_data expr c =
            Done (Some (mapSet
                          (mapSet (add_comment expr CANONIZED)
                             (set_skip (createString (words saved_word pre)))
                             "original-data")
                          (createString (words data_word pre)) "data"),
                  with_tokens c ((SEMI, s) :: rest)))
    /\ (forall s rest,
          tokens c = pre ++ (SEMI, s) :: rest ->
          existsb ignore_word pre = true ->
          parse_option_data expr c =
            Done (Some (mapSet
                          (mapSet
                             (set_skip
                                (add_comment
                                   (if existsb canonized pre
                                    then add_comment expr CANONIZED else expr)
                                   IGNORE_USED))
                             (set_skip (createString (words saved_word pre)))
                             "original-data")
                          (createString (words data_word pre)) "data"),
                  Parse ((SEMI, s) :: rest) (pending c) (issue_counter c + 1)
                        (stack c) (lose c)))
    /\ (tokens c = pre ->
        parse_option_data expr c = Fatal "unexpected end of file").
Proof.
  intros expr c pre Hpre. repeat split.
  - intros s rest Ht Hc Hi. unfold parse_option_data.
    unfold bind at 1. unfold remaining. unfold bind at 1.
    rewrite (parse_option_data_loop_to_semi pre s rest c Hpre Ht).
    cbn [canon_bool has_ignore data saved]. rewrite Hc, Hi. reflexivity.
  - intros s rest Ht Hc Hi. unfold parse_option_data.
    unfold bind at 1. unfold remaining. unfold bind at 1.
    rewrite (parse_option_data_loop_to_semi pre s rest c Hpre Ht).
    cbn [canon_bool has_ignore data saved]. rewrite Hc, Hi. reflexivity.
  - intros s rest Ht Hi. unfold parse_option_data.
    unfold bind at 1. unfold remaining. unfold bind at 1.
    rewrite (parse_option_data_loop_to_semi pre s rest c Hpre Ht).
    cbn [canon_bool has_ignore data saved]. rewrite Hi.
    rewrite orb_true_r. reflexivity.
  - intros Ht. unfold parse_option_data.
    unfold bind at 1. unfold remaining. unfold bind at 1.
    now rewrite (parse_option_data_to_eof pre c Hpre Ht).
Qed.

Lemma parse_option_data_keeps_original_witness :
  parse_option_data createMap
    (lexed [(NAME, "off"); (COMMA, ","); (NUMBER, "10"); (SEMI, ";")])
  = Done (Some (Element
            (VMap [("original-data", Element (VString "off,10") true []);
                   ("data", createString "false, 10")])
            false [CANONIZED]),
          lexed [(SEMI, ";")]).
Proof.
  assert (Hpre : Forall (fun t => option_word t = true)
                   [(NAME, "off"); (COMMA, ","); (NUMBER, "10")]).
  { repeat (apply Forall_cons; [reflexivity|]). apply Forall_nil. }
  apply (proj1 (proj2 (parse_option_data_keeps_original createMap
           (lexed [(NAME, "off"); (COMMA, ","); (NUMBER, "10"); (SEMI, ";")])
           [(NAME, "off"); (COMMA, ","); (NUMBER, "10")] Hpre))
         ";" []); reflexivity.
Defined.

(* ------------------------------------------------------------------ *)
(** ** The scopes of boot-file-name, server-hostname, next-server and   *)
(** ** preferred-lifetime                                               *)
(* ------------------------------------------------------------------ *)

Lemma nth_error_over (lower : list frame) target upper fr above :
  nth_error (lower ++ target :: upper ++ fr :: above)
    (S (List.length lower + List.length upper)) = Some fr.
Proof.
  replace (lower ++ target :: upper ++ fr :: above)
    with ((lower ++ target :: upper) ++ fr :: above)
    by (rewrite <- app_assoc; reflexivity).
  replace (S (List.length lower + List.length upper))
    with (List.length (lower ++ target :: upper))
    by (rewrite length_app; simpl; lia).
  apply nth_error_middle.
Qed.

Lemma boot_walk_passes lower target upper :
  Forall (fun fr => boot_passed fr = true) upper ->
  forall above,
    boot_walk (lower ++ target :: upper ++ above)
      (List.length lower + List.length upper) =
    boot_walk (lower ++ target :: upper ++ above) (List.length lower).
Proof.
  induction upper as [|fr upper IH] using rev_ind; intros Hp above.
  - now rewrite Nat.add_0_r.
  - apply Forall_app in Hp. destruct Hp as [Hu Hfr].
    inversion Hfr as [|? ? Hk _]; subst.
    rewrite length_app. cbn [List.length].
    replace (List.length lower + (List.length upper + 1))%nat
      with (S (List.length lower + List.length upper)) by lia.
    rewrite <- app_assoc. cbn [app].
    cbn [boot_walk]. rewrite nth_error_over.
    unfold boot_passed in Hk.
    destruct (kind fr); try discriminate Hk; apply (IH Hu).
Qed.

Lemma boot_walk_target lower target upper :
  Forall (fun fr => boot_passed fr = true) upper ->
  lower = [] \/ boot_passed target = false ->
  boot_walk (lower ++ target :: upper) (List.length (lower ++ target :: upper) - 1)
  = Scope (List.length lower)
      (match lower with
       | [] => false
       | _ :: _ => negb (boot_scope (kind target))
       end).
Proof.
  intros Hp Ht.
  replace (List.length (lower ++ target :: upper) - 1)%nat
    with (List.length lower + List.length upper)%nat
    by (rewrite length_app; simpl; lia).
  pose proof (boot_walk_passes lower target upper Hp []) as H.
  rewrite app_nil_r in H. rewrite H.
  destruct lower as [|fr0 lower']; [reflexivity|].
  destruct Ht as [Ht|Ht]; [discriminate Ht|].
  destruct (List.length (fr0 :: lower')) eqn:El; [discriminate El|].
  cbn [boot_walk]. rewrite <- El, nth_error_middle.
  unfold boot_passed in Ht. destruct (kind target); try discriminate Ht; reflexivity.
Qed.

Lemma next_server_walk_passes lower target upper :
  Forall (fun fr => next_server_scope (kind fr) = false) upper ->
  forall above pop,
    next_server_walk (lower ++ target :: upper ++ above)
      (List.length lower + List.length upper) pop =
    next_server_walk (lower ++ target :: upper ++ above) (List.length lower)
      (pop || existsb (fun fr => negb (is_parameter fr)) upper).
Proof.
  induction upper as [|fr upper IH] using rev_ind; intros Hp above pop.
  - simpl. now rewrite Nat.add_0_r, orb_false_r.
  - apply Forall_app in Hp. destruct Hp as [Hu Hfr].
    inversion Hfr as [|? ? Hk _]; subst.
    rewrite length_app. cbn [List.length].
    replace (List.length lower + (List.length upper + 1))%nat
      with (S (List.length lower + List.length upper)) by lia.
    rewrite <- app_assoc. cbn [app].
    cbn [next_server_walk]. rewrite nth_error_over.
    rewrite existsb_app. cbn [existsb]. rewrite orb_false_r.
    unfold is_parameter at 2.
    destruct (kind fr); try discriminate Hk; rewrite (IH Hu);
      f_equal; cbn [negb];
      destruct pop, (existsb (fun fr => negb (is_parameter fr)) upper); reflexivity.
Qed.

Lemma next_server_walk_target lower target upper :
  Forall (fun fr => next_server_scope (kind fr) = false) upper ->
  lower = [] \/ next_server_scope (kind target) = true ->
  next_server_walk (lower ++ target :: upper)
    (List.length (lower ++ target :: upper) - 1) false
  = Scope (List.length lower) (existsb (fun fr => negb (is_parameter fr)) upper).
Proof.
  intros Hp Ht.
  replace (List.length (lower ++ target :: upper) - 1)%nat
    with (List.length lower + List.length upper)%nat
    by (rewrite length_app; simpl; lia).
  pose proof (next_server_walk_passes lower target upper Hp [] false) as H.
  rewrite app_nil_r in H. rewrite H. cbn [orb].
  destruct lower as [|fr0 lower']; [reflexivity|].
  destruct Ht as [Ht|Ht]; [discriminate Ht|].
  destruct (List.length (fr0 :: lower')) eqn:El; [discriminate El|].
  cbn [next_server_walk]. rewrite <- El, nth_error_middle.
  destruct (kind target); try discriminate Ht; reflexivity.
Qed.

Lemma store_at_middle c lower target upper value key issues :
  stack c = lower ++ target :: upper ->
  store_at c (List.length lower) value key issues =
  with_stack c issues (lower ++ store_in target value key :: upper).
Proof.
  intro Hs. unfold store_at, with_stack. rewrite Hs, update_frame_middle.
  reflexivity.
Qed.

(** X13. [config_file] and [config_sname] (boot-file-name and
    server-hostname) on a stack [lower ++ target :: upper], where the
    frames [upper] over [target] are of the kinds the loop goes past
    (parameter blocks, but also subnets, shared networks and pools,
    without a trace) and [target] is [stack[0]] or a host, class, group
    or root frame:
    - under DHCPv6 the call ends in the "is DHCPv4 only" error;
    - at [stack[0]] and at a host, class or group frame the value is
      stored as it is, nothing is flagged and no issue is counted;
    - at a root frame above [stack[0]] the value is stored flagged,
      with the comment on the unsupported scope, and one issue is
      counted. *)
Theorem boot_parameters_scope :
  forall config value c lower target upper,
    mapGet config "value" = Some value ->
    stack c = lower ++ target :: upper ->
    Forall (fun fr => boot_passed fr = true) upper ->
    (config_file AF_INET6 config c = Fatal "boot-file-name is DHCPv4 only"
     /\ config_sname AF_INET6 config c = Fatal "server-hostname is DHCPv4 only")
    /\ (lower = [] \/ boot_scope (kind target) = true ->
        config_file AF_INET config c =
          Done (tt, with_stack c (issue_counter c)
                      (lower ++ store_in target value "boot-file-name" :: upper))
        /\ config_sname AF_INET config c =
          Done (tt, with_stack c (issue_counter c)
                      (lower ++ store_in target value "server-hostname" :: upper)))
    /\ (lower <> [] -> kind target = ROOT_GROUP ->
        config_file AF_INET config c =
          Done (tt, with_stack c (issue_counter c + 1)
                      (lower ++ store_in target
                                  (set_skip (add_comment value FILE_UNSUPPORTED_SCOPE))
                                  "boot-file-name" :: upper))
        /\ config_sname AF_INET config c =
          Done (tt, with_stack c (issue_counter c + 1)
                      (lower ++ store_in target
                                  (set_skip (add_comment value SNAME_UNSUPPORTED_SCOPE))
                                  "server-hostname" :: upper))).
Proof.
  intros config value c lower target upper Hv Hs Hp.
  split; [split; reflexivity|]. split.
  - intros Ht.
    assert (Hw : boot_walk (stack c) (List.length (stack c) - 1)
                 = Scope (List.length lower) false).
    { rewrite Hs, boot_walk_target; try assumption.
      - destruct lower; [reflexivity|].
        destruct Ht as [Ht|Ht]; [discriminate Ht|]. now rewrite Ht.
      - destruct Ht as [Ht|Ht]; [now left|right].
        unfold boot_passed. destruct (kind target); try discriminate Ht; reflexivity. }
    unfold config_file, config_sname. rewrite Hv, Hw. cbn [popped scope_where].
    rewrite !(store_at_middle c lower target upper) by exact Hs. split; reflexivity.
  - intros Hl Hk.
    assert (Hw : boot_walk (stack c) (List.length (stack c) - 1)
                 = Scope (List.length lower) true).
    { rewrite Hs, boot_walk_target; try assumption.
      - destruct lower; [contradiction|]. now rewrite Hk.
      - right. unfold boot_passed. now rewrite Hk. }
    unfold config_file, config_sname. rewrite Hv, Hw. cbn [popped scope_where].
    rewrite !(store_at_middle c lower target upper) by exact Hs. split; reflexivity.
Qed.

Lemma boot_parameters_scope_witness :
  config_file AF_INET (mapSet createMap (createString "pxelinux.0") "value")
    (Parse [] [] 0
       [Frame ROOT_GROUP createMap; Frame ROOT_GROUP createMap;
        Frame SUBNET_DECL createMap; Frame PARAMETER createMap] false)
  = Done (tt,
          Parse [] [] 1
            [Frame ROOT_GROUP createMap;
             store_in (Frame ROOT_GROUP createMap)
               (set_skip (add_comment (createString "pxelinux.0")
                            FILE_UNSUPPORTED_SCOPE)) "boot-file-name";
             Frame SUBNET_DECL createMap; Frame PARAMETER createMap] false).
Proof.
  assert (Hp : Forall (fun fr => boot_passed fr = true)
                 [Frame SUBNET_DECL createMap; Frame PARAMETER createMap]).
  { repeat (apply Forall_cons; [reflexivity|]). apply Forall_nil. }
  apply (proj1 (proj2 (proj2 (boot_parameters_scope
           (mapSet createMap (createString "pxelinux.0") "value")
           (createString "pxelinux.0")
           (Parse [] [] 0
              [Frame ROOT_GROUP createMap; Frame ROOT_GROUP createMap;
               Frame SUBNET_DECL createMap; Frame PARAMETER createMap] false)
           [Frame ROOT_GROUP createMap] (Frame ROOT_GROUP createMap)
           [Frame SUBNET_DECL createMap; Frame PARAMETER createMap]
           eq_refl eq_refl Hp)) ltac:(discriminate) eq_refl)).
Defined.

(** X14. [config_next_server] on a stack [lower ++ target :: upper],
    where no frame of [upper] is a root, host, class or group frame and
    [target] is [stack[0]] or such a frame:
    - under DHCPv6 the call ends in "next-server is DHCPv4 only";
    - otherwise the value is stored at [target]; it carries the comment
      on the move exactly when one of the frames passed is not a
      parameter block (a subnet, a shared network or a pool);
    - the value is never flagged and no issue is counted. *)
Theorem next_server_scope_walk :
  forall config value c lower target upper,
    mapGet config "value" = Some value ->
    stack c = lower ++ target :: upper ->
    Forall (fun fr => next_server_scope (kind fr) = false) upper ->
    lower = [] \/ next_server_scope (kind target) = true ->
    config_next_server AF_INET6 config c = Fatal "next-server is DHCPv4 only"
    /\ config_next_server AF_INET config c =
         Done (tt, with_stack c (issue_counter c)
                     (lower ++
                      store_in target
                        (if existsb (fun fr => negb (is_parameter fr)) upper
                         then add_comment value NEXT_SERVER_MOVED
                         else value) "next-server" :: upper)).
Proof.
  intros config value c lower target upper Hv Hs Hp Ht.
  split; [reflexivity|].
  unfold config_next_server. rewrite Hv, Hs.
  rewrite (next_server_walk_target lower target upper Hp Ht).
  cbn [popped scope_where].
  now rewrite (store_at_middle c lower target upper).
Qed.

Lemma next_server_scope_walk_witness :
  config_next_server AF_INET (mapSet createMap (createString "10.0.0.1") "value")
    (Parse [] [] 0
       [Frame ROOT_GROUP createMap; Frame ROOT_GROUP createMap;
        Frame SUBNET_DECL createMap; Frame POOL_DECL createMap] false)
  = Done (tt,
          Parse [] [] 0
            [Frame ROOT_GROUP createMap;
             store_in (Frame ROOT_GROUP createMap)
               (add_comment (createString "10.0.0.1") NEXT_SERVER_MOVED)
               "next-server";
             Frame SUBNET_DECL createMap; Frame POOL_DECL createMap] false).
Proof.
  assert (Hp : Forall (fun fr => next_server_scope (kind fr) = false)
                 [Frame SUBNET_DECL createMap; Frame POOL_DECL createMap]).
  { repeat (apply Forall_cons; [reflexivity|]). apply Forall_nil. }
  apply (proj2 (next_server_scope_walk
           (mapSet createMap (createString "10.0.0.1") "value")
           (createString "10.0.0.1")
           (Parse [] [] 0
              [Frame ROOT_GROUP createMap; Frame ROOT_GROUP createMap;
               Frame SUBNET_DECL createMap; Frame POOL_DECL createMap] false)
           [Frame ROOT_GROUP createMap] (Frame ROOT_GROUP createMap)
           [Frame SUBNET_DECL createMap; Frame POOL_DECL createMap]
           eq_refl eq_refl Hp (or_intror eq_refl))).
Defined.

(** X15. [config_preferred_lifetime] places its value as
    [config_valid_lifetime] does.  Under DHCPv4 the call ends in
    "preferred-lifetime is DHCPv6 only".  Under DHCPv6, on a stack
    [lower ++ target :: upper] whose frames over [target] are parameter
    blocks and pools and whose [target] is [stack[0]] or the first
    frame that is neither, the value is stored at [target] under
    "preferred-lifetime":
    - flagged, with the comment on the unsupported scope and a new
      issue, exactly when [target] is above [stack[0]] and is not a
      root, shared-network, subnet or group frame;
    - with the comment on the move out of the pool exactly when a pool
      was passed;
    and [config_valid_lifetime] stores its value in the same frame, with
    the same flag and the same count of issues. *)
Theorem preferred_lifetime_scope :
  forall config value c lower target upper,
    mapGet config "value" = Some value ->
    stack c = lower ++ target :: upper ->
    Forall (fun fr => passed fr = true) upper ->
    lower = [] \/ passed target = false ->
    let strange := match lower with
                   | [] => false
                   | _ :: _ => negb (lifetime_scope (kind target))
                   end in
    let pool := existsb is_pool upper in
    config_preferred_lifetime AF_INET config c
      = Fatal "preferred-lifetime is DHCPv6 only"
    /\ config_preferred_lifetime AF_INET6 config c =
         Done (tt,
               with_stack c (if strange then issue_counter c + 1 else issue_counter c)
                 (lower ++
                  store_in target
                    (let v := if strange
                              then set_skip (add_comment value PREFERRED_UNSUPPORTED_SCOPE)
                              else value in
                     if pool then add_comment v PREFERRED_MOVED_FROM_POOL else v)
                    "preferred-lifetime" :: upper))
    /\ config_valid_lifetime config c =
         Done (tt,
               with_stack c (if strange then issue_counter c + 1 else issue_counter c)
                 (lower ++
                  store_in target
                    (let v := if strange
                              then set_skip (add_comment value UNSUPPORTED_SCOPE)
                              else value in
                     if pool then add_comment v MOVED_FROM_POOL else v)
                    "valid-lifetime" :: upper)).
Proof.
  intros config value c lower target upper Hv Hs Hp Ht strange pool.
  assert (Hw : lifetime_walk (stack c) (List.length (stack c) - 1) false
               = Walk (List.length lower) pool strange).
  { rewrite Hs, (lifetime_walk_target lower target upper Hp).
    subst strange pool. destruct lower as [|fr0 lower']; [reflexivity|].
    destruct Ht as [Ht|Ht]; [discriminate Ht|].
    now rewrite lifetime_walk_at. }
  split; [reflexivity|split].
  - unfold config_preferred_lifetime. rewrite Hv, Hw.
    cbn [unsupported pop_from_pool walk_where].
    now rewrite (store_at_middle c lower target upper).
  - unfold config_valid_lifetime. rewrite Hv, Hw.
    cbn [unsupported pop_from_pool walk_where]. unfold annotate_lifetime.
    cbn [unsupported pop_from_pool].
    unfold with_stack. rewrite Hs, update_frame_middle. reflexivity.
Qed.

Lemma preferred_lifetime_scope_witness :
  config_preferred_lifetime AF_INET6 (mapSet createMap (createInt 3600) "value")
    (Parse [] [] 0
       [Frame ROOT_GROUP createMap; Frame HOST_DECL createMap;
        Frame PARAMETER createMap] false)
  = Done (tt,
          Parse [] [] 1
            [Frame ROOT_GROUP createMap;
             store_in (Frame HOST_DECL createMap)
               (set_skip (add_comment (createInt 3600) PREFERRED_UNSUPPORTED_SCOPE))
               "preferred-lifetime";
             Frame PARAMETER createMap] false).
Proof.
  assert (Hp : Forall (fun fr => passed fr = true) [Frame PARAMETER createMap]).
  { repeat (apply Forall_cons; [reflexivity|]). apply Forall_nil. }
  apply (proj1 (proj2 (preferred_lifetime_scope
           (mapSet createMap (createInt 3600) "value") (createInt 3600)
           (Parse [] [] 0
              [Frame ROOT_GROUP createMap; Frame HOST_DECL createMap;
               Frame PARAMETER createMap] false)
           [Frame ROOT_GROUP createMap] (Frame HOST_DECL createMap)
           [Frame PARAMETER createMap]
           eq_refl eq_refl Hp (or_intror eq_refl)))).
Defined.

(* ------------------------------------------------------------------ *)
(** ** The types of the expressions that the parser returns            *)
(* ------------------------------------------------------------------ *)

Lemma existsb_mapContains e keys k :
  In k keys -> mapContains e k = true -> existsb (mapContains e) keys = true.
Proof.
  intros Hin Hc. apply existsb_exists. now exists k.
Qed.

Lemma typed_key e k :
  In k expression_keys -> mapContains e k = true -> typed e = true.
Proof.
  unfold expression_keys. rewrite !in_app_iff. intros Hin Hc. unfold typed.
  destruct Hin as [H|[H|[H|[<-|[<-|[]]]]]].
  - unfold is_boolean_expression. rewrite (existsb_mapContains e _ k H Hc).
    now rewrite !orb_true_r.
  - unfold is_data_expression. rewrite (existsb_mapContains e _ k H Hc).
    now rewrite !orb_true_r.
  - unfold is_numeric_expression. rewrite (existsb_mapContains e _ k H Hc).
    now rewrite !orb_true_r.
  - rewrite Hc. now rewrite !orb_true_r.
  - rewrite Hc. now rewrite !orb_true_r.
Qed.

Lemma typed_mapSet expr x k :
  type_of expr = ELEMENT_MAP -> In k expression_keys ->
  typed (mapSet expr x k) = true.
Proof.
  intros Hm Hk. apply (typed_key _ k Hk). now apply mapContains_mapSet_same.
Qed.

Lemma typed_content e sk cm : typed (Element (content e) sk cm) = typed e.
Proof. reflexivity. Qed.

Lemma typed_scalar expr :
  (forall n, typed (resetInt expr n) = true)
  /\ (forall s, typed (resetString expr s) = true)
  /\ (forall n cm, typed (add_comment (resetInt expr n) cm) = true).
Proof. repeat split. Qed.

Lemma binop_name_key op :
  is_binary_operator op = true -> In (binop_name op) expression_keys.
Proof.
  destruct op; try discriminate; intros _; cbn; tauto.
Qed.

Ltac crawl H :=
  lazymatch type of H with
  | ret _ _ = Done _ =>
      unfold ret in H; first [discriminate H | injection H; intros; subst; clear H]
  | Done _ = Done _ => first [discriminate H | injection H; intros; subst; clear H]
  | Fatal _ = Done _ => discriminate H
  | Exhausted = Done _ => discriminate H
  | Outside _ = Done _ => discriminate H
  | parse_error _ _ = Done _ => discriminate H
  | outside _ _ = Done _ => discriminate H
  | out_of_fuel _ = Done _ => discriminate H
  | bind _ _ _ = Done _ => inv_bind H; crawl H
  | need _ _ _ _ = Done _ => unfold need in H; crawl H
  | need_lose _ _ _ _ = Done _ => unfold need_lose in H; crawl H
  | leaf _ _ _ = Done _ => unfold leaf in H; crawl H
  | constant _ _ _ _ = Done _ => unfold constant in H; crawl H
  | (if ?b then _ else _) _ = Done _ => destruct b eqn:?; crawl H
  | match ?o with Some _ => _ | None => _ end _ = Done _ =>
      destruct o eqn:?; crawl H
  | _ => idtac
  end.

Lemma sized_key_key prefix val s :
  prefix = "extract-int" \/ prefix = "encode-int" ->
  sized_key prefix val = Some s -> In s expression_keys.
Proof.
  unfold sized_key. intros Hp H.
  destruct (atoi val) as [|p|p]; try discriminate H.
  do 6 (try (destruct p as [p|p|]; try discriminate H));
    injection H as <-; destruct Hp as [-> | ->]; cbn; tauto.
Qed.

Lemma parse_results_typed :
  forall fuel,
    (forall expr context c e c',
       type_of expr = ELEMENT_MAP ->
       parse_expression fuel expr context None expr_none c = Done (Some e, c') ->
       typed e = true)
    /\ (forall expr context c e c',
          type_of expr = ELEMENT_MAP ->
          parse_non_binary fuel expr context c = Done (Some e, c') ->
          typed e = true).
Proof.
  induction fuel as [|f [IHe IHn]].
  { split; intros; discriminate. }
  split.
  - intros expr context c e c' Hm H.
    apply parse_expression_first in H.
    destruct H as (p & c1 & Hp & [->|(op & l & r & Hop & _ & ->)]).
    + cbn [Nat.pred] in Hp. apply IHn in Hp; [|reflexivity].
      unfold resetBy. now rewrite typed_content.
    + apply typed_mapSet; [exact Hm|now apply binop_name_key].
  - intros expr context c e c' Hm H.
    cbn [parse_non_binary] in H.
    inv_bind_as H t c0 Et.
    destruct (fst t); crawl H;
      try (apply typed_mapSet; [exact Hm|cbn; tauto]);
      try reflexivity.
    + eapply IHe; eassumption.
    + apply typed_mapSet; [exact Hm|].
      eapply sized_key_key; [|eassumption]. now left.
    + apply typed_mapSet; [exact Hm|].
      eapply sized_key_key; [|eassumption]. now right.
Qed.

(** X16. Every expression that the parser returns has a type.  When
    [parse_expression] (called to start an expression) or
    [parse_non_binary] fills a map and returns it, the result is a
    boolean, data or numeric expression for the three predicates
    [is_boolean_expression], [is_data_expression] and
    [is_numeric_expression], or it is a variable reference or a
    function call.  So the classifier [expression_context] answers
    Any for a parsed expression only when it is a variable reference
    or a function call, the two cases that the test at the end of
    [parse_boolean_expression], [parse_data_expression] and
    [parse_numeric_expression] lets through. *)
Theorem parsed_expressions_typed :
  forall fuel expr context c e c',
    type_of expr = ELEMENT_MAP ->
    (parse_expression fuel expr context None expr_none c = Done (Some e, c') ->
     typed e = true)
    /\ (parse_non_binary fuel expr context c = Done (Some e, c') ->
        typed e = true)
    /\ (typed e = true -> expression_context e = context_any ->
        mapContains e "variable-reference" || mapContains e "funcall" = true).
Proof.
  intros fuel expr context c e c' Hm.
  destruct (parse_results_typed fuel) as [He Hn].
  split; [|split].
  - intro H. eapply He; eassumption.
  - intro H. eapply Hn; eassumption.
  - unfold typed, expression_context. intros Ht Hc.
    destruct (is_data_expression e); [discriminate Hc|].
    destruct (is_numeric_expression e); [discriminate Hc|].
    destruct (is_boolean_expression e); [discriminate Hc|].
    exact Ht.
Qed.

Lemma parsed_expressions_typed_witness :
  typed (operator_node expr_equal
           (Element (VMap [("variable-reference", Element (VString "x") true [])])
              false [])
           (leaf_node (FILENAME, "filename"))) = true.
Proof.
  apply (proj1 (parsed_expressions_typed 8%nat createMap context_any
           (lexed [(NAME, "x"); (EQUAL, "="); (FILENAME, "filename")])
           _ (Parse [] [] 2 [] false) eq_refl)).
  reflexivity.
Defined.

(* ------------------------------------------------------------------ *)
(** ** The log statement                                               *)
(* ------------------------------------------------------------------ *)

Lemma next_token_cons c t rest :
  tokens c = t :: rest -> next_token c = Done (t, with_tokens c rest).
Proof. intro H. unfold next_token. now rewrite H. Qed.

Lemma peek_token_cons c t rest :
  tokens c = t :: rest -> peek_token c = Done (t, c).
Proof. intro H. unfold peek_token. now rewrite H. Qed.

Section LogStatement.
Variable gethostbyname : string -> option (list (list Z)).
Variable inet_ntop : list Z -> option string.
Variable parse_ip6_addr_txt : M string.
Variable server_option : string -> bool.

Local Notation stmt := (parse_executable_statement gethostbyname inet_ntop parse_ip6_addr_txt server_option).

Lemma log_statement_shape fuel result case_context c r c' l p t rest :
  tokens c = (LOG, l) :: (LPAREN, p) :: t :: rest ->
  stmt fuel result case_context c = Done (Some r, c') ->
  r = mapSet result
        (mapSet (set_skip createMap)
           (createString (if log_level (fst t) then snd t else "DEBUG"))
           "priority") "log".
Proof.
  intros Ht H. destruct fuel as [|f]; [discriminate H|].
  cbn [parse_executable_statement] in H.
  inv_bind_as H t0 c0 E0. rewrite (peek_token_cons _ _ _ Ht) in E0.
  injection E0 as <- <-. cbn [fst] in H.
  inv_bind_as H t1 c1 E1. unfold skip_token in E1.
  rewrite (next_token_cons _ _ _ Ht) in E1. injection E1 as _ <-.
  inv_bind_as H u2 c2 E2. unfold issue in E2. injection E2 as _ <-.
  inv_bind_as H u3 c3 E3. unfold expect in E3.
  inv_bind_as E3 t3 c4 E4.
  rewrite (next_token_cons _ (LPAREN, p) (t :: rest)) in E4 by reflexivity.
  injection E4 as <- <-. cbn in E3. injection E3 as _ <-.
  inv_bind_as H t5 c5 E5.
  rewrite (peek_token_cons _ t rest) in E5 by reflexivity.
  injection E5 as <- <-.
  fold (log_level (fst t)) in H.
  crawl H; reflexivity.
Qed.
End LogStatement.

(** X17. A log statement loses its message.  Whenever
    [parse_executable_statement] returns on "log ( ...", the statement
    it stores under "log" is a flagged map whose only child is
    "priority": the text of the token after the parenthesis when that
    token is one of fatal, error, debug and info, and "DEBUG"
    otherwise.  The data expression that follows is parsed (and its
    errors are fatal) but it is stored nowhere. *)
Theorem log_statement_drops_message :
  forall gethostbyname inet_ntop parse_ip6_addr_txt server_option
         fuel result case_context c r c' l p t rest,
    tokens c = (LOG, l) :: (LPAREN, p) :: t :: rest ->
    parse_executable_statement gethostbyname inet_ntop parse_ip6_addr_txt
      server_option fuel result case_context c = Done (Some r, c') ->
    r = mapSet result
          (mapSet (set_skip createMap)
             (createString (if log_level (fst t) then snd t else "DEBUG"))
             "priority") "log".
Proof. intros. eapply log_statement_shape; eassumption. Qed.

Lemma log_statement_drops_message_witness :
  Element (VMap [("log",
     Element (VMap [("priority", createString "info")]) true [])]) false []
  = mapSet createMap
      (mapSet (set_skip createMap)
         (createString (if log_level (fst (INFO, "info"))
                        then snd (INFO, "info") else "DEBUG"))
         "priority") "log".
Proof.
  apply (log_statement_drops_message no_resolver no_ntop no_ip6 no_server_option
           8%nat createMap context_any
           (lexed [(LOG, "log"); (LPAREN, "("); (INFO, "info"); (COMMA, ",");
                   (STRING, "lease granted"); (RPAREN, ")"); (SEMI, ";")])
           _ (Parse [] [] 1 [] false) "log" "(" (INFO, "info")
           [(COMMA, ","); (STRING, "lease granted"); (RPAREN, ")"); (SEMI, ";")]);
    reflexivity.
Defined.

(* ------------------------------------------------------------------ *)
(** ** The on statement                                                *)
(* ------------------------------------------------------------------ *)

Lemma lease_event_not_or t : lease_event t = true -> token_eqb (fst t) OR = false.
Proof. unfold lease_event. destruct (fst t); try discriminate; reflexivity. Qed.

Lemma on_events_step f cond c e term rest :
  lease_event e = true ->
  tokens c = e :: term :: rest ->
  on_events (S f) cond c =
    if token_eqb (fst term) OR
    then on_events f (String.append (String.append cond (snd e)) " or ")
           (with_tokens c rest)
    else Done ((String.append cond (snd e), fst term), with_tokens c rest).
Proof.
  intros He Ht. cbn [on_events].
  unfold bind at 1. rewrite (next_token_cons _ _ _ Ht).
  assert (Hb : forall A (x y : M A),
            match fst e with
            | EXPIRY | COMMIT | RELEASE | TRANSMISSION => x
            | _ => y
            end = x).
  { intros A x y. unfold lease_event in He.
    destruct (fst e); try discriminate He; reflexivity. }
  rewrite Hb. unfold bind at 1.
  rewrite (next_token_cons _ term rest) by reflexivity.
  rewrite with_tokens_twice. destruct (token_eqb (fst term) OR); reflexivity.
Qed.

Lemma on_events_run o evs :
  Forall (fun t => lease_event t = true) evs ->
  forall fuel cond c e term rest,
    lease_event e = true ->
    tokens c = e :: separated (OR, o) evs ++ term :: rest ->
    fst term <> OR ->
    (List.length evs < fuel)%nat ->
    on_events fuel cond c =
      Done ((String.append cond (String.append (snd e) (or_more evs)), fst term),
            with_tokens c rest).
Proof.
  induction 1 as [|e' evs He' _ IH]; intros fuel cond c e term rest He Ht Hterm Hf.
  - destruct fuel as [|f]; [simpl in Hf; lia|].
    cbn [separated flat_map app] in Ht.
    rewrite (on_events_step f cond c e term rest He Ht).
    rewrite (token_eqb_neq _ _ Hterm). cbn [or_more].
    now rewrite append_empty_r.
  - destruct fuel as [|f]; [simpl in Hf; lia|].
    cbn [separated flat_map app] in Ht.
    rewrite (on_events_step f cond c e (OR, o) _ He Ht).
    cbn [fst token_eqb dhcp_token_beq].
    rewrite (IH f _ (with_tokens c (e' :: separated (OR, o) evs ++ term :: rest))
               e' term rest He' eq_refl Hterm) by (simpl in Hf; lia).
    rewrite with_tokens_twice. cbn [or_more].
    rewrite !append_assoc. reflexivity.
Qed.

Section OnStatement.
Variable gethostbyname : string -> option (list (list Z)).
Variable inet_ntop : list Z -> option string.
Variable parse_ip6_addr_txt : M string.
Variable server_option : string -> bool.

Local Notation on_stmt := (parse_on_statement gethostbyname inet_ntop parse_ip6_addr_txt server_option).

Lemma on_statement_to_events f result c o e evs term rest :
  Forall (fun t => lease_event t = true) (e :: evs) ->
  tokens c = e :: separated (OR, o) evs ++ term :: rest ->
  fst term <> OR ->
  on_stmt (S f) result c =
    (let statement := mapSet (set_skip createMap)
                        (createString (or_list (e :: evs))) "condition" in
     if token_eqb (fst term) SEMI then ret (Some (mapSet result statement "on"))
     else
       error_if (negb (token_eqb (fst term) LBRACE)) "left brace expected." ;;;
       r <- statements_of
              (statements_loop gethostbyname inet_ntop parse_ip6_addr_txt
                 server_option f) createList context_any ;;
       match r with
       | None => even_up ;;; ret None
       | Some body =>
           let statement := mapSet statement body "body" in
           expect RBRACE "right brace expected." ;;;
           ret (Some (mapSet result statement "on"))
       end)
      (Parse rest (pending c) (issue_counter c + 1) (stack c) (lose c)).
Proof.
  intros Hev Ht Hterm. inversion Hev as [|? ? He Hevs]; subst.
  cbn [parse_on_statement].
  unfold bind at 1. unfold issue. unfold bind at 1. unfold remaining.
  unfold bind at 1.
  rewrite (on_events_run o evs Hevs _ ""
             (Parse (tokens c) (pending c) (issue_counter c + 1) (stack c) (lose c))
             e term rest He Ht Hterm).
  2:{ cbn [tokens]. rewrite Ht. cbn [List.length]. rewrite length_app, separated_length.
      simpl. lia. }
  cbn [fst snd or_list String.append]. reflexivity.
Qed.
End OnStatement.

(** X18. The condition of an on statement.  After ON, for lease events
    e1 ... en (expiry, commit, release, transmission) written with OR
    between them:
    - the statement stored under "on" is a flagged map whose
      "condition" is the texts of the events with " or " between them,
      and one issue is counted;
    - a semicolon after the events ends the statement, which then has
      no body;
    - an empty block "{ }" gives the body "[]"; the comments that were
      waiting are dropped and [lose] is cleared;
    - a first token that is no lease event ends the call in "expecting
      a lease event type". *)
Theorem on_statement_condition :
  forall gethostbyname inet_ntop parse_ip6_addr_txt server_option f result c,
    (forall o e evs s rest,
       Forall (fun t => lease_event t = true) (e :: evs) ->
       tokens c = e :: separated (OR, o) evs ++ (SEMI, s) :: rest ->
       parse_on_statement gethostbyname inet_ntop parse_ip6_addr_txt server_option
         (S f) result c =
         Done (Some (mapSet result
                       (mapSet (set_skip createMap)
                          (createString (or_list (e :: evs))) "condition") "on"),
               Parse rest (pending c) (issue_counter c + 1) (stack c) (lose c)))
    /\ (forall o e evs b b' rest,
          Forall (fun t => lease_event t = true) (e :: evs) ->
          tokens c = e :: separated (OR, o) evs ++ (LBRACE, b) :: (RBRACE, b') :: rest ->
          parse_on_statement gethostbyname inet_ntop parse_ip6_addr_txt server_option
            (S (S (S f))) result c =
            Done (Some (mapSet result
                          (mapSet
                             (mapSet (set_skip createMap)
                                (createString (or_list (e :: evs))) "condition")
                             createList "body") "on"),
                  Parse rest [] (issue_counter c + 1) (stack c) false))
    /\ (lease_event (first_token (tokens c), "") = false ->
        parse_on_statement gethostbyname inet_ntop parse_ip6_addr_txt server_option
          (S f) result c = Fatal "expecting a lease event type").
Proof.
  intros g i p6 so f result c. split; [|split].
  - intros o e evs s rest Hev Ht.
    rewrite (on_statement_to_events g i p6 so f result c o e evs (SEMI, s) rest Hev Ht)
      by discriminate.
    reflexivity.
  - intros o e evs b b' rest Hev Ht.
    rewrite (on_statement_to_events g i p6 so _ result c o e evs (LBRACE, b) _ Hev Ht)
      by discriminate.
    reflexivity.
  - intro Hf. cbn [parse_on_statement].
    unfold bind at 1. unfold issue. unfold bind at 1. unfold remaining.
    cbn [tokens on_events]. unfold bind at 1. unfold bind at 1. unfold next_token.
    cbn [tokens]. unfold lease_event in Hf. cbn [fst] in Hf.
    destruct (tokens c) as [|t rest]; cbn [first_token] in Hf; [reflexivity|].
    cbn [fst]. destruct (fst t); try discriminate Hf; reflexivity.
Qed.

Lemma on_statement_condition_witness :
  parse_on_statement no_resolver no_ntop no_ip6 no_server_option 1 createMap
    (lexed [(COMMIT, "commit"); (OR, "or"); (EXPIRY, "expiry"); (SEMI, ";")])
  = Done (Some (Element
            (VMap [("on", Element
                      (VMap [("condition", createString "commit or expiry")])
                      true [])]) false []),
          Parse [] [] 1 [] false).
Proof.
  assert (Hev : Forall (fun t => lease_event t = true)
                  [(COMMIT, "commit"); (EXPIRY, "expiry")]).
  { repeat (apply Forall_cons; [reflexivity|]). apply Forall_nil. }
  apply (proj1 (on_statement_condition no_resolver no_ntop no_ip6 no_server_option
           0%nat createMap
           (lexed [(COMMIT, "commit"); (OR, "or"); (EXPIRY, "expiry"); (SEMI, ";")]))
         "or" (COMMIT, "commit") [(EXPIRY, "expiry")] ";" [] Hev eq_refl).
Defined.

(* ------------------------------------------------------------------ *)
(** ** Equality and the logical operators                              *)
(* ------------------------------------------------------------------ *)

Ltac split_in H :=
  simpl in H;
  repeat match type of H with
         | _ \/ _ => destruct H as [H|H]
         | False => contradiction
         end; subst.



(* ------------------------------------------------------------------ *)
(** ** Function definitions                                            *)
(* ------------------------------------------------------------------ *)

Lemma length_append (a b : string) :
  String.length (String.append a b) = (String.length a + String.length b)%nat.
Proof. induction a as [|ch a IH]; simpl; [reflexivity|now rewrite IH]. Qed.

Lemma argument_name_kind a :
  argument_name a = true ->
  negb (token_eqb (fst a) NAME) && negb (token_eqb (fst a) NUMBER_OR_NAME) = false
  /\ token_eqb (fst a) RPAREN = false
  /\ (0 <? Z.of_nat (String.length (snd a))) = true.
Proof.
  unfold argument_name. intro H. apply andb_prop in H as [Hk Hl].
  repeat split; [| |exact Hl]; destruct (fst a); try discriminate Hk; reflexivity.
Qed.

Lemma define_arguments_name f value c a tail :
  argument_name a = true ->
  tokens c = a :: tail ->
  define_arguments (S f) value c =
    (t' <- next_token ;;
     if token_eqb (fst t') COMMA
     then define_arguments f
            (String.append (if 0 <? Z.of_nat (String.length value)
                            then String.append value ", " else value) (snd a))
     else ret (String.append (if 0 <? Z.of_nat (String.length value)
                              then String.append value ", " else value) (snd a),
               fst t'))
      (with_tokens c tail).
Proof.
  intros Ha Ht. destruct (argument_name_kind a Ha) as (Hk & Hr & _).
  cbn [define_arguments]. unfold bind at 1.
  rewrite (next_token_cons _ _ _ Ht). rewrite Hr.
  unfold bind at 1. rewrite Hk. reflexivity.
Qed.

Lemma define_arguments_run o names :
  Forall (fun t => argument_name t = true) names ->
  forall k value c a tail,
    argument_name a = true ->
    (0 < String.length value)%nat ->
    tokens c = a :: separated (COMMA, o) names ++ tail ->
    define_arguments (S (List.length names + k)) value c =
      (t' <- next_token ;;
       if token_eqb (fst t') COMMA
       then define_arguments k
              (String.append value (String.append ", "
                 (String.append (snd a) (comma_more names))))
       else ret (String.append value (String.append ", "
                   (String.append (snd a) (comma_more names))), fst t'))
        (with_tokens c tail).
Proof.
  induction 1 as [|a' names Ha' _ IH]; intros k value c a tail Ha Hv Ht.
  - cbn [separated flat_map app] in Ht. cbn [List.length Nat.add comma_more].
    rewrite (define_arguments_name k value c a tail Ha Ht).
    assert (Hp : (0 <? Z.of_nat (String.length value)) = true)
      by (apply Z.ltb_lt; lia).
    rewrite Hp, append_empty_r, !append_assoc. reflexivity.
  - cbn [separated flat_map app] in Ht. cbn [List.length Nat.add comma_more].
    rewrite (define_arguments_name _ value c a _ Ha Ht).
    assert (Hp : (0 <? Z.of_nat (String.length value)) = true)
      by (apply Z.ltb_lt; lia).
    rewrite Hp. unfold bind at 1.
    rewrite (next_token_cons _ (COMMA, o) (a' :: separated (COMMA, o) names ++ tail))
      by reflexivity.
    cbn [fst token_eqb dhcp_token_beq]. rewrite with_tokens_twice.
    rewrite (IH k _ (with_tokens c (a' :: separated (COMMA, o) names ++ tail))
               a' tail Ha').
    + rewrite with_tokens_twice, !append_assoc. reflexivity.
    + rewrite !length_append.
      destruct (argument_name_kind a Ha) as (_ & _ & Hl).
      apply Z.ltb_lt in Hl. lia.
    + reflexivity.
Qed.

Lemma define_arguments_list o a more k c tail :
  Forall (fun t => argument_name t = true) (a :: more) ->
  tokens c = listed (COMMA, o) (a :: more) ++ tail ->
  define_arguments (S (List.length more + k)) "" c =
    (t' <- next_token ;;
     if token_eqb (fst t') COMMA
     then define_arguments k (comma_list (a :: more))
     else ret (comma_list (a :: more), fst t'))
      (with_tokens c tail).
Proof.
  intros Hn Ht. inversion Hn as [|? ? Ha Hmore]; subst.
  cbn [listed app] in Ht. cbn [comma_list].
  destruct Hmore as [|a' more Ha' Hmore].
  - cbn [separated flat_map app] in Ht. cbn [List.length Nat.add comma_more].
    rewrite (define_arguments_name k "" c a tail Ha Ht).
    cbn [String.length Z.of_nat Z.ltb Z.compare String.append].
    now rewrite append_empty_r.
  - cbn [separated flat_map app] in Ht. cbn [List.length Nat.add comma_more].
    rewrite (define_arguments_name _ "" c a _ Ha Ht).
    cbn [String.length Z.of_nat Z.ltb Z.compare]. 
    change (String.append "" (snd a)) with (snd a).
    unfold bind at 1.
    rewrite (next_token_cons _ (COMMA, o) (a' :: separated (COMMA, o) more ++ tail))
      by reflexivity.
    cbn [fst token_eqb dhcp_token_beq]. rewrite with_tokens_twice.
    rewrite (define_arguments_run o more Hmore k (snd a)
               (with_tokens c (a' :: separated (COMMA, o) more ++ tail))
               a' tail Ha').
    + rewrite with_tokens_twice. reflexivity.
    + destruct (argument_name_kind a Ha) as (_ & _ & Hl).
      apply Z.ltb_lt in Hl. lia.
    + reflexivity.
Qed.

Section DefineStatement.
Variable gethostbyname : string -> option (list (list Z)).
Variable inet_ntop : list Z -> option string.
Variable parse_ip6_addr_txt : M string.
Variable server_option : string -> bool.

Local Notation stmt := (parse_executable_statement gethostbyname inet_ntop parse_ip6_addr_txt server_option).

Lemma empty_block f case_context c b rest :
  tokens c = (RBRACE, b) :: rest ->
  statements_of
    (statements_loop gethostbyname inet_ntop parse_ip6_addr_txt server_option
       (S (S f))) createList case_context c
  = Done (Some createList,
          Parse ((RBRACE, b) :: rest) [] (issue_counter c) (stack c) false).
Proof.
  intro Ht. destruct c as [tk pd ic st ls]. cbn [tokens] in Ht. subst tk.
  reflexivity.
Qed.

Lemma define_statement_body f result case_context c d n l value b b' rest k :
  (fst d = DEFINE \/ fst d = TOKEN_SET) ->
  (fst n = NAME \/ fst n = NUMBER_OR_NAME) ->
  tokens c = d :: n :: (LPAREN, l) :: k ->
  define_arguments (S (List.length k)) ""
    (Parse k (pending c) (issue_counter c + 1) (stack c) (lose c))
  = Done ((value, RPAREN),
          Parse ((LBRACE, b) :: (RBRACE, b') :: rest) (pending c)
            (issue_counter c + 1) (stack c) (lose c)) ->
  stmt (S (S (S f))) result case_context c =
    Done (Some (mapSet result
                  (mapSet
                     (mapSet
                        (mapSet (set_skip createMap) (createString (snd n)) "name")
                        (createString value) "arguments")
                     createList "function-body")
                  (definition_key (fst d))),
          Parse rest [] (issue_counter c + 1) (stack c) false).
Proof.
  intros Hd Hn Ht Hargs.
  destruct d as [dk dt], n as [nk nt]. cbn [fst snd] in *.
  generalize (empty_block f case_context). generalize (S (S f)) as F. intros F Hbody.
  cbn [parse_executable_statement].
  unfold bind at 1. rewrite (peek_token_cons _ _ _ Ht). cbn [fst].
  destruct c as [tk pd ic st ls]. cbn [tokens pending issue_counter stack lose] in *.
  subst tk.
  destruct Hd as [-> | ->]; destruct Hn as [-> | ->]; cbn iota.
  all: unfold bind at 1; unfold skip_token at 1, next_token at 1; cbn [tokens pending issue_counter stack lose].
  all: unfold bind at 1; unfold next_token at 1; cbn [tokens pending issue_counter stack lose fst snd token_eqb dhcp_token_beq negb andb].
  all: unfold bind at 1; unfold error_if at 1, ret at 1.
  all: unfold bind at 1; unfold issue at 1; cbn [tokens pending issue_counter stack lose].
  all: unfold bind at 1; unfold next_token at 1; cbn [tokens pending issue_counter stack lose fst snd token_eqb dhcp_token_beq].
  all: unfold bind at 1; unfold remaining at 1; cbn [tokens].
  all: unfold bind at 1; rewrite Hargs; cbn [fst snd token_eqb dhcp_token_beq negb].
  all: unfold bind at 1; unfold error_if at 1, ret at 1.
  all: unfold bind at 1; unfold expect at 1, bind at 1, next_token at 1; cbn [tokens pending issue_counter stack lose fst snd token_eqb dhcp_token_beq negb].
  all: unfold error_if at 1, ret at 1.
  all: unfold statements_loop in Hbody.
  all: unfold bind at 1; rewrite (Hbody (Parse ((RBRACE, b') :: rest) pd (ic + 1) st ls) b' rest eq_refl).
  all: reflexivity.
Qed.
End DefineStatement.

Lemma define_arguments_close k value c r rest :
  tokens c = (RPAREN, r) :: rest ->
  define_arguments (S k) value c = Done ((value, RPAREN), with_tokens c rest).
Proof.
  intro Ht. cbn [define_arguments]. unfold bind at 1.
  rewrite (next_token_cons _ _ _ Ht). reflexivity.
Qed.

Lemma define_arguments_closed o names trail c r rest :
  Forall (fun t => argument_name t = true) names ->
  trail = [] \/ (names <> [] /\ trail = [(COMMA, o)]) ->
  tokens c = listed (COMMA, o) names ++ trail ++ (RPAREN, r) :: rest ->
  define_arguments (S (List.length (tokens c))) "" c =
    Done ((comma_list names, RPAREN), with_tokens c rest).
Proof.
  intros Hn Htrail Ht. destruct names as [|a more].
  - destruct Htrail as [-> | [Hne _]]; [|now elim Hne].
    cbn [listed app] in Ht. now apply define_arguments_close with (r := r).
  - assert (Hlen : S (List.length (tokens c)) =
                   S (List.length more
                      + S (List.length more + List.length (trail ++ (RPAREN, r) :: rest)))).
    { rewrite Ht. cbn [listed app List.length].
      rewrite length_app, separated_length. lia. }
    rewrite Hlen.
    rewrite (define_arguments_list o a more _ c (trail ++ (RPAREN, r) :: rest) Hn Ht).
    destruct Htrail as [-> | [_ ->]]; cbn [app].
    + unfold bind at 1.
      rewrite (next_token_cons _ (RPAREN, r) rest) by reflexivity.
      rewrite with_tokens_twice. reflexivity.
    + unfold bind at 1.
      rewrite (next_token_cons _ (COMMA, o) ((RPAREN, r) :: rest)) by reflexivity.
      cbn [fst token_eqb dhcp_token_beq]. rewrite with_tokens_twice.
      rewrite (define_arguments_close _ _ _ r rest) by reflexivity.
      rewrite with_tokens_twice. reflexivity.
Qed.

(** X20. A function definition.  After "define" or "set", a name and
    "(", the argument names a1, ..., an written with commas between
    them, then ")" and an empty block "{ }":
    - the statement stored under "define" (or "set", by the keyword) is
      a flagged map with the name, the arguments as ONE string, the
      names with ", " between them (the empty string for no argument),
      and the body "[]"; one issue is counted;
    - a comma after the last name changes nothing: "(a, b,)" is read
      as "(a, b)". *)
Theorem define_statement_arguments :
  forall gethostbyname inet_ntop parse_ip6_addr_txt server_option
         f result case_context c d n l o names trail r b b' rest,
    (fst d = DEFINE \/ fst d = TOKEN_SET) ->
    (fst n = NAME \/ fst n = NUMBER_OR_NAME) ->
    Forall (fun t => argument_name t = true) names ->
    trail = [] \/ (names <> [] /\ trail = [(COMMA, o)]) ->
    tokens c = d :: n :: (LPAREN, l) ::
               listed (COMMA, o) names ++ trail ++
               (RPAREN, r) :: (LBRACE, b) :: (RBRACE, b') :: rest ->
    parse_executable_statement gethostbyname inet_ntop parse_ip6_addr_txt
      server_option (S (S (S f))) result case_context c =
      Done (Some (mapSet result
                    (mapSet
                       (mapSet
                          (mapSet (set_skip createMap) (createString (snd n)) "name")
                          (createString (comma_list names)) "arguments")
                       createList "function-body")
                    (definition_key (fst d))),
            Parse rest [] (issue_counter c + 1) (stack c) false).
Proof.
  intros g i p6 so f result ctx c d n l o names trail r b b' rest Hd Hn Hnames Htrail Ht.
  apply (define_statement_body g i p6 so f result ctx c d n l (comma_list names)
           b b' rest _ Hd Hn Ht).
  apply (define_arguments_closed o names trail
           (Parse (listed (COMMA, o) names ++ trail ++
                   (RPAREN, r) :: (LBRACE, b) :: (RBRACE, b') :: rest)
              (pending c) (issue_counter c + 1) (stack c) (lose c))
           r _ Hnames Htrail eq_refl).
Qed.

Lemma define_statement_arguments_witness :
  parse_executable_statement no_resolver no_ntop no_ip6 no_server_option 3
    createMap context_any
    (lexed [(DEFINE, "define"); (NAME, "pick"); (LPAREN, "(");
            (NAME, "a"); (COMMA, ","); (NAME, "b"); (COMMA, ",");
            (RPAREN, ")"); (LBRACE, "{"); (RBRACE, "}")])
  = Done (Some (Element
            (VMap [("define", Element
                      (VMap [("name", createString "pick");
                             ("arguments", createString "a, b");
                             ("function-body", createList)])
                      true [])]) false []),
          Parse [] [] 1 [] false).
Proof.
  assert (Hn : Forall (fun t => argument_name t = true) [(NAME, "a"); (NAME, "b")]).
  { repeat (apply Forall_cons; [reflexivity|]). apply Forall_nil. }
  assert (Ht : [(COMMA, ",")] = [] \/
               ([(NAME, "a"); (NAME, "b")] <> [] /\ [(COMMA, ",")] = [(COMMA, ",")])).
  { right. split; [discriminate|reflexivity]. }
  apply (define_statement_arguments no_resolver no_ntop no_ip6 no_server_option
           0%nat createMap context_any
           (lexed [(DEFINE, "define"); (NAME, "pick"); (LPAREN, "(");
                   (NAME, "a"); (COMMA, ","); (NAME, "b"); (COMMA, ",");
                   (RPAREN, ")"); (LBRACE, "{"); (RBRACE, "}")])
           (DEFINE, "define") (NAME, "pick") "(" ","
           [(NAME, "a"); (NAME, "b")] [(COMMA, ",")] ")" "{" "}" []
           (or_introl eq_refl) (or_introl eq_refl) Hn Ht eq_refl).
Defined.
